(** * Accuracy evaluation of a morphological analyzer: [scripts/accuracy/eval.py]

    A shallow embedding of the evaluation pipeline: the Apertium-format
    parser, the alias normalizer, the transliteration pass, the accuracy
    predicates and [compare].

    Python [str] values are embedded as [string].  Every delimiter the
    program looks at ([^ $ / < > *] and newline) is ASCII, and UTF-8 never
    uses an ASCII byte inside a multi-byte character, so reading a [string]
    as the UTF-8 encoding of the Python text leaves every scan below
    unchanged. *)

From Stdlib Require Import String Ascii List Arith Bool Lia QArith.
From Stdlib Require Import DecimalString.
Import ListNotations.
Open Scope string_scope.
Open Scope nat_scope.

(** ** Exceptions and fallible results *)

Inductive exn : Type :=
| RuntimeError (reference_count predicted_count : nat)
| IndexError
| KeyError
| ZeroDivisionError
| HfstException
| FileNotFoundError.

Inductive result (A : Type) : Type :=
| Ok (a : A)
| Raise (e : exn).
Arguments Ok {A} a.
Arguments Raise {A} e.

Definition bindR {A B : Type} (c : result A) (k : A -> result B) : result B :=
  match c with
  | Ok a => k a
  | Raise e => Raise e
  end.

Notation "x <-? c ;; k" := (bindR c (fun x => k))
  (at level 61, c at next level, right associativity).

(** ** Python string operations *)

Module Str.

(** [sub in s] *)
Fixpoint contains (sub s : string) : bool :=
  prefix sub s ||
  match s with
  | EmptyString => false
  | String _ s' => contains sub s'
  end.

(** [s.endswith(suffix)] *)
Definition endswith (s suffix : string) : bool :=
  let n := String.length s in
  let k := String.length suffix in
  (k <=? n) && String.eqb (substring (n - k) k s) suffix.

(** [s.split(sep)] for a one-character separator *)
Fixpoint split (sep : ascii) (s : string) : list string :=
  match s with
  | EmptyString => [EmptyString]
  | String c s' =>
      if Ascii.eqb c sep then EmptyString :: split sep s'
      else match split sep s' with
           | [] => [String c EmptyString]
           | w :: ws => String c w :: ws
           end
  end.

(** [sep.join(l)] *)
Fixpoint join (sep : string) (l : list string) : string :=
  match l with
  | [] => EmptyString
  | [x] => x
  | x :: rest => x ++ sep ++ join sep rest
  end.

(** [s.replace(old, new)]: the occurrences of [old] are found from the
    left and do not overlap.  [skip] counts the characters of a replaced
    occurrence that are still to be passed over.  With an empty [old],
    Python puts [new] before every character and at the end. *)
Fixpoint replace_from (old new : string) (skip : nat) (s : string) : string :=
  match s with
  | EmptyString => EmptyString
  | String c s' =>
      match skip with
      | S k => replace_from old new k s'
      | O =>
          if prefix old s
          then new ++ replace_from old new (String.length old - 1) s'
          else String c (replace_from old new 0 s')
      end
  end.

Fixpoint intersperse (new s : string) : string :=
  match s with
  | EmptyString => new
  | String c s' => new ++ String c (intersperse new s')
  end.

Definition replace (old new s : string) : string :=
  match old with
  | EmptyString => intersperse new s
  | _ => replace_from old new 0 s
  end.

End Str.

(** ** Regular expressions of the program

    Each pattern is a fixed sequence of single characters and greedy
    character-class runs, and the character after a run is never in the
    run's class: a shorter run is followed by a character of the class, so
    backtracking into a run never helps and the greedy run decides. *)

Module Re.

(** The longest prefix of [s] inside the class, and what follows. *)
Fixpoint span (cls : ascii -> bool) (s : string) : string * string :=
  match s with
  | EmptyString => (EmptyString, EmptyString)
  | String c s' =>
      if cls c then let (g, rest) := span cls s' in (String c g, rest)
      else (EmptyString, s)
  end.

(** [cls+] followed by the character [close], at the head of [s]:
    the run, and the length of the match. *)
Definition run_then (cls : ascii -> bool) (close : ascii) (s : string)
  : option (string * nat) :=
  match span cls s with
  | (String c g, String d _) =>
      if Ascii.eqb d close then Some (String c g, S (S (String.length g))) else None
  | _ => None
  end.

(** A pattern matched at the head of a string: what [findall] reports for
    the match, and the length of the match. *)
Definition matcher := string -> option (string * nat).

(** [re.findall] / [re.finditer]: leftmost matches, not overlapping.  None
    of the patterns matches the empty string. *)
Fixpoint findall_from (m : matcher) (skip : nat) (s : string) : list string :=
  match s with
  | EmptyString => []
  | String _ s' =>
      match skip with
      | S k => findall_from m k s'
      | O =>
          match m s with
          | Some (g, len) => g :: findall_from m (len - 1) s'
          | None => findall_from m 0 s'
          end
      end
  end.

Definition findall (m : matcher) (s : string) : list string :=
  findall_from m 0 s.

Definition lt_sign : ascii := "<"%char.
Definition gt_sign : ascii := ">"%char.
Definition caret : ascii := "^"%char.
Definition dollar : ascii := "$"%char.
Definition newline : ascii := "010"%char.

(** [[^<>]] *)
Definition not_angle (c : ascii) : bool :=
  negb (Ascii.eqb c lt_sign || Ascii.eqb c gt_sign).

(** [[^<>\n]] *)
Definition not_angle_nl (c : ascii) : bool :=
  negb (Ascii.eqb c lt_sign || Ascii.eqb c gt_sign || Ascii.eqb c newline).

(** [[^\^\$]] *)
Definition not_caret_dollar (c : ascii) : bool :=
  negb (Ascii.eqb c caret || Ascii.eqb c dollar).

(** [\^([^\^\$]+)\$] *)
Definition apertium_re : matcher := fun s =>
  match s with
  | String c s1 =>
      if Ascii.eqb c caret then
        match run_then not_caret_dollar dollar s1 with
        | Some (g, n) => Some (g, S n)
        | None => None
        end
      else None
  | EmptyString => None
  end.

(** [>?([^<>]+)<]: the optional [>] is tried first; without it the run
    would have to start at that [>]. *)
Definition stem_re : matcher := fun s =>
  match s with
  | String c s1 =>
      if Ascii.eqb c gt_sign then
        match run_then not_angle lt_sign s1 with
        | Some (g, n) => Some (g, S n)
        | None => run_then not_angle lt_sign s
        end
      else run_then not_angle lt_sign s
  | EmptyString => None
  end.

(** [[^<>\n]+<([^<>]+)>] *)
Definition pos_re : matcher := fun s =>
  match span not_angle_nl s with
  | (String c a, String d r1) =>
      if Ascii.eqb d lt_sign then
        match run_then not_angle gt_sign r1 with
        | Some (g, n) => Some (g, S (String.length a) + 1 + n)
        | None => None
        end
      else None
  | _ => None
  end.

(** [<[^<>]+>], no group: the whole match is reported. *)
Definition tag_re : matcher := fun s =>
  match s with
  | String c s1 =>
      if Ascii.eqb c lt_sign then
        match run_then not_angle gt_sign s1 with
        | Some (g, n) => Some (String lt_sign g ++ String gt_sign EmptyString, S n)
        | None => None
        end
      else None
  | EmptyString => None
  end.

End Re.

(** ** HFST output *)

Record ParsedItem : Type := mkParsedItem {
  input_str : string;
  out_variants : list string
}.

(** [ParsedItem.variants] *)
Definition variants (it : ParsedItem) : string :=
  Str.join "/" (out_variants it).

(** [input_str, *output_variants = apertium.split('/')] *)
Definition item_of_span (apertium : string) : ParsedItem :=
  match Str.split "/"%char apertium with
  | [] => mkParsedItem EmptyString []
  | w :: vs => mkParsedItem w vs
  end.

Definition parse_apertium (stdout : string) : list ParsedItem :=
  map item_of_span (Re.findall Re.apertium_re stdout).

(** ** Stem transliteration *)

(** [l[0]] *)
Definition first {A : Type} (l : list A) : result A :=
  match l with
  | [] => Raise IndexError
  | x :: _ => Ok x
  end.

Definition get_stem (tagged : string) : result string :=
  first (Re.findall Re.stem_re tagged).

(** ** Accuracy functions *)

Definition AccFunc : Type := string -> string -> result bool.

Definition match_exact : AccFunc := fun tagged1 tagged2 =>
  Ok (String.eqb tagged1 tagged2).

Definition match_stem : AccFunc := fun tagged1 tagged2 =>
  stem1 <-? get_stem tagged1 ;;
  stem2 <-? get_stem tagged2 ;;
  Ok (String.eqb stem1 stem2).

Definition match_pos : AccFunc := fun tagged1 tagged2 =>
  pos1 <-? first (Re.findall Re.pos_re tagged1) ;;
  pos2 <-? first (Re.findall Re.pos_re tagged2) ;;
  Ok (String.eqb pos1 pos2).

(** [a and b] evaluates [b] only when [a] is true. *)
Definition match_stem_and_pos : AccFunc := fun tagged1 tagged2 =>
  s <-? match_stem tagged1 tagged2 ;;
  if s then match_pos tagged1 tagged2 else Ok false.

Definition mem (x : string) (l : list string) : bool :=
  existsb (String.eqb x) l.

(** Equality of the sets of two lists. *)
Definition set_eqb (l1 l2 : list string) : bool :=
  forallb (fun x => mem x l2) l1 && forallb (fun x => mem x l1) l2.

Definition match_unordered : AccFunc := fun tagged1 tagged2 =>
  let tags1 := Re.findall Re.tag_re tagged1 in
  let tags2 := Re.findall Re.tag_re tagged2 in
  s <-? match_stem tagged1 tagged2 ;;
  if s then Ok (set_eqb tags1 tags2) else Ok false.

(** A registry of metrics: a dict in insertion order, as an association
    list whose keys are distinct. *)
Definition AccFuncsMapping : Type := list (string * AccFunc).

Definition accuracy_funcs : AccFuncsMapping :=
  [ ("exact_match", match_exact);
    ("stem_match", match_stem);
    ("pos_match", match_pos);
    ("stem_and_pos_match", match_stem_and_pos);
    ("unordered_tags_match", match_unordered) ].

(** ** Python dicts keyed by strings

    Insertion order is kept: assigning to a key that is present replaces
    its value in place, a new key goes to the end. *)

Module Dict.

Definition t (V : Type) : Type := list (string * V).

Definition keys {V : Type} (d : t V) : list string := map fst d.

(** [d[k]] *)
Fixpoint get {V : Type} (k : string) (d : t V) : result V :=
  match d with
  | [] => Raise KeyError
  | (k', v) :: d' => if String.eqb k k' then Ok v else get k d'
  end.

(** [d[k] = v] *)
Fixpoint set {V : Type} (k : string) (v : V) (d : t V) : t V :=
  match d with
  | [] => [(k, v)]
  | (k', v') :: d' =>
      if String.eqb k k' then (k', v) :: d' else (k', v') :: set k v d'
  end.

(** [d[k] = f(d[k])], as in [d[k]['n'] += 1] *)
Definition update {V : Type} (k : string) (f : V -> V) (d : t V) : result (t V) :=
  v <-? get k d ;; Ok (set k (f v) d).

End Dict.

(** ** Alias normalization *)

Definition tag_aliases : Dict.t string :=
  [ ("<lat>", "<dat>"); ("<o>", "<obl>") ].

(** The inner loop of [replace_aliases], on one reference string. *)
Definition apply_aliases (aliases : Dict.t string) (tagged_i : string) : string :=
  fold_left (fun cur alias => Str.replace (fst alias) (snd alias) cur)
            aliases tagged_i.

(** The list is rewritten in place; the model returns its new contents. *)
Definition replace_aliases (tagged : list string) : list string :=
  map (apply_aliases tag_aliases) tagged.

(** ** The transliteration pass *)

(** ['*' in it.out_variants[0]] *)
Definition is_unknown (it : ParsedItem) : result bool :=
  v0 <-? first (out_variants it) ;; Ok (Str.contains "*" v0).

(** What [make_latin] did: the batches handed to [hfst_lookup], in order,
    the items as the in-place rewriting left them, and the exception that
    ended the call, if any. *)
Record LatinRun : Type := mkLatinRun {
  lookups : list (list string);
  items_after : list ParsedItem;
  raised : option exn
}.

Section MakeLatin.

(** [hfst_lookup] on the transliterator file: an external process. *)
Variable hfst_lookup : list string -> result (list ParsedItem).

(** [for var in it.out_variants: cyr2lat[get_stem(var)] = []] *)
Fixpoint gather_variants (vars : list string) (cyr2lat : Dict.t (list string))
  : result (Dict.t (list string)) :=
  match vars with
  | [] => Ok cyr2lat
  | var :: rest =>
      stem <-? get_stem var ;;
      gather_variants rest (Dict.set stem [] cyr2lat)
  end.

(** The first loop of [make_latin]. *)
Fixpoint gather_stems (items : list ParsedItem) (cyr2lat : Dict.t (list string))
  : result (Dict.t (list string)) :=
  match items with
  | [] => Ok cyr2lat
  | it :: rest =>
      u <-? is_unknown it ;;
      if u then gather_stems rest cyr2lat
      else
        d <-? gather_variants (out_variants it) cyr2lat ;;
        gather_stems rest d
  end.

(** The second loop: the answers are stored under their input string. *)
Definition store_translits (translits : list ParsedItem)
  (cyr2lat : Dict.t (list string)) : Dict.t (list string) :=
  fold_left (fun d translit =>
               Dict.set (input_str translit) (out_variants translit) d)
            translits cyr2lat.

(** The variants loop of the third loop. *)
Fixpoint new_variants (cyr2lat : Dict.t (list string)) (vars : list string)
  : result (list string) :=
  match vars with
  | [] => Ok []
  | var :: rest =>
      stem <-? get_stem var ;;
      lat_stems <-? Dict.get stem cyr2lat ;;
      more <-? new_variants cyr2lat rest ;;
      Ok (map (fun lat_stem => Str.replace stem lat_stem var) lat_stems ++ more)%list
  end.

(** The third loop.  An exception leaves the items not yet reached as
    they were. *)
Fixpoint rewrite_items (cyr2lat : Dict.t (list string)) (items : list ParsedItem)
  : list ParsedItem * option exn :=
  match items with
  | [] => ([], None)
  | it :: rest =>
      match is_unknown it with
      | Raise e => (items, Some e)
      | Ok true =>
          let (rest', e) := rewrite_items cyr2lat rest in (it :: rest', e)
      | Ok false =>
          match new_variants cyr2lat (out_variants it) with
          | Raise e => (items, Some e)
          | Ok vs =>
              let (rest', e) := rewrite_items cyr2lat rest in
              (mkParsedItem (input_str it) vs :: rest', e)
          end
      end
  end.

Definition make_latin (items : list ParsedItem) : LatinRun :=
  match gather_stems items [] with
  | Raise e => mkLatinRun [] items (Some e)
  | Ok cyr2lat =>
      let batch := Dict.keys cyr2lat in
      match hfst_lookup batch with
      | Raise e => mkLatinRun [batch] items (Some e)
      | Ok translits =>
          let (items', e) := rewrite_items (store_translits translits cyr2lat) items in
          mkLatinRun [batch] items' e
      end
  end.

End MakeLatin.

(** ** Detail logging

    The detail files are the only state [compare] shares with the outside;
    they are kept as the list of rows appended so far, each with its file. *)

Record Detail : Type := mkDetail {
  dir : string;
  out_file : string;
  wordform : string;
  reference : string;
  real_output : string;
  verdict : string
}.

Definition M (A : Type) : Type := list Detail -> list Detail * result A.

Definition ret {A : Type} (a : A) : M A := fun w => (w, Ok a).

Definition raise {A : Type} (e : exn) : M A := fun w => (w, Raise e).

Definition lift {A : Type} (r : result A) : M A := fun w => (w, r).

Definition bind {A B : Type} (c : M A) (k : A -> M B) : M B :=
  fun w =>
    match c w with
    | (w', Ok a) => k a w'
    | (w', Raise e) => (w', Raise e)
    end.

Notation "x <- c ;; k" := (bind c (fun x => k))
  (at level 61, c at next level, right associativity).
Notation "c ;;; k" := (bind c (fun _ => k))
  (at level 61, right associativity).

Definition log_details (details_dir : option string) (file wf ref real res : string)
  : M unit :=
  fun w =>
    match details_dir with
    | None => (w, Ok tt)
    | Some d =>
        let file' := if Str.endswith file ".csv" then file else file ++ ".csv" in
        ((w ++ [mkDetail d file' wf ref real res])%list, Ok tt)
    end.

(** ** Evaluation *)

Module Metric.
(** One entry of [acc_results]; ['acc'] is absent until the last loop. *)
Record t : Type := mk {
  correct : nat;
  recognized : nat;
  acc : option Q
}.
End Metric.

Record RunResult : Type := mkRunResult {
  total : nat;
  recognized : nat;
  accuracy : Dict.t Metric.t
}.

(** [a / b] on non-negative integers; the float quotient is kept exact. *)
Definition truediv (a b : nat) : result Q :=
  match b with
  | O => Raise ZeroDivisionError
  | S _ => Ok (Z.of_nat a # Pos.of_nat b)
  end.

Definition incr_recognized (m : Metric.t) : Metric.t :=
  Metric.mk (Metric.correct m) (Metric.recognized m + 1) (Metric.acc m).

Definition incr_correct (m : Metric.t) : Metric.t :=
  Metric.mk (Metric.correct m + 1) (Metric.recognized m) (Metric.acc m).

Definition set_acc (a : Q) (m : Metric.t) : Metric.t :=
  Metric.mk (Metric.correct m) (Metric.recognized m) (Some a).

Section Compare.

Variable acc_funcs : AccFuncsMapping.
Variable details_dir : option string.

(** [for pred_var in pred.out_variants: ...], up to the [break]. *)
Fixpoint try_variants (acc_type ref : string) (pred : ParsedItem)
  (vars : list string) (is_correct : bool) (acc_results : Dict.t Metric.t)
  : M (bool * Dict.t Metric.t) :=
  match vars with
  | [] => ret (is_correct, acc_results)
  | pred_var :: rest =>
      f <- lift (Dict.get acc_type acc_funcs) ;;
      hit <- lift (f ref pred_var) ;;
      if hit then
        acc_results' <- lift (Dict.update acc_type incr_correct acc_results) ;;
        log_details details_dir acc_type (input_str pred) ref (variants pred) "CORRECT" ;;;
        ret (true, acc_results')
      else try_variants acc_type ref pred rest is_correct acc_results
  end.

(** [for acc_type in acc_funcs.keys(): ...]; [is_correct] is the variable of
    the enclosing item loop and is carried from one metric to the next. *)
Fixpoint score_metrics (ref : string) (pred : ParsedItem) (acc_types : list string)
  (is_correct : bool) (acc_results : Dict.t Metric.t)
  : M (bool * Dict.t Metric.t) :=
  match acc_types with
  | [] => ret (is_correct, acc_results)
  | acc_type :: rest =>
      acc1 <- lift (Dict.update acc_type incr_recognized acc_results) ;;
      st <- try_variants acc_type ref pred (out_variants pred) is_correct acc1 ;;
      (if negb (fst st)
       then log_details details_dir acc_type (input_str pred) ref (variants pred) "FAIL"
       else ret tt) ;;;
      score_metrics ref pred rest (fst st) (snd st)
  end.

(** [for ref, pred in zip(reference, predicted): ...] *)
Fixpoint score_items (pairs : list (string * ParsedItem))
  (recognized : nat) (acc_results : Dict.t Metric.t)
  : M (nat * Dict.t Metric.t) :=
  match pairs with
  | [] => ret (recognized, acc_results)
  | (ref, pred) :: rest =>
      u <- lift (is_unknown pred) ;;
      if u then
        log_details details_dir "unknown" (input_str pred) ref (variants pred) "UNKNOWN" ;;;
        score_items rest recognized acc_results
      else
        st <- score_metrics ref pred (Dict.keys acc_funcs) false acc_results ;;
        score_items rest (recognized + 1) (snd st)
  end.

(** The last loop: the fractions. *)
Fixpoint fractions (acc_types : list string) (acc_results : Dict.t Metric.t)
  : result (Dict.t Metric.t) :=
  match acc_types with
  | [] => Ok acc_results
  | acc_type :: rest =>
      m <-? Dict.get acc_type acc_results ;;
      a <-? (if Metric.recognized m =? 0 then Ok 0%Q
             else truediv (Metric.correct m) (Metric.recognized m)) ;;
      d <-? Dict.update acc_type (set_acc a) acc_results ;;
      fractions rest d
  end.

(** [{k: {'correct': 0, 'recognized': 0} for k in acc_funcs.keys()}] *)
Definition initial_results : Dict.t Metric.t :=
  fold_left (fun d k => Dict.set k (Metric.mk 0 0 None) d) (Dict.keys acc_funcs) [].

Definition compare (reference : list string) (predicted : list ParsedItem)
  : M RunResult :=
  if negb (List.length reference =? List.length predicted)
  then raise (RuntimeError (List.length reference) (List.length predicted))
  else
    let total := List.length reference in
    st <- score_items (combine reference predicted) 0 initial_results ;;
    acc_results <- lift (fractions (Dict.keys acc_funcs) (snd st)) ;;
    ret (mkRunResult total (fst st) acc_results).

End Compare.

(** ** Predicates used in the statements *)

(** The character [h] does not occur in [s]. *)
Fixpoint avoids (h : ascii) (s : string) : bool :=
  match s with
  | EmptyString => true
  | String c s' => negb (Ascii.eqb c h) && avoids h s'
  end.

(** No [<] of the string comes right after a character other than [<]
    and [>]: the string has no stem to extract. *)
Definition tagless (s : string) : Prop :=
  forall a c b, s = a ++ String c (String Re.lt_sign b) -> Re.not_angle c = false.

(** Every character of [s] is in the class. *)
Fixpoint all_chars (cls : ascii -> bool) (s : string) : bool :=
  match s with
  | EmptyString => true
  | String c s' => cls c && all_chars cls s'
  end.

(** Somewhere in [s] a character other than [<] and [>] is followed by
    [<]: the decidable reading of "not [tagless]". *)
Fixpoint has_stem_site (s : string) : bool :=
  match s with
  | EmptyString => false
  | String c s' =>
      match s' with
      | String d _ => (Re.not_angle c && Ascii.eqb d Re.lt_sign) || has_stem_site s'
      | EmptyString => false
      end
  end.

(** The first variant of the item carries the unknown marker. *)
Definition carries_unknown_marker (it : ParsedItem) : Prop :=
  exists v rest, out_variants it = v :: rest /\ Str.contains "*" v = true.

(** The item is scored: its first variant exists and has no marker. *)
Definition recognizedb (it : ParsedItem) : bool :=
  match is_unknown it with
  | Ok false => true
  | _ => false
  end.

Definition count_recognized (items : list ParsedItem) : nat :=
  List.length (filter recognizedb items).

(** The item is skipped as unknown by the loops. *)
Definition unknownb (it : ParsedItem) : bool :=
  match is_unknown it with
  | Ok true => true
  | _ => false
  end.

(** The variant has a stem. *)
Definition has_stem (var : string) : Prop := exists s, get_stem var = Ok s.

(** [s] is the stem of a variant of an item of [items] that is not unknown. *)
Definition stem_of_recognized (items : list ParsedItem) (s : string) : Prop :=
  exists it var,
    In it items /\ is_unknown it = Ok false /\
    In var (out_variants it) /\ get_stem var = Ok s.

(** The first loop of [make_latin] meets no exception on the item: it has
    a first variant and, unless unknown, a stem in every variant. *)
Definition extractable (it : ParsedItem) : Prop :=
  exists u, is_unknown it = Ok u /\
            (u = false -> Forall has_stem (out_variants it)).

(** How often the character occurs in the string. *)
Fixpoint count_char (c : ascii) (s : string) : nat :=
  match s with
  | EmptyString => 0
  | String x s' => (if Ascii.eqb x c then 1 else 0) + count_char c s'
  end.

(** The computation ends in an exception, whatever the log was. *)
Definition raises {A : Type} (c : M A) : Prop :=
  forall w, exists w' e, c w = (w', Raise e).

(** The counts of a metric are coherent. *)
Definition counts_ok (d : Dict.t Metric.t) : Prop :=
  Forall (fun kv => Metric.correct (snd kv) <= Metric.recognized (snd kv)) d.

(** A finished entry of the result: coherent counts and an accuracy
    between 0 and 1 that is 0 when nothing was recognized. *)
Definition scored (m : Metric.t) : Prop :=
  Metric.correct m <= Metric.recognized m /\
  exists a, Metric.acc m = Some a /\
            (0 <= a)%Q /\ (a <= 1)%Q /\
            (Metric.recognized m = 0 -> (a == 0)%Q).

(** What a logging computation can end in, whatever the log was: a value
    satisfying [Q] or an exception satisfying [E]. *)
Definition outcome {A : Type} (c : M A) (Q : A -> Prop) (E : exn -> Prop) : Prop :=
  forall w, match snd (c w) with Ok a => Q a | Raise e => E e end.

(** ** Text the analyzer prints *)

(** The span of an item in the apertium convention: [^input/var1/var2$]. *)
Definition render_item (it : ParsedItem) : string :=
  "^" ++ Str.join "/" (input_str it :: out_variants it) ++ "$".

(** A field of a span: no [^], [$] or [/] in it. *)
Definition clean_field (s : string) : bool :=
  all_chars (fun c => Re.not_caret_dollar c && negb (Ascii.eqb c "/")) s.

(** An item the analyzer can print so that it is read back: clean fields,
    and a span that is not empty. *)
Definition printable_item (it : ParsedItem) : Prop :=
  clean_field (input_str it) = true /\
  Forall (fun v => clean_field v = true) (out_variants it) /\
  (input_str it <> EmptyString \/ out_variants it <> []).

(** The strings of a list, one after the other. *)
Fixpoint concat_all (l : list string) : string :=
  match l with
  | [] => EmptyString
  | x :: rest => x ++ concat_all rest
  end.

(** ** A direct reading of [compare]

    What [compare] computes, without the loops' state: used to state what
    the code returns. *)

(** The variants loop without its effects: whether some variant satisfies
    [f], trying them in order; an exception of [f] ends the search. *)
Fixpoint first_match (f : AccFunc) (ref : string) (vars : list string)
  : result bool :=
  match vars with
  | [] => Ok false
  | v :: rest =>
      hit <-? f ref v ;;
      if hit then Ok true else first_match f ref rest
  end.

Definition metric_hit (f : AccFunc) (ref : string) (pred : ParsedItem) : bool :=
  match first_match f ref (out_variants pred) with
  | Ok true => true
  | _ => false
  end.

(** The recognized items of which some variant satisfies [f]. *)
Definition hits (f : AccFunc) (pairs : list (string * ParsedItem)) : nat :=
  List.length
    (filter (fun p => recognizedb (snd p) && metric_hit f (fst p) (snd p)) pairs).

(** [c / n], and 0 when [n] is 0. *)
Definition ratio (c n : nat) : Q :=
  match n with
  | O => 0%Q
  | S _ => Z.of_nat c # Pos.of_nat n
  end.

(** The exceptions met on the way, in the order of the loops. *)
Fixpoint check_metrics (l : AccFuncsMapping) (ref : string) (pred : ParsedItem)
  : result unit :=
  match l with
  | [] => Ok tt
  | kf :: rest =>
      b <-? first_match (snd kf) ref (out_variants pred) ;;
      check_metrics rest ref pred
  end.

Fixpoint check_items (acc_funcs : AccFuncsMapping)
  (pairs : list (string * ParsedItem)) : result unit :=
  match pairs with
  | [] => Ok tt
  | (ref, pred) :: rest =>
      u <-? is_unknown pred ;;
      if u then check_items acc_funcs rest
      else
        t <-? check_metrics acc_funcs ref pred ;;
        check_items acc_funcs rest
  end.

Definition expected_result (acc_funcs : AccFuncsMapping)
  (reference : list string) (predicted : list ParsedItem) : RunResult :=
  let pairs := combine reference predicted in
  let n := count_recognized predicted in
  mkRunResult (List.length reference) n
    (map (fun kf => (fst kf,
                     Metric.mk (hits (snd kf) pairs) n
                               (Some (ratio (hits (snd kf) pairs) n))))
         acc_funcs).

Definition compare_spec (acc_funcs : AccFuncsMapping)
  (reference : list string) (predicted : list ParsedItem) : result RunResult :=
  if negb (List.length reference =? List.length predicted)
  then Raise (RuntimeError (List.length reference) (List.length predicted))
  else
    t <-? check_items acc_funcs (combine reference predicted) ;;
    Ok (expected_result acc_funcs reference predicted).

(** The computation ends in [r], whatever the log was. *)
Definition yields {A : Type} (c : M A) (r : result A) : Prop :=
  forall w, snd (c w) = r.

(** A dict with the keys of [l], in their order. *)
Definition entries {V W : Type} (l : Dict.t V) (g : string * V -> W) : Dict.t W :=
  map (fun kf => (fst kf, g kf)) l.

Definition b2n (b : bool) : nat := if b then 1 else 0.

(** One item scored for a metric. *)
Definition bump (hit : bool) (m : Metric.t) : Metric.t :=
  Metric.mk (Metric.correct m + b2n hit) (Metric.recognized m + 1) (Metric.acc m).

(** The [correct] count of a metric in a result, 0 if the metric is absent. *)
Definition correct_of (k : string) (r : RunResult) : nat :=
  match Dict.get k (accuracy r) with
  | Ok m => Metric.correct m
  | Raise _ => 0
  end.

(** ** The detail records of a run *)

(** The name of the file [log_details] appends to. *)
Definition csv_name (file : string) : string :=
  if Str.endswith file ".csv" then file else file ++ ".csv".

(** What one call of [log_details] appends. *)
Definition detail_rows (details_dir : option string) (file wf ref real res : string)
  : list Detail :=
  match details_dir with
  | None => []
  | Some d => [mkDetail d (csv_name file) wf ref real res]
  end.

(** The records of one recognized item: a CORRECT one for each metric with
    a matching variant, a FAIL one for a metric without, as long as no
    metric before it matched. *)
Fixpoint metric_rows (details_dir : option string) (l : AccFuncsMapping)
  (ref : string) (pred : ParsedItem) (is_correct : bool) : list Detail :=
  match l with
  | [] => []
  | kf :: rest =>
      let hit := metric_hit (snd kf) ref pred in
      ((if hit
        then detail_rows details_dir (fst kf) (input_str pred) ref (variants pred) "CORRECT"
        else if is_correct then []
             else detail_rows details_dir (fst kf) (input_str pred) ref
                              (variants pred) "FAIL")
       ++ metric_rows details_dir rest ref pred (is_correct || hit))%list
  end.

Definition item_rows (details_dir : option string) (acc_funcs : AccFuncsMapping)
  (p : string * ParsedItem) : list Detail :=
  if unknownb (snd p)
  then detail_rows details_dir "unknown" (input_str (snd p)) (fst p)
                   (variants (snd p)) "UNKNOWN"
  else metric_rows details_dir acc_funcs (fst p) (snd p) false.

Definition expected_rows (details_dir : option string) (acc_funcs : AccFuncsMapping)
  (pairs : list (string * ParsedItem)) : list Detail :=
  flat_map (item_rows details_dir acc_funcs) pairs.

(** The computation appends [rows] to the log. *)
Definition logs {A : Type} (c : M A) (rows : list Detail) : Prop :=
  forall w, fst (c w) = (w ++ rows)%list.

(** The computation only appends to the log, and rows satisfying [P]. *)
Definition appends {A : Type} (c : M A) (P : Detail -> Prop) : Prop :=
  forall w, exists rows, fst (c w) = (w ++ rows)%list /\ Forall P rows.

(** The record is about the item [pred] with reference [ref], in the
    directory given, with a verdict and a file that fit the item. *)
Definition row_about (details_dir : option string) (acc_funcs : AccFuncsMapping)
  (ref : string) (pred : ParsedItem) (row : Detail) : Prop :=
  details_dir = Some (dir row) /\
  wordform row = input_str pred /\ reference row = ref /\
  real_output row = variants pred /\
  ((verdict row = "UNKNOWN" /\ out_file row = "unknown.csv" /\
    is_unknown pred = Ok true) \/
   ((verdict row = "CORRECT" \/ verdict row = "FAIL") /\
    is_unknown pred = Ok false /\
    exists k, In k (Dict.keys acc_funcs) /\ out_file row = csv_name k)).

(** The rows of a log that satisfy a test. *)
Definition count_rows (p : Detail -> bool) (rows : list Detail) : nat :=
  List.length (filter p rows).

Definition has_verdict (v : string) (row : Detail) : bool :=
  String.eqb (verdict row) v.

Definition is_row (file v : string) (row : Detail) : bool :=
  String.eqb (out_file row) file && String.eqb (verdict row) v.

(** A transliterator that answers every string with itself. *)
Definition echo_lookup (batch : list string) : result (list ParsedItem) :=
  Ok (map (fun s => mkParsedItem s [s]) batch).

(** ** Input, report and [main]

    The rest of the script.  The outside world is given: the rows
    [csv.reader] yields, whether a file is there, what the [hfst-lookup]
    process returns on an input text, and how numbers and tables are
    rendered ([tabulate], the [.2f] format, [repr], [pformat]). *)

Inductive io_exn : Type :=
| EvalError (e : exn)
| ValueError
| StopIteration
| AssertionError.

Inductive run (A : Type) : Type :=
| Done (a : A)
| Failed (e : io_exn).
Arguments Done {A} a.
Arguments Failed {A} e.

(** [for w, t in reader: wordforms.append(w); tagged.append(t)] *)
Fixpoint unpack_rows (reader : list (list string)) (wordforms tagged : list string)
  : run (list string * list string) :=
  match reader with
  | [] => Done (wordforms, tagged)
  | row :: rest =>
      match row with
      | [w; t] => unpack_rows rest (wordforms ++ [w]) (tagged ++ [t])
      | _ => Failed ValueError
      end
  end.

(** The body shared by [read_stdin] and [read_csv], from [if drop_first]. *)
Definition read_rows (reader : list (list string)) (drop_first : bool)
  : run (list string * list string) :=
  match (if drop_first
         then match reader with
              | [] => Failed StopIteration
              | _ :: rest => Done rest
              end
         else Done reader) with
  | Failed e => Failed e
  | Done rows =>
      match unpack_rows rows [] [] with
      | Failed e => Failed e
      | Done (wordforms, tagged) =>
          if List.length wordforms =? List.length tagged
          then Done (wordforms, tagged)
          else Failed AssertionError
      end
  end.

Definition read_stdin (stdin_rows : list (list string)) (drop_first : bool)
  : run (list string * list string) :=
  read_rows stdin_rows drop_first.

(** [file_rows] is [None] when the file does not exist. *)
Definition read_csv (file_rows : option (list (list string))) (drop_first : bool)
  : run (list string * list string) :=
  match file_rows with
  | None => Failed (EvalError FileNotFoundError)
  | Some reader => read_rows reader drop_first
  end.

(** [hfst_lookup]: [is_file] tells whether the transducer file is there,
    [popen] gives the return code and the decoded output of the process on
    the text written to it. *)
Definition hfst_lookup (is_file : bool) (popen : string -> Z * string)
  (input_strings : list string) : result (list ParsedItem) :=
  if negb is_file then Raise FileNotFoundError
  else
    let (returncode, stdout) :=
      popen (Str.join (String Re.newline EmptyString) input_strings) in
    if negb (returncode =? 0)%Z then Raise HfstException
    else Ok (parse_apertium stdout).

(** [f'{n}'] *)
Definition str_of_nat (n : nat) : string :=
  NilZero.string_of_uint (Nat.to_uint n).

Section Report.

(** [f'{v * 100:.2f}%'] *)
Variable percent : Q -> string.
(** [tabulate(rows, tablefmt="rounded_outline", headers='firstrow')] *)
Variable tabulate : list (list string) -> string.
(** [str(results)] and [pformat(results)] *)
Variables repr pformat : RunResult -> string.

(** [for metric, data in results['accuracy'].items(): table.append(...)] *)
Fixpoint metric_table (accuracy : Dict.t Metric.t) : result (list (string * Q * string)) :=
  match accuracy with
  | [] => Ok []
  | (metric, data) :: rest =>
      a <-? match Metric.acc data with
            | Some a => Ok a
            | None => Raise KeyError
            end ;;
      more <-? metric_table rest ;;
      Ok ((metric, a,
           str_of_nat (Metric.correct data) ++ "/" ++ str_of_nat (Metric.recognized data))
          :: more)
  end.

(** What [table_results] prints. *)
Definition table_results (results : RunResult) (format : string) : result string :=
  if String.eqb format "table" then
    coverage <-? truediv (recognized results) (total results) ;;
    rows <-? metric_table (accuracy results) ;;
    let table :=
      ("coverage", coverage,
       str_of_nat (recognized results) ++ "/" ++ str_of_nat (total results)) :: rows in
    Ok (tabulate (["metric"; "value"; "absolute"]
                  :: map (fun row => [fst (fst row); percent (snd (fst row)); snd row])
                         table)
        ++ String Re.newline (String Re.newline EmptyString))
  else if String.eqb format "json" then
    Ok (repr results ++ String Re.newline EmptyString)
  else if String.eqb format "json_indent" then
    Ok (pformat results ++ String Re.newline EmptyString)
  else Ok EmptyString.

(** The parsed command line. *)
Record Args : Type := mkArgs {
  hfst_analyzer : string;
  csv : string;
  output_format : string;
  drop_first_csv_row : bool;
  hfst_translit : option string;
  details_dir : option string
}.

(** The world [main] runs in. *)
Record Env : Type := mkEnv {
  stdin_rows : list (list string);
  file_rows : string -> option (list (list string));
  is_file : string -> bool;
  popen : string -> string -> Z * string
}.

(** [if x:] for an optional string *)
Definition given (x : option string) : option string :=
  match x with
  | Some s => if String.eqb s EmptyString then None else Some s
  | None => None
  end.

(** [for f in details_dir.iterdir(): f.unlink()] *)
Definition clear_dir (d : string) (w : list Detail) : list Detail :=
  filter (fun row => negb (String.eqb (dir row) d)) w.

Definition main (env : Env) (args : Args) (w : list Detail)
  : list Detail * run string :=
  let dd := given (details_dir args) in
  let w0 := match dd with
            | Some d => clear_dir d w
            | None => w
            end in
  match (if String.eqb (csv args) "STDIN"
         then read_stdin (stdin_rows env) (drop_first_csv_row args)
         else read_csv (file_rows env (csv args)) (drop_first_csv_row args)) with
  | Failed e => (w0, Failed e)
  | Done (wordforms, reference) =>
      let reference := replace_aliases reference in
      match hfst_lookup (is_file env (hfst_analyzer args))
                        (popen env (hfst_analyzer args)) wordforms with
      | Raise e => (w0, Failed (EvalError e))
      | Ok predicted =>
          let latin :=
            match given (hfst_translit args) with
            | Some t => make_latin (hfst_lookup (is_file env t) (popen env t)) predicted
            | None => mkLatinRun [] predicted None
            end in
          match raised latin with
          | Some e => (w0, Failed (EvalError e))
          | None =>
              match compare accuracy_funcs dd reference (items_after latin) w0 with
              | (w1, Raise e) => (w1, Failed (EvalError e))
              | (w1, Ok results) =>
                  match table_results results (output_format args) with
                  | Raise e => (w1, Failed (EvalError e))
                  | Ok out => (w1, Done out)
                  end
              end
          end
      end
  end.

End Report.

(** The corpus [main] reads: [read_stdin] or [read_csv], by [args.csv]. *)
Definition corpus_read (env : Env) (args : Args) : run (list string * list string) :=
  if String.eqb (csv args) "STDIN"
  then read_stdin (stdin_rows env) (drop_first_csv_row args)
  else read_csv (file_rows env (csv args)) (drop_first_csv_row args).

(** ** scripts/ru_lemmas/process_db_dump.py *)

Module ProcessDbDump.

(** [re.sub(r'<|>', '', tag)]: every match of [<|>] is one character, and
    each is replaced by the empty string. *)
Fixpoint tag (tag0 : string) : string :=
  match tag0 with
  | EmptyString => EmptyString
  | String c rest =>
      if (Ascii.eqb c Re.lt_sign || Ascii.eqb c Re.gt_sign)%bool
      then tag rest
      else String c (tag rest)
  end.

End ProcessDbDump.

(** ** Sanity checks on the documented examples *)

Example parse_cat :
  parse_apertium "^cat/cat<n><sg>$" = [mkParsedItem "cat" ["cat<n><sg>"]].
Proof. reflexivity. Qed.

Example parse_dogs :
  parse_apertium "noise ^dogs/dog<n><pl>/dogs<n><pl>$ more^x/*x$" =
  [mkParsedItem "dogs" ["dog<n><pl>"; "dogs<n><pl>"]; mkParsedItem "x" ["*x"]].
Proof. reflexivity. Qed.

Example get_stem_car : get_stem "car<n><pl>" = Ok "car".
Proof. reflexivity. Qed.

Example get_stem_prefixed : get_stem "pl>car<n>" = Ok "car".
Proof. reflexivity. Qed.

Example metrics_on_car :
  match_exact "car<n><pl>" "car<n><pl>" = Ok true /\
  match_stem "car<n><pl>" "car<n><sg>" = Ok true /\
  match_pos "car<n><pl>" "car<n><sg>" = Ok true /\
  match_unordered "car<n><pl><foo>" "car<n><foo><pl>" = Ok true /\
  match_exact "car<n><pl><foo>" "car<n><foo><pl>" = Ok false.
Proof. repeat split; reflexivity. Qed.

Example replace_examples :
  Str.replace "<o>" "<obl>" "a<o><n><o>" = "a<obl><n><obl>" /\
  Str.replace "aa" "b" "aaa" = "ba" /\
  Str.replace "" "-" "abc" = "-a-b-c-".
Proof. repeat split; reflexivity. Qed.

Example compare_unknown :
  compare accuracy_funcs None ["car<n><pl>"] [mkParsedItem "car" ["*"]] [] =
  ([], Ok (mkRunResult 1 0
     [ ("exact_match", Metric.mk 0 0 (Some 0%Q));
       ("stem_match", Metric.mk 0 0 (Some 0%Q));
       ("pos_match", Metric.mk 0 0 (Some 0%Q));
       ("stem_and_pos_match", Metric.mk 0 0 (Some 0%Q));
       ("unordered_tags_match", Metric.mk 0 0 (Some 0%Q)) ])).
Proof. reflexivity. Qed.

(** * Properties *)

(** ** Strings *)

Lemma prefix_cons (a b : ascii) (p s : string) :
  prefix (String a p) (String b s) = Ascii.eqb a b && prefix p s.
Proof.
  simpl. destruct (ascii_dec a b) as [->|n].
  - now rewrite Ascii.eqb_refl.
  - apply Ascii.eqb_neq in n. now rewrite n.
Qed.

Lemma prefix_nil (s : string) : prefix EmptyString s = true.
Proof. now destruct s. Qed.

Lemma prefix_spec (p s : string) :
  prefix p s = true <-> exists r, s = p ++ r.
Proof.
  revert s. induction p as [|a p IH]; intros s.
  - rewrite prefix_nil. split; [exists s; reflexivity | trivial].
  - destruct s as [|b s].
    + simpl. split; [discriminate | intros [r H]; discriminate].
    + rewrite prefix_cons, andb_true_iff, Ascii.eqb_eq, IH. split.
      * intros [-> [r ->]]. now exists r.
      * intros [r H]. injection H as -> ->. split; [reflexivity | now exists r].
Qed.

Lemma append_assoc (a b c : string) : (a ++ b) ++ c = a ++ (b ++ c).
Proof. induction a as [|x a IH]; simpl; [reflexivity | now rewrite IH]. Qed.

Lemma contains_cons (sub : string) (c : ascii) (s : string) :
  Str.contains sub (String c s) = prefix sub (String c s) || Str.contains sub s.
Proof. reflexivity. Qed.

Lemma contains_spec (sub s : string) :
  Str.contains sub s = true <-> exists a b, s = a ++ sub ++ b.
Proof.
  induction s as [|c s IH].
  - unfold Str.contains. rewrite orb_false_r, prefix_spec. split.
    + intros [r H]. exists EmptyString, r. exact H.
    + intros [a [b H]]. destruct a; [now exists b | discriminate].
  - rewrite contains_cons, orb_true_iff, prefix_spec, IH. split.
    + intros [[r H] | [a [b H]]].
      * exists EmptyString, r. exact H.
      * exists (String c a), b. simpl. now rewrite H.
    + intros [a [b H]]. destruct a as [|x a].
      * left. now exists b.
      * right. injection H as _ H. now exists a, b.
Qed.

(** ** Replacement

    Old text, new text and the searched text [p] all start with the
    character [h], which occurs nowhere else in them. *)

Section ReplaceNoOccurrence.

Variable h : ascii.
Variables old' new' : string.
Hypothesis old_avoids : avoids h old' = true.
Hypothesis new_avoids : avoids h new' = true.

Let old := String h old'.
Let new := String h new'.

Lemma prefix_of_replaced (q : string) :
  avoids h q = true ->
  forall s, prefix q (Str.replace_from old new 0 s) = true -> prefix q s = true.
Proof.
  induction q as [|c1 q IH]; intros Hq s H.
  - apply prefix_nil.
  - simpl in Hq. apply andb_true_iff in Hq as [Hc Hq].
    destruct s as [|c s]; [discriminate H|].
    cbn [Str.replace_from] in H.
    destruct (prefix old (String c s)) eqn:E.
    + unfold new in H. simpl append in H. rewrite prefix_cons in H.
      apply andb_true_iff in H as [H _]. rewrite H in Hc. discriminate.
    + rewrite prefix_cons in H |- *. apply andb_true_iff in H as [H1 H2].
      rewrite H1. simpl. now apply IH.
Qed.

Lemma contains_skip_avoiding (p' q r : string) :
  avoids h q = true ->
  Str.contains (String h p') (q ++ r) = Str.contains (String h p') r.
Proof.
  intros Hq. induction q as [|c q IH]; [reflexivity|].
  simpl in Hq. apply andb_true_iff in Hq as [Hc Hq].
  simpl append. rewrite contains_cons, prefix_cons.
  rewrite Ascii.eqb_sym. apply negb_true_iff in Hc. rewrite Hc. simpl.
  now apply IH.
Qed.

Lemma replace_from_no_occurrence (p' : string) :
  avoids h p' = true ->
  (forall x, prefix p' (new' ++ x) = false) ->
  forall s k,
    Str.contains (String h p') s = false \/ p' = old' ->
    Str.contains (String h p') (Str.replace_from old new k s) = false.
Proof.
  intros Hp Hdiv. induction s as [|c s IH]; intros k Hs.
  - reflexivity.
  - assert (Hs' : Str.contains (String h p') s = false \/ p' = old').
    { destruct Hs as [Hs | Hs]; [left | now right].
      rewrite contains_cons in Hs. now apply orb_false_iff in Hs. }
    cbn [Str.replace_from]. destruct k as [|k]; [|now apply IH].
    destruct (prefix old (String c s)) eqn:E.
    + unfold new. simpl append. rewrite contains_cons.
      rewrite prefix_cons, Ascii.eqb_refl, Hdiv. simpl.
      rewrite contains_skip_avoiding by assumption. now apply IH.
    + rewrite contains_cons, (IH 0 Hs'), orb_false_r.
      destruct (prefix (String h p') (String c (Str.replace_from old new 0 s))) eqn:F;
        [exfalso | reflexivity].
      rewrite prefix_cons in F. apply andb_true_iff in F as [F1 F2].
      apply prefix_of_replaced in F2; [|assumption].
      assert (G : prefix (String h p') (String c s) = true).
      { rewrite prefix_cons, F1, F2. reflexivity. }
      destruct Hs as [Hs | ->].
      * rewrite contains_cons, G in Hs. discriminate.
      * fold old in G. rewrite G in E. discriminate.
Qed.

Lemma replace_from_absent (s : string) :
  Str.contains old s = false -> Str.replace_from old new 0 s = s.
Proof.
  induction s as [|c s IH]; intros H; [reflexivity|].
  rewrite contains_cons in H. apply orb_false_iff in H as [H1 H2].
  cbn [Str.replace_from]. rewrite H1. now rewrite IH.
Qed.

End ReplaceNoOccurrence.

Lemma apply_tag_aliases (t : string) :
  apply_aliases tag_aliases t =
  Str.replace "<o>" "<obl>" (Str.replace "<lat>" "<dat>" t).
Proof. reflexivity. Qed.

Lemma aliases_absent_after (t : string) :
  let t' := apply_aliases tag_aliases t in
  Str.contains "<lat>" t' = false /\ Str.contains "<o>" t' = false.
Proof.
  cbv zeta. rewrite apply_tag_aliases. unfold Str.replace. split.
  - apply (replace_from_no_occurrence "<"%char "o>" "obl>" eq_refl "lat>");
      [reflexivity | intros x; reflexivity |].
    left.
    apply (replace_from_no_occurrence "<"%char "lat>" "dat>" eq_refl "lat>");
      [reflexivity | intros x; reflexivity | now right].
  - apply (replace_from_no_occurrence "<"%char "o>" "obl>" eq_refl "o>");
      [reflexivity | intros x; reflexivity | now right].
Qed.

(** C7. Alias normalization is idempotent: on every list of reference
    strings, [replace_aliases] with the fixed [tag_aliases] table applied
    twice gives the strings that one application gives. *)
Theorem replace_aliases_idempotent (tagged : list string) :
  replace_aliases (replace_aliases tagged) = replace_aliases tagged.
Proof.
  unfold replace_aliases. rewrite map_map. apply map_ext. intros t.
  destruct (aliases_absent_after t) as [Hlat Ho].
  set (t' := apply_aliases tag_aliases t) in *.
  rewrite apply_tag_aliases. unfold Str.replace.
  rewrite (replace_from_absent "<"%char "lat>" "dat>" t' Hlat).
  apply (replace_from_absent "<"%char "o>" "obl>" t' Ho).
Qed.

(** ** The scans behind [get_stem] and [match_pos] *)

Lemma span_spec (cls : ascii -> bool) (s g rest : string) :
  Re.span cls s = (g, rest) ->
  s = g ++ rest /\ all_chars cls g = true /\
  (forall d r, rest = String d r -> cls d = false).
Proof.
  revert g rest. induction s as [|c s IH]; intros g rest H.
  - injection H as <- <-. repeat split. discriminate.
  - simpl in H. destruct (cls c) eqn:E.
    + destruct (Re.span cls s) as [g0 r0]. injection H as <- <-.
      destruct (IH g0 r0 eq_refl) as (-> & Hall & Hnext).
      repeat split; [simpl; now rewrite E | exact Hnext].
    + injection H as <- <-. repeat split.
      intros d r [= <- <-]. exact E.
Qed.

Lemma last_char (cls : ascii -> bool) (c : ascii) (g : string) :
  all_chars cls (String c g) = true ->
  exists g0 x, String c g = g0 ++ String x EmptyString /\ cls x = true.
Proof.
  revert c. induction g as [|d g IH]; intros c H.
  - exists EmptyString, c. simpl in H. apply andb_true_iff in H as [H _]. now split.
  - simpl in H. apply andb_true_iff in H as [_ H].
    destruct (IH d H) as (g0 & x & E & Hx).
    exists (String c g0), x. simpl. now rewrite E.
Qed.

Lemma run_then_spec (cls : ascii -> bool) (close : ascii) (s g : string) (n : nat) :
  Re.run_then cls close s = Some (g, n) ->
  exists g0 x rest,
    g = g0 ++ String x EmptyString /\ cls x = true /\
    s = g0 ++ String x (String close rest).
Proof.
  unfold Re.run_then. destruct (Re.span cls s) as [g1 r1] eqn:E.
  destruct g1 as [|c g1]; [discriminate|].
  destruct r1 as [|d r1]; [discriminate|].
  destruct (Ascii.eqb d close) eqn:D; [|discriminate].
  intros [= <- <-]. apply Ascii.eqb_eq in D. subst d.
  destruct (span_spec _ _ _ _ E) as (Hs & Hall & _).
  destruct (last_char _ _ _ Hall) as (g0 & x & Hg & Hx).
  exists g0, x, r1. repeat split; try assumption.
  rewrite Hs, Hg, append_assoc. reflexivity.
Qed.

Lemma not_angle_nl_not_angle (c : ascii) :
  Re.not_angle_nl c = true -> Re.not_angle c = true.
Proof.
  unfold Re.not_angle_nl, Re.not_angle. rewrite !negb_true_iff, !orb_false_iff.
  tauto.
Qed.

Lemma tagless_tail (c : ascii) (s : string) : tagless (String c s) -> tagless s.
Proof.
  intros H a x b E. apply (H (String c a) x b). simpl. now rewrite E.
Qed.

Lemma stem_re_tagless (s : string) : tagless s -> Re.stem_re s = None.
Proof.
  intros H. destruct (Re.stem_re s) as [[g n]|] eqn:E; [exfalso | reflexivity].
  assert (R : forall pre t g n, s = pre ++ t ->
              Re.run_then Re.not_angle Re.lt_sign t = Some (g, n) -> False).
  { intros pre t g' n' Hs Hr.
    destruct (run_then_spec _ _ _ _ _ Hr) as (g0 & x & rest & _ & Hx & Ht).
    specialize (H (pre ++ g0) x rest). rewrite append_assoc, <- Ht in H.
    rewrite (H Hs) in Hx. discriminate. }
  unfold Re.stem_re in E. destruct s as [|c s]; [discriminate|].
  destruct (Ascii.eqb c Re.gt_sign).
  - destruct (Re.run_then Re.not_angle Re.lt_sign s) as [[g1 n1]|] eqn:E1.
    + apply (R (String c EmptyString) s g1 n1); [reflexivity | exact E1].
    + apply (R EmptyString (String c s) g n); [reflexivity | exact E].
  - apply (R EmptyString (String c s) g n); [reflexivity | exact E].
Qed.

Lemma pos_re_tagless (s : string) : tagless s -> Re.pos_re s = None.
Proof.
  intros H. unfold Re.pos_re.
  destruct (Re.span Re.not_angle_nl s) as [a r] eqn:E.
  destruct a as [|c a]; [reflexivity|].
  destruct r as [|d r1]; [reflexivity|].
  destruct (Ascii.eqb d Re.lt_sign) eqn:D; [|reflexivity].
  apply Ascii.eqb_eq in D. subst d. exfalso.
  destruct (span_spec _ _ _ _ E) as (Hs & Hall & _).
  destruct (last_char _ _ _ Hall) as (g0 & x & Hg & Hx).
  apply not_angle_nl_not_angle in Hx.
  rewrite (H g0 x r1) in Hx; [discriminate|].
  rewrite Hs, Hg, append_assoc. reflexivity.
Qed.

Lemma findall_from_nil (m : Re.matcher) (s : string) :
  (forall pre t, s = pre ++ t -> m t = None) ->
  forall k, Re.findall_from m k s = [].
Proof.
  induction s as [|c s IH]; intros H k; [reflexivity|].
  assert (H' : forall pre t, s = pre ++ t -> m t = None).
  { intros pre t E. apply (H (String c pre)). simpl. now rewrite E. }
  simpl. destruct k as [|k]; [|now apply IH].
  rewrite (H EmptyString _ eq_refl). now apply IH.
Qed.

Lemma tagless_suffix (pre t : string) : tagless (pre ++ t) -> tagless t.
Proof.
  induction pre as [|c pre IH]; simpl; intros H; [exact H|].
  apply IH. eapply tagless_tail. exact H.
Qed.

Lemma findall_stem_tagless (s : string) :
  tagless s -> Re.findall Re.stem_re s = [].
Proof.
  intros H. apply findall_from_nil. intros pre t ->.
  apply stem_re_tagless. eapply tagless_suffix. exact H.
Qed.

Lemma findall_pos_tagless (s : string) :
  tagless s -> Re.findall Re.pos_re s = [].
Proof.
  intros H. apply findall_from_nil. intros pre t ->.
  apply pos_re_tagless. eapply tagless_suffix. exact H.
Qed.

Lemma stem_re_at_site (c : ascii) (b : string) :
  Re.not_angle c = true ->
  Re.stem_re (String c (String Re.lt_sign b)) =
  Some (String c EmptyString, 2).
Proof.
  intros H. unfold Re.stem_re.
  assert (G : Ascii.eqb c Re.gt_sign = false).
  { unfold Re.not_angle in H. apply negb_true_iff, orb_false_iff in H. tauto. }
  rewrite G. unfold Re.run_then. simpl. rewrite H. reflexivity.
Qed.

Lemma findall_stem_site (a : string) (c : ascii) (b : string) :
  Re.not_angle c = true ->
  Re.findall Re.stem_re (a ++ String c (String Re.lt_sign b)) <> [].
Proof.
  intros H. unfold Re.findall. induction a as [|x a IH].
  - simpl append. cbn [Re.findall_from]. rewrite (stem_re_at_site c b H). discriminate.
  - simpl append. cbn [Re.findall_from].
    destruct (Re.stem_re _) as [[g n]|]; [discriminate | exact IH].
Qed.

Lemma get_stem_raises_iff (s : string) :
  tagless s <-> get_stem s = Raise IndexError.
Proof.
  unfold get_stem. split.
  - intros H. now rewrite (findall_stem_tagless s H).
  - intros H a c b ->. destruct (Re.not_angle c) eqn:E; [exfalso | reflexivity].
    destruct (Re.findall Re.stem_re _) eqn:F; [|discriminate].
    now apply (findall_stem_site a c b E).
Qed.

Lemma first_error {A : Type} (l : list A) (e : exn) :
  first l = Raise e -> e = IndexError.
Proof. destruct l; [now intros [= <-] | discriminate]. Qed.

Lemma get_stem_error (s : string) (e : exn) :
  get_stem s = Raise e -> e = IndexError.
Proof. apply first_error. Qed.

Lemma tagless_iff_no_site (s : string) :
  tagless s <-> has_stem_site s = false.
Proof.
  split.
  - induction s as [|c s IH]; intros H; [reflexivity|].
    simpl. destruct s as [|d s]; [reflexivity|].
    rewrite (IH (tagless_tail _ _ H)), orb_false_r.
    destruct (Ascii.eqb d Re.lt_sign) eqn:D; [|apply andb_false_r].
    apply Ascii.eqb_eq in D. subst d.
    rewrite (H EmptyString c s eq_refl). reflexivity.
  - induction s as [|c s IH]; intros H a x b E.
    + destruct a; discriminate.
    + simpl in H. destruct s as [|d s].
      * destruct a as [|y a]; [discriminate|].
        injection E as _ E. destruct a; discriminate.
      * apply orb_false_iff in H as [H1 H2].
        destruct a as [|y a].
        -- injection E as Ec Ed _. subst c d.
           rewrite Ascii.eqb_refl, andb_true_r in H1. exact H1.
        -- injection E as _ E. exact (IH H2 a x b E).
Qed.

(** ** The predicates on strings without a stem *)

Lemma match_stem_tagless (t1 t2 : string) :
  tagless t1 \/ tagless t2 -> match_stem t1 t2 = Raise IndexError.
Proof.
  intros H. unfold match_stem, bindR.
  destruct (get_stem t1) eqn:E1.
  - destruct H as [H | H]; apply get_stem_raises_iff in H.
    + rewrite H in E1. discriminate.
    + now rewrite H.
  - now rewrite (get_stem_error _ _ E1).
Qed.

Lemma match_pos_tagless (t1 t2 : string) :
  tagless t1 \/ tagless t2 -> match_pos t1 t2 = Raise IndexError.
Proof.
  intros H. unfold match_pos, bindR.
  destruct (first (Re.findall Re.pos_re t1)) eqn:E1.
  - destruct H as [H | H]; apply findall_pos_tagless in H.
    + rewrite H in E1. discriminate.
    + now rewrite H.
  - now rewrite (first_error _ _ E1).
Qed.

(** ** Dicts *)

Lemma dict_get_present {V : Type} (k : string) (d : Dict.t V) :
  In k (Dict.keys d) -> exists v, Dict.get k d = Ok v.
Proof.
  induction d as [|[k' v'] d IH]; simpl; [intros []|].
  intros H. destruct (String.eqb k k') eqn:E; [now exists v'|].
  apply IH. destruct H as [H | H]; [|exact H].
  subst k'. rewrite String.eqb_refl in E. discriminate.
Qed.

Lemma dict_get_error {V : Type} (k : string) (d : Dict.t V) (e : exn) :
  Dict.get k d = Raise e -> e = KeyError /\ ~ In k (Dict.keys d).
Proof.
  induction d as [|[k' v'] d IH]; simpl.
  - intros [= <-]. split; [reflexivity | intros []].
  - destruct (String.eqb k k') eqn:E; [discriminate|].
    intros H. destruct (IH H) as [-> N]. split; [reflexivity|].
    intros [<- | G]; [|exact (N G)].
    rewrite String.eqb_refl in E. discriminate.
Qed.

Lemma dict_get_In {V : Type} (k : string) (d : Dict.t V) (v : V) :
  Dict.get k d = Ok v -> In (k, v) d.
Proof.
  induction d as [|[k' v'] d IH]; simpl; [discriminate|].
  destruct (String.eqb k k') eqn:E.
  - apply String.eqb_eq in E. subst k'. intros [= ->]. now left.
  - intros H. right. now apply IH.
Qed.

Lemma dict_set_keys {V : Type} (k : string) (v : V) (d : Dict.t V) :
  Dict.keys (Dict.set k v d) =
  if existsb (String.eqb k) (Dict.keys d) then Dict.keys d
  else (Dict.keys d ++ [k])%list.
Proof.
  induction d as [|[k' v'] d IH]; simpl; [reflexivity|].
  destruct (String.eqb k k') eqn:E; simpl; [reflexivity|].
  rewrite IH. now destruct (existsb _ _).
Qed.

Lemma existsb_eqb_In (k : string) (l : list string) :
  existsb (String.eqb k) l = true <-> In k l.
Proof.
  rewrite existsb_exists. split.
  - intros (x & H & E). apply String.eqb_eq in E. now subst x.
  - intros H. exists k. split; [exact H | apply String.eqb_refl].
Qed.

Lemma dict_set_keys_present {V : Type} (k : string) (v : V) (d : Dict.t V) :
  In k (Dict.keys d) -> Dict.keys (Dict.set k v d) = Dict.keys d.
Proof.
  intros H. rewrite dict_set_keys.
  apply existsb_eqb_In in H. now rewrite H.
Qed.

Lemma dict_set_In_keys {V : Type} (k k' : string) (v : V) (d : Dict.t V) :
  In k' (Dict.keys (Dict.set k v d)) <-> k' = k \/ In k' (Dict.keys d).
Proof.
  rewrite dict_set_keys. destruct (existsb _ _) eqn:E.
  - apply existsb_eqb_In in E. split; [now right | intros [-> | H]; assumption].
  - rewrite in_app_iff. simpl. intuition.
Qed.

Lemma dict_set_NoDup {V : Type} (k : string) (v : V) (d : Dict.t V) :
  NoDup (Dict.keys d) -> NoDup (Dict.keys (Dict.set k v d)).
Proof.
  intros H. rewrite dict_set_keys. destruct (existsb _ _) eqn:E; [exact H|].
  assert (N : ~ In k (Dict.keys d)).
  { intros G. apply existsb_eqb_In in G. rewrite G in E. discriminate. }
  clear E. induction (Dict.keys d) as [|x l IH]; simpl.
  - constructor; [intros [] | constructor].
  - inversion H as [|? ? Hx Hl]; subst. constructor.
    + rewrite in_app_iff. simpl. intros [G | [G | []]]; [exact (Hx G)|].
      subst x. apply N. now left.
    + apply IH; [exact Hl | intros G; apply N; now right].
Qed.

Lemma dict_set_entries {V : Type} (k : string) (v : V) (d : Dict.t V)
  (k' : string) (v' : V) :
  NoDup (Dict.keys d) ->
  In (k', v') (Dict.set k v d) ->
  (k' = k /\ v' = v) \/ (k' <> k /\ In (k', v') d).
Proof.
  induction d as [|[k0 v0] d IH]; simpl; intros ND H.
  - destruct H as [[= <- <-] | []]. now left.
  - inversion ND as [|? ? Hk Hd]; subst.
    destruct (String.eqb k k0) eqn:E.
    + apply String.eqb_eq in E. subst k0.
      destruct H as [[= <- <-] | H]; [now left|].
      right. split; [|now right].
      intros ->. apply Hk. apply (in_map fst) in H. exact H.
    + apply String.eqb_neq in E.
      destruct H as [[= <- <-] | H].
      * right. split; [congruence | now left].
      * destruct (IH Hd H) as [G | [G1 G2]]; [now left|].
        right. split; [exact G1 | now right].
Qed.

Lemma dict_update_error {V : Type} (k : string) (f : V -> V) (d : Dict.t V) (e : exn) :
  Dict.update k f d = Raise e -> ~ In k (Dict.keys d).
Proof.
  unfold Dict.update, bindR. destruct (Dict.get k d) eqn:E; [discriminate|].
  intros _. exact (proj2 (dict_get_error _ _ _ E)).
Qed.

Lemma dict_update_keys {V : Type} (k : string) (f : V -> V) (d d' : Dict.t V) :
  Dict.update k f d = Ok d' -> Dict.keys d' = Dict.keys d.
Proof.
  unfold Dict.update, bindR. destruct (Dict.get k d) eqn:E; [|discriminate].
  intros [= <-]. apply dict_set_keys_present.
  apply dict_get_In in E. apply (in_map fst) in E. exact E.
Qed.

Lemma dict_set_Forall {V : Type} (P : V -> Prop) (k : string) (v : V) (d : Dict.t V) :
  P v -> Forall (fun kv => P (snd kv)) d ->
  Forall (fun kv => P (snd kv)) (Dict.set k v d).
Proof.
  intros Hv. induction d as [|[k' v'] d IH]; simpl; intros H.
  - constructor; [exact Hv | constructor].
  - inversion H as [|? ? H1 H2]; subst.
    destruct (String.eqb k k'); constructor; auto.
Qed.

Lemma dict_update_Forall {V : Type} (P : V -> Prop) (k : string) (f : V -> V)
  (d d' : Dict.t V) :
  (forall v, P v -> P (f v)) ->
  Dict.update k f d = Ok d' ->
  Forall (fun kv => P (snd kv)) d -> Forall (fun kv => P (snd kv)) d'.
Proof.
  intros Hf. unfold Dict.update, bindR.
  destruct (Dict.get k d) eqn:E; [|discriminate].
  intros [= <-] H. apply dict_set_Forall; [|exact H].
  apply Hf. apply dict_get_In in E.
  rewrite Forall_forall in H. exact (H _ E).
Qed.

Lemma dict_get_set_same {V : Type} (k : string) (v w : V) (d : Dict.t V) :
  Dict.get k d = Ok v -> Dict.get k (Dict.set k w d) = Ok w.
Proof.
  induction d as [|[k' v'] d IH]; simpl; [discriminate|].
  destruct (String.eqb k k') eqn:E; simpl; rewrite E; [reflexivity | exact IH].
Qed.

Lemma dict_set_set {V : Type} (k : string) (v w : V) (d : Dict.t V) :
  In k (Dict.keys d) -> Dict.set k w (Dict.set k v d) = Dict.set k w d.
Proof.
  induction d as [|[k' v'] d IH]; simpl; [intros []|].
  intros H. destruct (String.eqb k k') eqn:E; simpl; rewrite E; [reflexivity|].
  f_equal. apply IH. destruct H as [H | H]; [|exact H].
  subst k'. rewrite String.eqb_refl in E. discriminate.
Qed.

Lemma dict_update_update {V : Type} (k : string) (f g : V -> V)
  (d d1 d2 : Dict.t V) :
  Dict.update k f d = Ok d1 -> Dict.update k g d1 = Ok d2 ->
  Dict.update k (fun v => g (f v)) d = Ok d2.
Proof.
  unfold Dict.update, bindR. destruct (Dict.get k d) as [v|] eqn:E; [|discriminate].
  intros [= <-]. rewrite (dict_get_set_same k v (f v) d E).
  intros [= <-]. f_equal. symmetry. apply dict_set_set.
  apply dict_get_In in E. apply (in_map fst) in E. exact E.
Qed.

(** ** Outcomes of computations that log *)

Lemma outcome_ret {A : Type} (a : A) (Q : A -> Prop) (E : exn -> Prop) :
  Q a -> outcome (ret a) Q E.
Proof. intros H w. exact H. Qed.

Lemma outcome_lift {A : Type} (r : result A) (Q : A -> Prop) (E : exn -> Prop) :
  match r with Ok a => Q a | Raise e => E e end -> outcome (lift r) Q E.
Proof. intros H w. exact H. Qed.

Lemma outcome_log (d : option string) (f wf ref real res : string)
  (Q : unit -> Prop) (E : exn -> Prop) :
  Q tt -> outcome (log_details d f wf ref real res) Q E.
Proof. intros H w. unfold log_details. now destruct d. Qed.

Lemma outcome_bind {A B : Type} (c : M A) (k : A -> M B)
  (Q1 : A -> Prop) (Q : B -> Prop) (E : exn -> Prop) :
  outcome c Q1 E -> (forall a, Q1 a -> outcome (k a) Q E) ->
  outcome (bind c k) Q E.
Proof.
  intros Hc Hk w. unfold bind. specialize (Hc w).
  destruct (c w) as [w1 [a|e]]; simpl in *; [|exact Hc].
  exact (Hk a Hc w1).
Qed.

Lemma outcome_weaken {A : Type} (c : M A) (Q Q' : A -> Prop) (E : exn -> Prop) :
  outcome c Q E -> (forall a, Q a -> Q' a) -> outcome c Q' E.
Proof.
  intros Hc H w. specialize (Hc w). destruct (snd (c w)); [now apply H | exact Hc].
Qed.

(** ** The loops of [compare] *)

Lemma truediv_bounds (c r : nat) (a : Q) :
  c <= r -> truediv c r = Ok a -> (0 <= a)%Q /\ (a <= 1)%Q.
Proof.
  intros H. destruct r as [|r]; [discriminate|]. intros [= <-].
  unfold Qle. cbn [Qnum Qden].
  change (match r with 0 => 1%positive | S _ => Pos.succ (Pos.of_nat r) end)
    with (Pos.of_nat (S r)).
  rewrite <- Pos.of_nat_succ. split; lia.
Qed.

Lemma truediv_error (c r : nat) (e : exn) :
  truediv c r = Raise e -> r = 0.
Proof. destruct r; [reflexivity | discriminate]. Qed.

Lemma fractions_error (acc_types : list string) (d : Dict.t Metric.t) (e : exn) :
  fractions acc_types d = Raise e -> e = KeyError.
Proof.
  revert d. induction acc_types as [|k l IH]; intros d; [discriminate|].
  cbn [fractions]. unfold bindR.
  destruct (Dict.get k d) as [m|e0] eqn:G.
  2:{ intros [= <-]. exact (proj1 (dict_get_error _ _ _ G)). }
  destruct (Metric.recognized m =? 0) eqn:Z.
  - unfold Dict.update, bindR. rewrite G. apply IH.
  - destruct (truediv (Metric.correct m) (Metric.recognized m)) as [a|e1] eqn:T.
    + unfold Dict.update, bindR. rewrite G. apply IH.
    + apply truediv_error in T. apply Nat.eqb_neq in Z. contradiction.
Qed.

Lemma fractions_scored (acc_types : list string) :
  forall d,
    incl acc_types (Dict.keys d) -> NoDup (Dict.keys d) -> counts_ok d ->
    exists d',
      fractions acc_types d = Ok d' /\ Dict.keys d' = Dict.keys d /\
      forall k m, In (k, m) d' -> scored m \/ (~ In k acc_types /\ In (k, m) d).
Proof.
  induction acc_types as [|k l IH]; intros d Hincl ND Hc.
  - exists d. repeat split. intros k m H. right. split; [intros [] | exact H].
  - assert (Hk : In k (Dict.keys d)) by (apply Hincl; now left).
    destruct (dict_get_present k d Hk) as [m G].
    assert (Hm : Metric.correct m <= Metric.recognized m).
    { apply dict_get_In in G. unfold counts_ok in Hc.
      rewrite Forall_forall in Hc. exact (Hc _ G). }
    assert (Ha : exists a,
               (if Metric.recognized m =? 0 then Ok 0%Q
                else truediv (Metric.correct m) (Metric.recognized m)) = Ok a /\
               (0 <= a)%Q /\ (a <= 1)%Q /\ (Metric.recognized m = 0 -> (a == 0)%Q)).
    { destruct (Metric.recognized m =? 0) eqn:Z.
      - exists 0%Q. split; [reflexivity|]. split; [apply Qle_refl|].
        split; [unfold Qle; simpl; lia | intros _; apply Qeq_refl].
      - apply Nat.eqb_neq in Z.
        destruct (truediv (Metric.correct m) (Metric.recognized m)) as [a|e] eqn:T.
        + exists a. destruct (truediv_bounds _ _ _ Hm T). repeat split; try assumption.
          intros Z0. contradiction.
        + apply truediv_error in T. contradiction. }
    destruct Ha as (a & Ea & Ha0 & Ha1 & Haz).
    set (d1 := Dict.set k (set_acc a m) d).
    assert (K1 : Dict.keys d1 = Dict.keys d) by (apply dict_set_keys_present; exact Hk).
    destruct (IH d1) as (d' & F & K' & S').
    + rewrite K1. intros x Hx. apply Hincl. now right.
    + rewrite K1. exact ND.
    + apply (dict_set_Forall (fun m => Metric.correct m <= Metric.recognized m)); [exact Hm | exact Hc].
    + exists d'. split; [|split].
      * cbn [fractions]. unfold bindR. rewrite G, Ea.
        unfold Dict.update, bindR. rewrite G. exact F.
      * now rewrite K', K1.
      * intros k' m' H. destruct (S' k' m' H) as [Sc | [N I]]; [now left|].
        destruct (dict_set_entries _ _ _ _ _ ND I) as [[-> ->] | [Nk Id]].
        -- left. split; [exact Hm|]. exists a. simpl. repeat split; assumption.
        -- right. split; [|exact Id]. intros [Q | Q]; [congruence | exact (N Q)].
Qed.

Lemma initial_fold (l : list string) :
  forall d0,
    NoDup (Dict.keys d0) -> counts_ok d0 ->
    let d := fold_left (fun d k => Dict.set k (Metric.mk 0 0 None) d) l d0 in
    NoDup (Dict.keys d) /\ counts_ok d /\
    forall k, In k (Dict.keys d) <-> In k (Dict.keys d0) \/ In k l.
Proof.
  induction l as [|x l IH]; intros d0 ND Hc; cbn [fold_left]; cbv zeta.
  - repeat split; try assumption; [now left | intros [H | []]; exact H].
  - destruct (IH (Dict.set x (Metric.mk 0 0 None) d0)) as (A & B & C).
    + now apply dict_set_NoDup.
    + apply (dict_set_Forall (fun m => Metric.correct m <= Metric.recognized m)); [simpl; lia | exact Hc].
    + repeat split; try assumption.
      * intros H. apply C in H. rewrite dict_set_In_keys in H. simpl.
        destruct H as [[-> | H] | H]; auto.
      * intros H. apply C. rewrite dict_set_In_keys. simpl in H.
        destruct H as [H | [<- | H]]; auto.
Qed.

Lemma initial_results_keys (acc_funcs : AccFuncsMapping) :
  NoDup (Dict.keys (initial_results acc_funcs)) /\
  counts_ok (initial_results acc_funcs) /\
  forall k, In k (Dict.keys (initial_results acc_funcs)) <-> In k (Dict.keys acc_funcs).
Proof.
  destruct (initial_fold (Dict.keys acc_funcs) [] (NoDup_nil _) (Forall_nil _))
    as (A & B & C).
  repeat split; try assumption.
  - intros H. apply C in H. destruct H as [[] | H]; exact H.
  - intros H. apply C. now right.
Qed.

Section CompareOutcome.

Variable acc_funcs : AccFuncsMapping.
Variable details_dir : option string.

(** The exceptions the run may end in: [IndexError], and whatever the
    metrics of the registry raise. *)
Variable E : exn -> Prop.
Hypothesis E_index : E IndexError.
Hypothesis E_metric :
  forall k f a b e, In (k, f) acc_funcs -> f a b = Raise e -> E e.

Lemma try_variants_outcome (acc_type ref : string) (pred : ParsedItem)
  (vars : list string) (is_correct : bool) (d : Dict.t Metric.t) :
  In acc_type (Dict.keys acc_funcs) -> In acc_type (Dict.keys d) ->
  outcome (try_variants acc_funcs details_dir acc_type ref pred vars is_correct d)
          (fun st => snd st = d \/ Dict.update acc_type incr_correct d = Ok (snd st))
          E.
Proof.
  intros Hf Hd. induction vars as [|v vars IH]; cbn [try_variants].
  - apply outcome_ret. now left.
  - apply outcome_bind with (Q1 := fun f => In (acc_type, f) acc_funcs).
    { apply outcome_lift. destruct (Dict.get acc_type acc_funcs) eqn:G.
      - now apply dict_get_In.
      - destruct (proj2 (dict_get_error _ _ _ G) Hf). }
    intros f Hin.
    apply outcome_bind with (Q1 := fun _ => True).
    { apply outcome_lift. destruct (f ref v) eqn:F; [exact I|].
      exact (E_metric _ _ _ _ _ Hin F). }
    intros [|] _; [|exact IH].
    apply outcome_bind
      with (Q1 := fun d' => Dict.update acc_type incr_correct d = Ok d').
    { apply outcome_lift. destruct (Dict.update acc_type incr_correct d) eqn:U.
      - reflexivity.
      - destruct (dict_update_error _ _ _ _ U Hd). }
    intros d' U.
    apply outcome_bind with (Q1 := fun _ => True); [now apply outcome_log|].
    intros _ _. apply outcome_ret. now right.
Qed.

Lemma score_metrics_outcome (ref : string) (pred : ParsedItem)
  (acc_types : list string) :
  forall (is_correct : bool) (d : Dict.t Metric.t),
    incl acc_types (Dict.keys acc_funcs) ->
    incl (Dict.keys acc_funcs) (Dict.keys d) ->
    counts_ok d ->
    outcome (score_metrics acc_funcs details_dir ref pred acc_types is_correct d)
            (fun st => Dict.keys (snd st) = Dict.keys d /\ counts_ok (snd st))
            E.
Proof.
  induction acc_types as [|k l IH]; intros ic d Hl Hd Hc; cbn [score_metrics].
  - apply outcome_ret. now split.
  - assert (Hk : In k (Dict.keys acc_funcs)) by (apply Hl; now left).
    assert (Hkd : In k (Dict.keys d)) by (apply Hd; exact Hk).
    apply outcome_bind
      with (Q1 := fun d1 => Dict.update k incr_recognized d = Ok d1).
    { apply outcome_lift. destruct (Dict.update k incr_recognized d) eqn:U.
      - reflexivity.
      - destruct (dict_update_error _ _ _ _ U Hkd). }
    intros d1 U1.
    assert (K1 : Dict.keys d1 = Dict.keys d) by (eapply dict_update_keys; exact U1).
    apply outcome_bind
      with (Q1 := fun st => Dict.keys (snd st) = Dict.keys d /\ counts_ok (snd st)).
    { eapply outcome_weaken.
      - apply try_variants_outcome; [exact Hk | rewrite K1; exact Hkd].
      - intros [ic' d2] [H | H]; simpl in H; simpl.
        + subst d2. split; [exact K1|].
          eapply (dict_update_Forall (fun m => Metric.correct m <= Metric.recognized m));
            [|exact U1 | exact Hc].
          intros v Hv. simpl. lia.
        + split.
          * rewrite (dict_update_keys _ _ _ _ H). exact K1.
          * eapply (dict_update_Forall (fun m => Metric.correct m <= Metric.recognized m));
              [|exact (dict_update_update _ _ _ _ _ _ U1 H) | exact Hc].
            intros v Hv. simpl. lia. }
    intros [ic' d2] [K2 C2]. simpl in K2, C2.
    apply outcome_bind with (Q1 := fun _ => True).
    { destruct (negb (fst (ic', d2))); [now apply outcome_log | now apply outcome_ret]. }
    intros _ _. cbn [fst snd]. rewrite <- K2.
    apply IH; [intros x Hx; apply Hl; now right | rewrite K2; exact Hd | exact C2].
Qed.

Lemma score_items_outcome (pairs : list (string * ParsedItem)) :
  forall (n : nat) (d : Dict.t Metric.t),
    incl (Dict.keys acc_funcs) (Dict.keys d) ->
    counts_ok d ->
    outcome (score_items acc_funcs details_dir pairs n d)
            (fun st => Dict.keys (snd st) = Dict.keys d /\ counts_ok (snd st) /\
                       fst st = n + count_recognized (map snd pairs) /\
                       Forall (fun p => exists b, is_unknown p = Ok b) (map snd pairs))
            E.
Proof.
  induction pairs as [|[ref pred] pairs IH]; intros n d Hd Hc; cbn [score_items].
  - apply outcome_ret. simpl. repeat split; auto; unfold count_recognized; simpl; lia.
  - apply outcome_bind with (Q1 := fun u => is_unknown pred = Ok u).
    { apply outcome_lift. destruct (is_unknown pred) eqn:U; [reflexivity|].
      unfold is_unknown, bindR in U.
      destruct (first (out_variants pred)) eqn:F; [discriminate|].
      injection U as <-. now rewrite (first_error _ _ F). }
    intros u U.
    assert (CR : count_recognized (map snd ((ref, pred) :: pairs)) =
                 (if u then 0 else 1) + count_recognized (map snd pairs)).
    { unfold count_recognized. simpl. unfold recognizedb at 1. rewrite U.
      now destruct u. }
    destruct u.
    + apply outcome_bind with (Q1 := fun _ => True); [now apply outcome_log|].
      intros _ _. intros w. specialize (IH n d Hd Hc w).
      destruct (snd (score_items _ _ pairs n d w)) as [[n' d']|e]; [|exact IH].
      destruct IH as (A & B & C & D). repeat split; try assumption.
      * rewrite CR. exact C.
      * simpl. constructor; [now exists true | exact D].
    + eapply outcome_bind.
      * apply (score_metrics_outcome ref pred (Dict.keys acc_funcs) false d);
          [apply incl_refl | exact Hd | exact Hc].
      * intros [ic d1] [K1 C1]. simpl in K1, C1. cbn [snd].
        intros w. assert (Hd1 : incl (Dict.keys acc_funcs) (Dict.keys d1))
          by (rewrite K1; exact Hd).
        specialize (IH (n + 1) d1 Hd1 C1 w).
        destruct (snd (score_items _ _ pairs (n + 1) d1 w)) as [[n' d']|e]; [|exact IH].
        destruct IH as (A & B & C & D). repeat split; try assumption.
        -- now rewrite A.
        -- rewrite CR. simpl in C |- *. lia.
        -- simpl. constructor; [now exists false | exact D].
Qed.

Lemma combine_snd {A B : Type} (l : list A) (l' : list B) :
  List.length l = List.length l' -> map snd (combine l l') = l'.
Proof.
  revert l'. induction l as [|x l IH]; intros [|y l'] H; try discriminate; simpl.
  - reflexivity.
  - f_equal. apply IH. now injection H.
Qed.

Lemma compare_outcome (reference : list string) (predicted : list ParsedItem) :
  List.length reference = List.length predicted ->
  outcome (compare acc_funcs details_dir reference predicted)
          (fun r => total r = List.length reference /\
                    recognized r = count_recognized predicted /\
                    Forall (fun p => exists b, is_unknown p = Ok b) predicted /\
                    (forall k m, In (k, m) (accuracy r) -> scored m) /\
                    (forall k, In k (Dict.keys acc_funcs) -> In k (Dict.keys (accuracy r))))
          E.
Proof.
  intros L. unfold compare. rewrite L, Nat.eqb_refl. cbn [negb].
  destruct (initial_results_keys acc_funcs) as (ND & C0 & K0).
  eapply outcome_bind.
  - apply score_items_outcome; [|exact C0]. intros k Hk. now apply K0.
  - intros [n d] (K & C & N & U). cbn [fst snd] in *.
    rewrite combine_snd in N, U by (now rewrite L).
    destruct (fractions_scored (Dict.keys acc_funcs) d) as (d' & F & K' & S').
    + rewrite K. intros k Hk. now apply K0.
    + rewrite K. exact ND.
    + exact C.
    + rewrite F. apply outcome_bind with (Q1 := fun x => x = d');
        [apply outcome_lift; reflexivity|].
      intros x ->. apply outcome_ret. cbn [total recognized accuracy].
      split; [reflexivity|]. split; [exact N|]. split; [exact U|]. split.
      * intros k m H. destruct (S' k m H) as [Sc | [Nk _]]; [exact Sc|].
        exfalso. apply Nk. apply K0. rewrite <- K, <- K'.
        apply (in_map fst) in H. exact H.
      * intros k Hk. rewrite K', K. now apply K0.
Qed.

End CompareOutcome.

Lemma compare_mismatch (acc_funcs : AccFuncsMapping) (details_dir : option string)
  (reference : list string) (predicted : list ParsedItem) (w : list Detail) :
  List.length reference <> List.length predicted ->
  compare acc_funcs details_dir reference predicted w =
  (w, Raise (RuntimeError (List.length reference) (List.length predicted))).
Proof.
  intros H. unfold compare. apply Nat.eqb_neq in H. rewrite H. reflexivity.
Qed.

Lemma compare_ok_lengths (acc_funcs : AccFuncsMapping) (details_dir : option string)
  (reference : list string) (predicted : list ParsedItem) (w : list Detail)
  (r : RunResult) :
  snd (compare acc_funcs details_dir reference predicted w) = Ok r ->
  List.length reference = List.length predicted.
Proof.
  intros H. destruct (Nat.eq_dec (List.length reference) (List.length predicted))
    as [L | L]; [exact L|].
  rewrite (compare_mismatch _ _ _ _ _ L) in H. discriminate.
Qed.

(** The predicates of the registry raise nothing but [IndexError]. *)
Lemma accuracy_funcs_errors (k : string) (f : AccFunc) (a b : string) (e : exn) :
  In (k, f) accuracy_funcs -> f a b = Raise e -> e = IndexError.
Proof.
  assert (Hs : forall e, match_stem a b = Raise e -> e = IndexError).
  { intros e0. unfold match_stem, bindR.
    destruct (get_stem a) eqn:E1; [|intros [= <-]; exact (get_stem_error _ _ E1)].
    destruct (get_stem b) eqn:E2; [discriminate|].
    intros [= <-]. exact (get_stem_error _ _ E2). }
  assert (Hp : forall e, match_pos a b = Raise e -> e = IndexError).
  { intros e0. unfold match_pos, bindR.
    destruct (first (Re.findall Re.pos_re a)) eqn:E1;
      [|intros [= <-]; exact (first_error _ _ E1)].
    destruct (first (Re.findall Re.pos_re b)) eqn:E2; [discriminate|].
    intros [= <-]. exact (first_error _ _ E2). }
  simpl. intros [H | [H | [H | [H | [H | []]]]]]; injection H as _ <-.
  - discriminate.
  - apply Hs.
  - apply Hp.
  - unfold match_stem_and_pos, bindR.
    destruct (match_stem a b) as [[|]|e0] eqn:E1.
    + apply Hp.
    + discriminate.
    + intros [= <-]. now apply Hs.
  - unfold match_unordered, bindR.
    destruct (match_stem a b) as [[|]|e0] eqn:E1; try discriminate.
    intros [= <-]. now apply Hs.
Qed.

(** C3. [compare] ends in the length error exactly when the reference and
    predicted sequences differ in length (the metrics being ones that do
    not raise that error themselves); it then returns no result and logs
    nothing.  A result is returned only for equal lengths, and its total
    is that common length: nothing was truncated or padded. *)
Theorem compare_length_check (acc_funcs : AccFuncsMapping)
  (details_dir : option string) (reference : list string)
  (predicted : list ParsedItem) (w : list Detail) :
  (forall k f a b x y, In (k, f) acc_funcs -> f a b <> Raise (RuntimeError x y)) ->
  ((exists x y, snd (compare acc_funcs details_dir reference predicted w)
                = Raise (RuntimeError x y))
   <-> List.length reference <> List.length predicted) /\
  (List.length reference <> List.length predicted ->
   compare acc_funcs details_dir reference predicted w =
   (w, Raise (RuntimeError (List.length reference) (List.length predicted)))) /\
  (forall r, snd (compare acc_funcs details_dir reference predicted w) = Ok r ->
             total r = List.length reference /\ total r = List.length predicted).
Proof.
  intros Hm. split; [split|split].
  - intros (x & y & H) L.
    pose proof (compare_outcome acc_funcs details_dir
                  (fun e => forall x y, e <> RuntimeError x y)) as O.
    specialize (O ltac:(discriminate)).
    assert (Hm' : forall k f a b e, In (k, f) acc_funcs -> f a b = Raise e ->
                                    forall x y, e <> RuntimeError x y).
    { intros k f a b e Hin Hf x' y' ->. exact (Hm _ _ _ _ _ _ Hin Hf). }
    specialize (O Hm' reference predicted L w). rewrite H in O.
    exact (O x y eq_refl).
  - intros L. rewrite (compare_mismatch _ _ _ _ _ L). simpl. eauto.
  - apply compare_mismatch.
  - intros r H. pose proof (compare_ok_lengths _ _ _ _ _ _ H) as L.
    pose proof (compare_outcome acc_funcs details_dir (fun _ => True) I
                  (fun _ _ _ _ _ _ _ => I) reference predicted L w) as O.
    rewrite H in O. destruct O as (T & _). split; [exact T | now rewrite T].
Qed.

Lemma compare_length_check_witness :
  compare accuracy_funcs None ["cat<n><sg>"; "dog<n><sg>"]
          [mkParsedItem "cat" ["cat<n><sg>"]] [] =
  ([], Raise (RuntimeError 2 1)).
Proof.
  refine (proj1 (proj2 (compare_length_check accuracy_funcs None
            ["cat<n><sg>"; "dog<n><sg>"] [mkParsedItem "cat" ["cat<n><sg>"]] [] _)) _).
  - intros k f a b x y Hin Hf.
    pose proof (accuracy_funcs_errors _ _ _ _ _ Hin Hf). discriminate.
  - simpl. lia.
Defined.

(** C4. In the result returned by [compare], every metric has
    [correct <= recognized] and an accuracy between 0 and 1, which is 0
    when the metric's recognized count is 0; every metric of the registry
    has such an entry, and the last loop never ends in a division by zero. *)
Theorem compare_accuracy_bounds (acc_funcs : AccFuncsMapping)
  (details_dir : option string) (reference : list string)
  (predicted : list ParsedItem) (w w' : list Detail) (r : RunResult) :
  compare acc_funcs details_dir reference predicted w = (w', Ok r) ->
  (forall k m, In (k, m) (accuracy r) ->
     Metric.correct m <= Metric.recognized m /\
     exists a, Metric.acc m = Some a /\ (0 <= a)%Q /\ (a <= 1)%Q /\
               (Metric.recognized m = 0 -> (a == 0)%Q)) /\
  (forall k, In k (Dict.keys acc_funcs) -> exists m, In (k, m) (accuracy r)) /\
  (forall acc_types d, fractions acc_types d <> Raise ZeroDivisionError).
Proof.
  intros H.
  assert (H' : snd (compare acc_funcs details_dir reference predicted w) = Ok r)
    by now rewrite H.
  pose proof (compare_ok_lengths _ _ _ _ _ _ H') as L.
  pose proof (compare_outcome acc_funcs details_dir (fun _ => True) I
                (fun _ _ _ _ _ _ _ => I) reference predicted L w) as O.
  rewrite H' in O. destruct O as (_ & _ & _ & Sc & Ks).
  split; [|split].
  - intros k m Hin. exact (Sc k m Hin).
  - intros k Hk. apply Ks in Hk. unfold Dict.keys in Hk.
    apply in_map_iff in Hk as ([k' m] & <- & Hin). now exists m.
  - intros l d F. apply fractions_error in F. discriminate.
Qed.

Lemma compare_accuracy_bounds_witness :
  exists w' r,
    compare accuracy_funcs None ["car<n><pl>"; "cat<n><sg>"]
      [mkParsedItem "cars" ["car<n><sg>"; "car<n><pl>"];
       mkParsedItem "cat" ["cat<v><sg>"]] [] = (w', Ok r) /\
    forall k m, In (k, m) (accuracy r) ->
      Metric.correct m <= Metric.recognized m /\
      exists a, Metric.acc m = Some a /\ (0 <= a)%Q /\ (a <= 1)%Q /\
                (Metric.recognized m = 0 -> (a == 0)%Q).
Proof.
  eexists. eexists. split; [vm_compute; reflexivity|].
  refine (proj1 (compare_accuracy_bounds accuracy_funcs None
            ["car<n><pl>"; "cat<n><sg>"]
            [mkParsedItem "cars" ["car<n><sg>"; "car<n><pl>"];
             mkParsedItem "cat" ["cat<v><sg>"]] [] _ _ _)).
  vm_compute. reflexivity.
Defined.

Lemma filter_length_all {A : Type} (f : A -> bool) (l : list A) :
  List.length (filter f l) <= List.length l /\
  (List.length (filter f l) = List.length l <-> Forall (fun x => f x = true) l).
Proof.
  induction l as [|x l [IH1 IH2]]; simpl.
  - split; [lia | split; [constructor | reflexivity]].
  - destruct (f x) eqn:E; simpl.
    + split; [lia|]. split.
      * intros H. constructor; [exact E | apply IH2; lia].
      * intros H. inversion H; subst. f_equal. now apply IH2.
    + split; [lia|]. split; [lia|].
      intros H. inversion H; subst. congruence.
Qed.

Lemma recognizedb_marker (p : ParsedItem) (b : bool) :
  is_unknown p = Ok b -> (recognizedb p = true <-> ~ carries_unknown_marker p).
Proof.
  unfold recognizedb, carries_unknown_marker, is_unknown, bindR.
  destruct (out_variants p) as [|v rest]; [discriminate|]. simpl.
  intros [= <-]. destruct (Str.contains "*" v) eqn:E; split.
  - discriminate.
  - intros H. exfalso. apply H. now exists v, rest.
  - intros _ (v' & rest' & [= <- <-] & H). congruence.
  - reflexivity.
Qed.

(** C5. In the result returned by [compare] on sequences of length N,
    [total] is N and [recognized <= total]; the two are equal exactly when
    no predicted item's first variant carries the unknown marker. *)
Theorem compare_total_recognized (acc_funcs : AccFuncsMapping)
  (details_dir : option string) (reference : list string)
  (predicted : list ParsedItem) (w w' : list Detail) (r : RunResult) :
  compare acc_funcs details_dir reference predicted w = (w', Ok r) ->
  total r = List.length reference /\
  total r = List.length predicted /\
  recognized r <= total r /\
  (recognized r = total r <->
   forall p, In p predicted -> ~ carries_unknown_marker p).
Proof.
  intros H.
  assert (H' : snd (compare acc_funcs details_dir reference predicted w) = Ok r)
    by now rewrite H.
  pose proof (compare_ok_lengths _ _ _ _ _ _ H') as L.
  pose proof (compare_outcome acc_funcs details_dir (fun _ => True) I
                (fun _ _ _ _ _ _ _ => I) reference predicted L w) as O.
  rewrite H' in O. destruct O as (T & R & U & _).
  destruct (filter_length_all recognizedb predicted) as [F1 F2].
  unfold count_recognized in R. rewrite T, R, L.
  split; [reflexivity|]. split; [reflexivity|]. split; [exact F1|].
  rewrite F2, !Forall_forall. rewrite Forall_forall in U.
  split; intros G p Hp; destruct (U p Hp) as [b Hb].
  - apply (recognizedb_marker p b Hb). now apply G.
  - apply (recognizedb_marker p b Hb). now apply G.
Qed.

Lemma compare_total_recognized_witness :
  exists w' r,
    compare accuracy_funcs None ["car<n><pl>"; "zzz<n><sg>"]
      [mkParsedItem "cars" ["car<n><pl>"]; mkParsedItem "zzz" ["*zzz"]] []
    = (w', Ok r) /\ total r = 2 /\ recognized r = 1.
Proof.
  eexists. eexists. split; [vm_compute; reflexivity|].
  pose proof (compare_total_recognized accuracy_funcs None
                ["car<n><pl>"; "zzz<n><sg>"]
                [mkParsedItem "cars" ["car<n><pl>"]; mkParsedItem "zzz" ["*zzz"]]
                [] _ _ ltac:(vm_compute; reflexivity)) as (T & _).
  split; [exact T | reflexivity].
Defined.

(** ** The transliteration pass *)

Lemma is_unknown_error (it : ParsedItem) (e : exn) :
  is_unknown it = Raise e -> e = IndexError.
Proof.
  unfold is_unknown, bindR. destruct (first (out_variants it)) eqn:F; [discriminate|].
  intros [= <-]. exact (first_error _ _ F).
Qed.

Lemma gather_variants_error (vars : list string) :
  forall d e, gather_variants vars d = Raise e -> e = IndexError.
Proof.
  induction vars as [|var vars IH]; intros d e; simpl; [discriminate|].
  unfold bindR. destruct (get_stem var) eqn:G.
  - apply IH.
  - intros [= <-]. exact (get_stem_error _ _ G).
Qed.

Lemma gather_variants_keys (vars : list string) :
  forall d d',
    gather_variants vars d = Ok d' -> NoDup (Dict.keys d) ->
    NoDup (Dict.keys d') /\
    forall s, In s (Dict.keys d') <->
              In s (Dict.keys d) \/ exists var, In var vars /\ get_stem var = Ok s.
Proof.
  induction vars as [|var vars IH]; intros d d'; simpl.
  - intros [= <-] ND. split; [exact ND|]. intros s. split; [now left|].
    intros [H | (v & [] & _)]. exact H.
  - unfold bindR. destruct (get_stem var) as [stem|] eqn:G; [|discriminate].
    intros H ND. destruct (IH _ _ H (dict_set_NoDup stem [] d ND)) as [ND' K].
    split; [exact ND'|]. intros s. rewrite K, dict_set_In_keys. split.
    + intros [[-> | Hs] | (v & Hv & Gv)].
      * right. exists var. split; [now left | exact G].
      * now left.
      * right. exists v. split; [now right | exact Gv].
    + intros [Hs | (v & [<- | Hv] & Gv)].
      * left. now right.
      * left. left. congruence.
      * right. now exists v.
Qed.

Lemma gather_variants_total (vars : list string) :
  forall d, Forall has_stem vars -> exists d', gather_variants vars d = Ok d'.
Proof.
  induction vars as [|var vars IH]; intros d H; simpl; [now exists d|].
  inversion H as [|? ? [s Hs] Hrest]; subst. unfold bindR. rewrite Hs.
  now apply IH.
Qed.

Lemma gather_variants_tagless (vars : list string) (var : string) :
  In var vars -> tagless var ->
  forall d, gather_variants vars d = Raise IndexError.
Proof.
  intros Hin Ht. induction vars as [|v vars IH]; intros d; [destruct Hin|].
  simpl. unfold bindR. destruct (get_stem v) as [stem|e] eqn:G.
  - destruct Hin as [-> | Hin].
    + apply get_stem_raises_iff in Ht. congruence.
    + now apply IH.
  - now rewrite (get_stem_error _ _ G).
Qed.


Lemma gather_stems_keys (items : list ParsedItem) :
  forall d d',
    gather_stems items d = Ok d' -> NoDup (Dict.keys d) ->
    NoDup (Dict.keys d') /\
    forall s, In s (Dict.keys d') <->
              In s (Dict.keys d) \/ stem_of_recognized items s.
Proof.
  unfold stem_of_recognized.
  induction items as [|it items IH]; intros d d'; simpl.
  - intros [= <-] ND. split; [exact ND|]. intros s. split; [now left|].
    intros [H | (i & v & [] & _)]. exact H.
  - unfold bindR. destruct (is_unknown it) as [[|]|e0] eqn:U; [| |discriminate].
    + intros H ND. destruct (IH _ _ H ND) as [ND' K]. split; [exact ND'|].
      intros s. rewrite K. split.
      * intros [Hs | (i & v & Hi & Ui & Hv & Gv)]; [now left|].
        right. exists i, v. repeat split; try assumption. now right.
      * intros [Hs | (i & v & [<- | Hi] & Ui & Hv & Gv)]; [now left | congruence|].
        right. now exists i, v.
    + destruct (gather_variants (out_variants it) d) as [d1|] eqn:G; [|discriminate].
      intros H ND. destruct (gather_variants_keys _ _ _ G ND) as [ND1 K1].
      destruct (IH _ _ H ND1) as [ND' K]. split; [exact ND'|].
      intros s. rewrite K, K1. split.
      * intros [[Hs | (v & Hv & Gv)] | (i & v & Hi & Ui & Hv & Gv)].
        -- now left.
        -- right. exists it, v. repeat split; try assumption. now left.
        -- right. exists i, v. repeat split; try assumption. now right.
      * intros [Hs | (i & v & [<- | Hi] & Ui & Hv & Gv)].
        -- left. now left.
        -- left. right. now exists v.
        -- right. now exists i, v.
Qed.

Lemma gather_stems_total (items : list ParsedItem) :
  forall d, Forall extractable items -> exists d', gather_stems items d = Ok d'.
Proof.
  induction items as [|it items IH]; intros d H; simpl; [now exists d|].
  inversion H as [|? ? (u & U & Hv) Hrest]; subst. unfold bindR. rewrite U.
  destruct u; [now apply IH|].
  destruct (gather_variants_total (out_variants it) d (Hv eq_refl)) as [d1 G].
  rewrite G. now apply IH.
Qed.

Lemma gather_stems_tagless (items : list ParsedItem) (it : ParsedItem) (var : string) :
  In it items -> is_unknown it = Ok false ->
  In var (out_variants it) -> tagless var ->
  forall d, gather_stems items d = Raise IndexError.
Proof.
  intros Hin U Hv Ht. induction items as [|i items IH]; intros d; [destruct Hin|].
  simpl. unfold bindR. destruct (is_unknown i) as [[|]|e0] eqn:Ui.
  - destruct Hin as [-> | Hin]; [congruence | now apply IH].
  - destruct Hin as [-> | Hin].
    + now rewrite (gather_variants_tagless _ _ Hv Ht d).
    + destruct (gather_variants (out_variants i) d) eqn:G; [now apply IH|].
      now rewrite (gather_variants_error _ _ _ G).
  - now rewrite (is_unknown_error _ _ Ui).
Qed.

(** Unknown items do not take part in the first loop. *)
Lemma gather_stems_filter (items : list ParsedItem) :
  forall d,
    gather_stems items d =
    gather_stems (filter (fun it => negb (unknownb it)) items) d.
Proof.
  induction items as [|it items IH]; intros d; [reflexivity|].
  cbn [filter]. unfold unknownb at 1.
  destruct (is_unknown it) as [[|]|e0] eqn:U; cbn [negb gather_stems];
    unfold bindR; rewrite U.
  - apply IH.
  - destruct (gather_variants (out_variants it) d); [apply IH | reflexivity].
  - reflexivity.
Qed.

Lemma rewrite_items_unknown (cyr2lat : Dict.t (list string))
  (items : list ParsedItem) :
  let items' := fst (rewrite_items cyr2lat items) in
  List.length items' = List.length items /\
  forall i it, nth_error items i = Some it -> is_unknown it = Ok true ->
               nth_error items' i = Some it.
Proof.
  cbv zeta. induction items as [|x items [IH1 IH2]]; simpl.
  - split; [reflexivity | intros i it H; exact (fun _ => H)].
  - destruct (is_unknown x) as [[|]|e0] eqn:U.
    + destruct (rewrite_items cyr2lat items) as [rest' e]. simpl in *.
      split; [now rewrite IH1|]. intros [|i] it H Hu; [exact H | now apply IH2].
    + destruct (new_variants cyr2lat (out_variants x)) as [vs|e1].
      * destruct (rewrite_items cyr2lat items) as [rest' e]. simpl in *.
        split; [now rewrite IH1|]. intros [|i] it H Hu; [|now apply IH2].
        injection H as <-. congruence.
      * simpl. split; [reflexivity | intros i it H; exact (fun _ => H)].
    + simpl. split; [reflexivity | intros i it H; exact (fun _ => H)].
Qed.

Lemma make_latin_lookups (hfst_lookup : list string -> result (list ParsedItem))
  (items : list ParsedItem) :
  lookups (make_latin hfst_lookup items) =
  match gather_stems items [] with
  | Ok cyr2lat => [Dict.keys cyr2lat]
  | Raise _ => []
  end.
Proof.
  unfold make_latin. destruct (gather_stems items []) as [d|e]; [|reflexivity].
  destruct (hfst_lookup (Dict.keys d)); [|reflexivity].
  now destruct (rewrite_items _ items).
Qed.

Lemma make_latin_unknown_head
  (hfst_lookup : list string -> result (list ParsedItem))
  (it : ParsedItem) (items : list ParsedItem) :
  is_unknown it = Ok true ->
  make_latin hfst_lookup (it :: items) =
  let r := make_latin hfst_lookup items in
  mkLatinRun (lookups r) (it :: items_after r) (raised r).
Proof.
  intros U. unfold make_latin. cbn [gather_stems]. unfold bindR. rewrite U.
  destruct (gather_stems items []) as [d|e]; [|reflexivity].
  destruct (hfst_lookup (Dict.keys d)) as [tr|e]; [|reflexivity].
  cbn [rewrite_items]. rewrite U.
  now destruct (rewrite_items _ items).
Qed.

(** C6. When the first loop of [make_latin] meets no exception (every item
    has a first variant and every variant of a non-unknown item has a
    stem), the secondary transducer is invoked exactly once, on a batch
    without duplicates that holds exactly the stems of the variants of the
    non-unknown items, each of them once. *)
Theorem make_latin_one_lookup
  (hfst_lookup : list string -> result (list ParsedItem))
  (items : list ParsedItem) :
  Forall extractable items ->
  exists batch,
    lookups (make_latin hfst_lookup items) = [batch] /\
    NoDup batch /\
    (forall s, In s batch <-> stem_of_recognized items s) /\
    (forall s, stem_of_recognized items s -> count_occ string_dec batch s = 1).
Proof.
  intros H. destruct (gather_stems_total items [] H) as [d G].
  destruct (gather_stems_keys items [] d G (NoDup_nil _)) as [ND K].
  assert (K' : forall s, In s (Dict.keys d) <-> stem_of_recognized items s).
  { intros s. rewrite K. simpl. tauto. }
  exists (Dict.keys d). rewrite make_latin_lookups, G.
  split; [reflexivity|]. split; [exact ND|]. split; [exact K'|].
  intros s Hs. apply NoDup_count_occ'; [exact ND | now apply K'].
Qed.

Lemma make_latin_one_lookup_witness :
  exists batch,
    lookups (make_latin (fun _ => Raise HfstException)
               [mkParsedItem "cats" ["cat<n><pl>"; "cat<v>"];
                mkParsedItem "zzz" ["*zzz"];
                mkParsedItem "dog" ["dog<n>"; "cat<n>"]]) = [batch] /\
    NoDup batch /\ count_occ string_dec batch "cat" = 1.
Proof.
  destruct (make_latin_one_lookup (fun _ => Raise HfstException)
              [mkParsedItem "cats" ["cat<n><pl>"; "cat<v>"];
               mkParsedItem "zzz" ["*zzz"];
               mkParsedItem "dog" ["dog<n>"; "cat<n>"]])
    as (batch & L & ND & _ & C).
  - repeat constructor.
    + exists false. split; [reflexivity|]. intros _.
      repeat constructor; eexists; reflexivity.
    + exists true. split; [reflexivity|]. discriminate.
    + exists false. split; [reflexivity|]. intros _.
      repeat constructor; eexists; reflexivity.
  - exists batch. split; [exact L|]. split; [exact ND|]. apply C.
    exists (mkParsedItem "cats" ["cat<n><pl>"; "cat<v>"]), "cat<n><pl>".
    repeat split; simpl; auto.
Defined.

(** C8, as the code has it.  [make_latin] leaves every unknown item as it
    was, whether or not the call ends in an exception, and such an item
    adds nothing to the lookup batch: the batches are those of the list
    without the unknown items, so every stem of a batch is the stem of a
    variant of an item that is not unknown. *)
Theorem make_latin_skips_unknown
  (hfst_lookup : list string -> result (list ParsedItem))
  (items : list ParsedItem) :
  let r := make_latin hfst_lookup items in
  List.length (items_after r) = List.length items /\
  (forall i it, nth_error items i = Some it -> is_unknown it = Ok true ->
                nth_error (items_after r) i = Some it) /\
  lookups r =
  lookups (make_latin hfst_lookup (filter (fun it => negb (unknownb it)) items)) /\
  (forall batch s, In batch (lookups r) -> In s batch ->
                   stem_of_recognized items s).
Proof.
  cbv zeta. split; [|split; [|split]].
  - unfold make_latin. destruct (gather_stems items []) as [d|e]; [|reflexivity].
    destruct (hfst_lookup (Dict.keys d)) as [tr|e]; [|reflexivity].
    pose proof (rewrite_items_unknown (store_translits tr d) items) as [L _].
    now destruct (rewrite_items _ items).
  - intros i it Hi U. unfold make_latin.
    destruct (gather_stems items []) as [d|e]; [|exact Hi].
    destruct (hfst_lookup (Dict.keys d)) as [tr|e]; [|exact Hi].
    pose proof (rewrite_items_unknown (store_translits tr d) items) as [_ R].
    specialize (R i it Hi U). now destruct (rewrite_items _ items).
  - rewrite !make_latin_lookups, <- gather_stems_filter. reflexivity.
  - intros batch s. rewrite make_latin_lookups.
    destruct (gather_stems items []) as [d|e] eqn:G; [|intros []].
    intros [<- | []] Hs.
    destruct (gather_stems_keys items [] d G (NoDup_nil _)) as [_ K].
    apply K in Hs. destruct Hs as [[] | Hs]. exact Hs.
Qed.

Lemma make_latin_skips_unknown_witness :
  let unknown_item := mkParsedItem "kat" ["*"; "cat<n>"] in
  let items := [unknown_item; mkParsedItem "cat" ["cat<n>"]] in
  let r := make_latin (fun _ => Ok [mkParsedItem "cat" ["kat"; "cat"]]) items in
  nth_error (items_after r) 0 = Some unknown_item /\
  nth_error (items_after r) 1 = Some (mkParsedItem "cat" ["kat<n>"; "cat<n>"]).
Proof.
  cbv zeta. split; [|reflexivity].
  apply (proj1 (proj2 (make_latin_skips_unknown
                         (fun _ => Ok [mkParsedItem "cat" ["kat"; "cat"]])
                         [mkParsedItem "kat" ["*"; "cat<n>"];
                          mkParsedItem "cat" ["cat<n>"]])) 0);
    reflexivity.
Defined.

(** C8 as stated fails: the stem [cat] of a variant of the unknown first
    item is in the lookup batch, because the second item has it too. *)
Lemma make_latin_unknown_stem_in_batch :
  let unknown_item := mkParsedItem "kat" ["*"; "cat<n>"] in
  let items := [unknown_item; mkParsedItem "cat" ["cat<n>"]] in
  is_unknown unknown_item = Ok true /\
  In "cat<n>" (out_variants unknown_item) /\
  get_stem "cat<n>" = Ok "cat" /\
  lookups (make_latin (fun _ => Ok []) items) = [["cat"]].
Proof. cbv zeta. repeat split. simpl. auto. Qed.

(** ** The unknown marker *)

Lemma score_items_unknown_head (acc_funcs : AccFuncsMapping)
  (details_dir : option string) (ref : string) (pred : ParsedItem)
  (pairs : list (string * ParsedItem)) (n : nat) (d : Dict.t Metric.t)
  (w : list Detail) :
  is_unknown pred = Ok true ->
  score_items acc_funcs details_dir ((ref, pred) :: pairs) n d w =
  score_items acc_funcs details_dir pairs n d
    (fst (log_details details_dir "unknown" (input_str pred) ref
            (variants pred) "UNKNOWN" w)).
Proof.
  intros U. cbn [score_items]. unfold bind, lift. rewrite U.
  unfold log_details. now destruct details_dir.
Qed.

Lemma compare_unknown_head (acc_funcs : AccFuncsMapping)
  (details_dir : option string) (ref : string) (pred : ParsedItem)
  (reference : list string) (predicted : list ParsedItem) (w : list Detail) :
  is_unknown pred = Ok true ->
  List.length reference = List.length predicted ->
  compare acc_funcs details_dir (ref :: reference) (pred :: predicted) w =
  let w1 := fst (log_details details_dir "unknown" (input_str pred) ref
                   (variants pred) "UNKNOWN" w) in
  match compare acc_funcs details_dir reference predicted w1 with
  | (w', Ok r) => (w', Ok (mkRunResult (S (total r)) (recognized r) (accuracy r)))
  | (w', Raise e) => (w', Raise e)
  end.
Proof.
  intros U L. unfold compare. cbn [List.length]. rewrite L, !Nat.eqb_refl.
  cbn [negb combine]. unfold bind.
  rewrite (score_items_unknown_head _ _ _ _ _ _ _ _ U). cbv zeta.
  destruct (score_items acc_funcs details_dir (combine reference predicted) 0
              (initial_results acc_funcs) _) as [w2 [[n d]|e]]; [|reflexivity].
  unfold lift, ret. cbn [fst snd].
  destruct (fractions (Dict.keys acc_funcs) d); reflexivity.
Qed.

(** C10. An item is unknown exactly when [*] occurs somewhere in its first
    variant, also inside an otherwise valid analysis.  [compare] then
    counts the item in the total only (one UNKNOWN record, nothing added
    to [recognized] or to any metric), and [make_latin] passes over it,
    leaving it and the lookup batch as they are without it. *)
Theorem unknown_iff_star_in_first_variant :
  (forall it,
     is_unknown it = Ok true <->
     exists a b rest, out_variants it = (a ++ "*" ++ b) :: rest) /\
  (forall acc_funcs details_dir ref pred reference predicted w,
     is_unknown pred = Ok true ->
     List.length reference = List.length predicted ->
     compare acc_funcs details_dir (ref :: reference) (pred :: predicted) w =
     let w1 := fst (log_details details_dir "unknown" (input_str pred) ref
                      (variants pred) "UNKNOWN" w) in
     match compare acc_funcs details_dir reference predicted w1 with
     | (w', Ok r) => (w', Ok (mkRunResult (S (total r)) (recognized r) (accuracy r)))
     | (w', Raise e) => (w', Raise e)
     end) /\
  (forall hfst_lookup it items,
     is_unknown it = Ok true ->
     make_latin hfst_lookup (it :: items) =
     let r := make_latin hfst_lookup items in
     mkLatinRun (lookups r) (it :: items_after r) (raised r)).
Proof.
  split; [|split].
  - intros it. unfold is_unknown, bindR.
    destruct (out_variants it) as [|v rest]; simpl.
    + split; [discriminate | intros (a & b & r & H); discriminate].
    + split.
      * intros [= H]. apply contains_spec in H as (a & b & ->). now exists a, b, rest.
      * intros (a & b & r & [= -> ->]). f_equal. apply contains_spec. now exists a, b.
  - apply compare_unknown_head.
  - apply make_latin_unknown_head.
Qed.

Lemma unknown_iff_star_in_first_variant_witness :
  compare accuracy_funcs (Some "details") ["cat<n><sg>"]
          [mkParsedItem "cat" ["ca*t<n><sg>"; "cat<n><sg>"]] [] =
  ([mkDetail "details" "unknown.csv" "cat" "cat<n><sg>"
             "ca*t<n><sg>/cat<n><sg>" "UNKNOWN"],
   Ok (mkRunResult 1 0
         [ ("exact_match", Metric.mk 0 0 (Some 0%Q));
           ("stem_match", Metric.mk 0 0 (Some 0%Q));
           ("pos_match", Metric.mk 0 0 (Some 0%Q));
           ("stem_and_pos_match", Metric.mk 0 0 (Some 0%Q));
           ("unordered_tags_match", Metric.mk 0 0 (Some 0%Q)) ])).
Proof.
  rewrite (proj1 (proj2 unknown_iff_star_in_first_variant)
             accuracy_funcs (Some "details") "cat<n><sg>"
             (mkParsedItem "cat" ["ca*t<n><sg>"; "cat<n><sg>"]) [] [] []).
  - reflexivity.
  - reflexivity.
  - reflexivity.
Defined.

(** ** Strings without a stem, from [compare] *)

Lemma raises_bind_l {A B : Type} (c : M A) (k : A -> M B) :
  raises c -> raises (bind c k).
Proof.
  intros H w. destruct (H w) as (w' & e & E). exists w', e.
  unfold bind. now rewrite E.
Qed.

Lemma raises_bind_r {A B : Type} (c : M A) (k : A -> M B) :
  (forall a, raises (k a)) -> raises (bind c k).
Proof.
  intros H w. unfold bind. destruct (c w) as [w1 [a|e]].
  - apply H.
  - now exists w1, e.
Qed.

Lemma bind_lift_Ok {A B : Type} (a : A) (k : A -> M B) :
  bind (lift (Ok a)) k = k a.
Proof. reflexivity. Qed.

Lemma raises_lift {A : Type} (e : exn) : raises (lift (@Raise A e)).
Proof. intros w. now exists w, e. Qed.

Section TaglessInCompare.

Variable details_dir : option string.
Variables (ref : string) (pred : ParsedItem).
Hypothesis pred_recognized : is_unknown pred = Ok false.
Hypothesis no_stem :
  tagless ref \/ exists v0 rest, out_variants pred = v0 :: rest /\ tagless v0.

Lemma first_variant : exists v0 rest, out_variants pred = v0 :: rest.
Proof.
  unfold is_unknown, bindR in pred_recognized.
  destruct (out_variants pred) as [|v0 rest]; [discriminate | now exists v0, rest].
Qed.

Lemma stem_match_raises (is_correct : bool) (d : Dict.t Metric.t) :
  raises (try_variants accuracy_funcs details_dir "stem_match" ref pred
            (out_variants pred) is_correct d).
Proof.
  destruct first_variant as (v0 & rest & V). rewrite V. cbn [try_variants].
  assert (T : match_stem ref v0 = Raise IndexError).
  { apply match_stem_tagless. destruct no_stem as [H | (v & r & Hv & H)].
    - now left.
    - right. rewrite V in Hv. now injection Hv as <- _. }
  change (Dict.get "stem_match" accuracy_funcs) with (Ok match_stem).
  rewrite bind_lift_Ok, T. apply raises_bind_l. apply raises_lift.
Qed.

Lemma score_metrics_raises (is_correct : bool) (d : Dict.t Metric.t) :
  raises (score_metrics accuracy_funcs details_dir ref pred
            (Dict.keys accuracy_funcs) is_correct d).
Proof.
  change (Dict.keys accuracy_funcs)
    with ("exact_match" :: "stem_match" ::
          ["pos_match"; "stem_and_pos_match"; "unordered_tags_match"]).
  cbn [score_metrics].
  apply raises_bind_r. intros d1. apply raises_bind_r. intros st.
  apply raises_bind_r. intros _. apply raises_bind_r. intros d2.
  apply raises_bind_l. apply stem_match_raises.
Qed.

Lemma score_items_raises (pairs : list (string * ParsedItem)) :
  In (ref, pred) pairs ->
  forall n d, raises (score_items accuracy_funcs details_dir pairs n d).
Proof.
  induction pairs as [|[r0 p0] pairs IH]; intros Hin n d; [destruct Hin|].
  cbn [score_items]. destruct Hin as [[= -> ->] | Hin].
  - rewrite pred_recognized, bind_lift_Ok.
    apply raises_bind_l. apply score_metrics_raises.
  - apply raises_bind_r. intros [|].
    + apply raises_bind_r. intros _. now apply IH.
    + apply raises_bind_r. intros st. now apply IH.
Qed.

End TaglessInCompare.

Lemma compare_tagless_raises (details_dir : option string)
  (reference : list string) (predicted : list ParsedItem)
  (ref : string) (pred : ParsedItem) (w : list Detail) :
  List.length reference = List.length predicted ->
  In (ref, pred) (combine reference predicted) ->
  is_unknown pred = Ok false ->
  tagless ref \/ (exists v0 rest, out_variants pred = v0 :: rest /\ tagless v0) ->
  snd (compare accuracy_funcs details_dir reference predicted w) = Raise IndexError.
Proof.
  intros L Hin U T.
  pose proof (compare_outcome accuracy_funcs details_dir (fun e => e = IndexError)
                eq_refl accuracy_funcs_errors reference predicted L w) as O.
  destruct (snd (compare accuracy_funcs details_dir reference predicted w))
    as [r|e] eqn:C; [exfalso | now rewrite O].
  unfold compare in C. rewrite L, Nat.eqb_refl in C. cbn [negb] in C.
  destruct (score_items_raises details_dir ref pred U T _ Hin 0
              (initial_results accuracy_funcs) w) as (w' & e & S).
  unfold bind at 1 in C. rewrite S in C. discriminate.
Qed.

Lemma make_latin_tagless_raises
  (hfst_lookup : list string -> result (list ParsedItem))
  (items : list ParsedItem) (it : ParsedItem) (var : string) :
  In it items -> is_unknown it = Ok false ->
  In var (out_variants it) -> tagless var ->
  make_latin hfst_lookup items = mkLatinRun [] items (Some IndexError).
Proof.
  intros Hin U Hv T. unfold make_latin.
  now rewrite (gather_stems_tagless items it var Hin U Hv T []).
Qed.

Lemma get_stem_nonempty (s g : string) : get_stem s = Ok g -> g <> EmptyString.
Proof.
  unfold get_stem, Re.findall.
  assert (H : forall k l, Re.findall_from Re.stem_re k s = l ->
                          Forall (fun x => x <> EmptyString) l).
  { induction s as [|c s IH]; intros k l <-; [constructor|].
    cbn [Re.findall_from]. destruct k as [|k]; [|now apply (IH k)].
    destruct (Re.stem_re (String c s)) as [[g0 n]|] eqn:E; [|now apply (IH 0)].
    constructor; [|now apply (IH (n - 1))].
    assert (R : forall t g1 n1, Re.run_then Re.not_angle Re.lt_sign t = Some (g1, n1) ->
                                g1 <> EmptyString).
    { intros t g1 n1 Hr. destruct (run_then_spec _ _ _ _ _ Hr) as (a & x & _ & -> & _).
      destruct a; discriminate. }
    unfold Re.stem_re in E. destruct (Ascii.eqb c Re.gt_sign).
    - destruct (Re.run_then Re.not_angle Re.lt_sign s) as [[g1 n1]|] eqn:E1.
      + injection E as <- _. exact (R _ _ _ E1).
      + exact (R _ _ _ E).
    - exact (R _ _ _ E). }
  specialize (H 0 _ eq_refl).
  destruct (Re.findall_from Re.stem_re 0 s) as [|x l]; [discriminate|].
  intros [= <-]. now inversion H.
Qed.

(** C9. Stem extraction is partial.  On a string in which no [<] comes
    right after a character other than [<] and [>] (a bare wordform, for
    one), [get_stem] raises [IndexError], and only on such strings; it
    never returns an empty stem.  On such a reference or candidate,
    [match_stem], [match_pos], [match_stem_and_pos] and [match_unordered]
    raise [IndexError]; [make_latin] raises it, before any lookup, when a
    variant of a non-unknown item is such a string; and [compare] with the
    registry raises it when the reference or the first variant of a
    non-unknown item is. *)
Theorem get_stem_partial :
  (forall s, tagless s <-> get_stem s = Raise IndexError) /\
  (forall s g, get_stem s = Ok g -> g <> EmptyString) /\
  (forall t1 t2, tagless t1 \/ tagless t2 ->
     match_stem t1 t2 = Raise IndexError /\
     match_pos t1 t2 = Raise IndexError /\
     match_stem_and_pos t1 t2 = Raise IndexError /\
     match_unordered t1 t2 = Raise IndexError) /\
  (forall hfst_lookup items it var,
     In it items -> is_unknown it = Ok false ->
     In var (out_variants it) -> tagless var ->
     make_latin hfst_lookup items = mkLatinRun [] items (Some IndexError)) /\
  (forall details_dir reference predicted ref pred w,
     List.length reference = List.length predicted ->
     In (ref, pred) (combine reference predicted) ->
     is_unknown pred = Ok false ->
     tagless ref \/ (exists v0 rest, out_variants pred = v0 :: rest /\ tagless v0) ->
     snd (compare accuracy_funcs details_dir reference predicted w)
     = Raise IndexError).
Proof.
  split; [exact get_stem_raises_iff|].
  split; [exact get_stem_nonempty|].
  split; [|split; [exact make_latin_tagless_raises | exact compare_tagless_raises]].
  intros t1 t2 H.
  pose proof (match_stem_tagless t1 t2 H) as Hs.
  pose proof (match_pos_tagless t1 t2 H) as Hp.
  repeat split; try assumption.
  - unfold match_stem_and_pos. now rewrite Hs.
  - unfold match_unordered. now rewrite Hs.
Qed.

Lemma get_stem_partial_witness :
  get_stem "cat" = Raise IndexError /\
  match_stem "cat" "cat<n><sg>" = Raise IndexError /\
  match_pos "cat<n><sg>" "cat" = Raise IndexError /\
  make_latin (fun _ => Ok []) [mkParsedItem "cat" ["cat"]] =
    mkLatinRun [] [mkParsedItem "cat" ["cat"]] (Some IndexError) /\
  snd (compare accuracy_funcs None ["cat"] [mkParsedItem "cat" ["cat"]] [])
    = Raise IndexError.
Proof.
  assert (T : tagless "cat") by (apply tagless_iff_no_site; reflexivity).
  destruct get_stem_partial as (A & _ & B & C & D).
  split; [now apply A|].
  split; [apply (B "cat" "cat<n><sg>"); now left|].
  split; [apply (B "cat<n><sg>" "cat"); now right|].
  split.
  - apply (C (fun _ => Ok []) [mkParsedItem "cat" ["cat"]]
             (mkParsedItem "cat" ["cat"]) "cat");
      [now left | reflexivity | now left | exact T].
  - apply (D None ["cat"] [mkParsedItem "cat" ["cat"]] "cat"
             (mkParsedItem "cat" ["cat"]) []);
      [reflexivity | now left | reflexivity | now left].
Defined.

(** ** The Apertium-format parser *)

Lemma split_cons (sep : ascii) (s : string) :
  exists w vs, Str.split sep s = w :: vs.
Proof.
  induction s as [|c s (w & vs & IH)]; simpl; [eauto|].
  destruct (Ascii.eqb c sep); [eauto|]. rewrite IH. eauto.
Qed.

Lemma split_length (sep : ascii) (s : string) :
  List.length (Str.split sep s) = S (count_char sep s).
Proof.
  induction s as [|c s IH]; simpl; [reflexivity|].
  destruct (Ascii.eqb c sep); simpl; [now rewrite IH|].
  destruct (split_cons sep s) as (w & vs & E). rewrite E in IH |- *. exact IH.
Qed.

Lemma split_no_sep (sep : ascii) (s : string) :
  count_char sep s = 0 -> Str.split sep s = [s].
Proof.
  induction s as [|c s IH]; simpl; [reflexivity|].
  destruct (Ascii.eqb c sep); [discriminate|]. simpl. intros H. now rewrite IH.
Qed.

Lemma split_app_sep (sep : ascii) (a b : string) :
  count_char sep a = 0 ->
  Str.split sep (a ++ String sep b) = a :: Str.split sep b.
Proof.
  induction a as [|c a IH]; simpl.
  - now rewrite Ascii.eqb_refl.
  - destruct (Ascii.eqb c sep); [discriminate|]. simpl. intros H. now rewrite IH.
Qed.

Lemma findall_from_In (m : Re.matcher) (s : string) :
  forall k g, In g (Re.findall_from m k s) -> exists t n, m t = Some (g, n).
Proof.
  induction s as [|c s IH]; intros k g; simpl; [intros []|].
  destruct k as [|k]; [|apply IH].
  destruct (m (String c s)) as [[g0 n]|] eqn:E; [|apply IH].
  intros [<- | H]; [now exists (String c s), n | exact (IH _ _ H)].
Qed.

Lemma findall_from_skip (m : Re.matcher) (s : string) :
  forall k, String.length s <= k -> Re.findall_from m k s = [].
Proof.
  induction s as [|c s IH]; intros k H; [reflexivity|].
  simpl in *. destruct k as [|k]; [lia|]. apply IH. lia.
Qed.

Lemma span_all (cls : ascii -> bool) (g : string) (d : ascii) (r : string) :
  all_chars cls g = true -> cls d = false ->
  Re.span cls (g ++ String d r) = (g, String d r).
Proof.
  intros Hg Hd. induction g as [|c g IH]; simpl.
  - now rewrite Hd.
  - simpl in Hg. apply andb_true_iff in Hg as [Hc Hg]. now rewrite Hc, (IH Hg).
Qed.

Lemma all_chars_app (cls : ascii -> bool) (a b : string) :
  all_chars cls (a ++ b) = all_chars cls a && all_chars cls b.
Proof.
  induction a as [|c a IH]; simpl; [reflexivity|]. now rewrite IH, andb_assoc.
Qed.

Lemma length_append (a b : string) :
  String.length (a ++ b) = String.length a + String.length b.
Proof. induction a as [|c a IH]; simpl; [reflexivity | now rewrite IH]. Qed.

Lemma apertium_re_group (t g : string) (n : nat) :
  Re.apertium_re t = Some (g, n) -> g <> EmptyString.
Proof.
  unfold Re.apertium_re. destruct t as [|c t]; [discriminate|].
  destruct (Ascii.eqb c Re.caret); [|discriminate].
  destruct (Re.run_then Re.not_caret_dollar Re.dollar t) as [[g0 n0]|] eqn:E;
    [|discriminate].
  intros [= <- _]. destruct (run_then_spec _ _ _ _ _ E) as (a & x & _ & -> & _).
  destruct a; discriminate.
Qed.

Lemma parse_single_span (content : string) :
  content <> EmptyString -> all_chars Re.not_caret_dollar content = true ->
  parse_apertium ("^" ++ content ++ "$") = [item_of_span content].
Proof.
  intros Hne Hall. unfold parse_apertium, Re.findall.
  change ("^" ++ content ++ "$") with (String Re.caret (content ++ "$")).
  cbn [Re.findall_from Re.apertium_re]. rewrite Ascii.eqb_refl.
  unfold Re.run_then.
  rewrite (span_all Re.not_caret_dollar content "$"%char EmptyString Hall eq_refl).
  destruct content as [|c g]; [contradiction|].
  change (Ascii.eqb "$" Re.dollar) with true. cbn [map]. f_equal.
  rewrite findall_from_skip; [reflexivity|].
  rewrite length_append. simpl. lia.
Qed.

(** C2, as the code has it.  The variants of a parsed item are the fields
    of its span after the first [/]-separated one: there are as many as
    the span has [/] characters, so the list is non-empty exactly when the
    span has a [/].  A span of the form [^w/*w$] gives the single variant
    [*w], which contains the unknown marker. *)
Theorem parse_apertium_variants :
  (forall stdout it,
     In it (parse_apertium stdout) ->
     exists content,
       In content (Re.findall Re.apertium_re stdout) /\
       content <> EmptyString /\
       Str.split "/" content = input_str it :: out_variants it /\
       List.length (out_variants it) = count_char "/" content /\
       (out_variants it <> [] <-> count_char "/" content <> 0)) /\
  (forall w,
     all_chars (fun c => Re.not_caret_dollar c && negb (Ascii.eqb c "/")) w = true ->
     parse_apertium ("^" ++ (w ++ "/*" ++ w) ++ "$") = [mkParsedItem w ["*" ++ w]] /\
     Str.contains "*" ("*" ++ w) = true).
Proof.
  split.
  - intros stdout it H. unfold parse_apertium in H.
    apply in_map_iff in H as (content & <- & Hin). exists content.
    split; [exact Hin|].
    split.
    { destruct (findall_from_In _ _ _ _ Hin) as (t & n & E).
      exact (apertium_re_group _ _ _ E). }
    pose proof (split_length "/" content) as Hlen.
    unfold item_of_span.
    destruct (Str.split "/" content) as [|w vs]; [discriminate|]. simpl in *.
    split; [reflexivity|]. split; [lia|].
    destruct vs; simpl in Hlen; split; intros G; try congruence; try lia.
  - intros w H.
    assert (H1 : all_chars Re.not_caret_dollar w = true /\ count_char "/" w = 0).
    { induction w as [|c w IH]; [now split|]. simpl in H |- *.
      apply andb_true_iff in H as [Hc Hw]. apply andb_true_iff in Hc as [Hc1 Hc2].
      destruct (IH Hw) as [IH1 IH2]. rewrite Hc1, IH1, IH2.
      apply negb_true_iff in Hc2. now rewrite Hc2. }
    destruct H1 as [Hall Hcnt].
    split; [|apply contains_spec; now exists EmptyString, w].
    rewrite parse_single_span.
    + unfold item_of_span.
      change (w ++ "/*" ++ w) with (w ++ String "/" ("*" ++ w)).
      rewrite (split_app_sep "/" w ("*" ++ w) Hcnt).
      rewrite split_no_sep; [reflexivity|]. simpl. exact Hcnt.
    + destruct w; discriminate.
    + rewrite all_chars_app, Hall. simpl. exact Hall.
Qed.

Lemma parse_apertium_variants_witness :
  parse_apertium "^zzz/*zzz$" = [mkParsedItem "zzz" ["*zzz"]] /\
  exists content, Str.split "/" content = ["cat"] /\ count_char "/" content = 0.
Proof.
  destruct parse_apertium_variants as [A B]. split.
  - apply (B "zzz"). reflexivity.
  - destruct (A "^cat$" (mkParsedItem "cat" [])) as (content & _ & _ & S & L & _).
    + simpl. now left.
    + exists content. split; [exact S | now rewrite <- L].
Defined.

(** C2 as stated fails: a span without [/] gives an item with no variant. *)
Lemma parse_apertium_empty_variants :
  exists it, In it (parse_apertium "^cat$") /\ out_variants it = [].
Proof. exists (mkParsedItem "cat" []). split; [now left | reflexivity]. Qed.

(** ** Detail records *)

(** C1, at the failing input: one recognized item, none of whose variants
    satisfies [unordered_tags_match].  [compare] writes a FAIL record for
    [exact_match] and CORRECT records for the three metrics that match, and
    nothing for [unordered_tags_match]: [is_correct], set by [stem_match],
    is still true when that metric has been tried. *)
Theorem compare_missing_fail_record :
  let reference := ["car<n><pl>"] in
  let predicted := [mkParsedItem "cars" ["car<n><sg>"]] in
  let row := mkDetail "details" in
  is_unknown (mkParsedItem "cars" ["car<n><sg>"]) = Ok false /\
  match_unordered "car<n><pl>" "car<n><sg>" = Ok false /\
  compare accuracy_funcs (Some "details") reference predicted [] =
  ([ row "exact_match.csv" "cars" "car<n><pl>" "car<n><sg>" "FAIL";
     row "stem_match.csv" "cars" "car<n><pl>" "car<n><sg>" "CORRECT";
     row "pos_match.csv" "cars" "car<n><pl>" "car<n><sg>" "CORRECT";
     row "stem_and_pos_match.csv" "cars" "car<n><pl>" "car<n><sg>" "CORRECT" ],
   Ok (mkRunResult 1 1
         [ ("exact_match", Metric.mk 0 1 (Some 0%Q));
           ("stem_match", Metric.mk 1 1 (Some 1%Q));
           ("pos_match", Metric.mk 1 1 (Some 1%Q));
           ("stem_and_pos_match", Metric.mk 1 1 (Some 1%Q));
           ("unordered_tags_match", Metric.mk 0 1 (Some 0%Q)) ])).
Proof. cbv zeta. repeat split. Qed.

(** * Further properties of the code *)

(** ** Reading spans back *)

Lemma clean_field_parts (s : string) :
  clean_field s = true <->
  all_chars Re.not_caret_dollar s = true /\ count_char "/" s = 0.
Proof.
  unfold clean_field. induction s as [|c s IH]; simpl; [tauto|].
  rewrite !andb_true_iff, IH, negb_true_iff.
  destruct (Ascii.eqb c "/"); simpl; split.
  - intros [[_ H] _]. discriminate.
  - intros [_ H]. discriminate.
  - tauto.
  - tauto.
Qed.

Lemma split_parts (cls : ascii -> bool) (sep : ascii) (s : string) :
  all_chars cls s = true ->
  Forall (fun p => all_chars cls p = true /\ count_char sep p = 0)
         (Str.split sep s).
Proof.
  induction s as [|c s IH]; simpl; intros H.
  - constructor; [now split | constructor].
  - apply andb_true_iff in H as [Hc Hs]. specialize (IH Hs).
    destruct (Ascii.eqb c sep) eqn:E.
    + constructor; [now split | exact IH].
    + destruct (Str.split sep s) as [|w ws]; [constructor; [|constructor]|].
      * simpl. rewrite Hc, E. now split.
      * inversion IH as [|? ? [Hw Hn] Hws]; subst. constructor; [|exact Hws].
        simpl. rewrite Hc, Hw, E, Hn. now split.
Qed.

Lemma split_join (sep : ascii) (l : list string) :
  forall x,
    count_char sep x = 0 -> Forall (fun s => count_char sep s = 0) l ->
    Str.split sep (Str.join (String sep EmptyString) (x :: l)) = x :: l.
Proof.
  induction l as [|y l IH]; intros x Hx Hl.
  - simpl. now apply split_no_sep.
  - inversion Hl as [|? ? Hy Hl']; subst.
    change (Str.join (String sep EmptyString) (x :: y :: l))
      with (x ++ String sep (Str.join (String sep EmptyString) (y :: l))).
    rewrite (split_app_sep sep x _ Hx). f_equal. now apply IH.
Qed.

Lemma join_all_chars (cls : ascii -> bool) (sep : ascii) (l : list string) :
  cls sep = true -> Forall (fun s => all_chars cls s = true) l ->
  all_chars cls (Str.join (String sep EmptyString) l) = true.
Proof.
  intros Hsep. induction l as [|x l IH]; intros H; [reflexivity|].
  inversion H as [|? ? Hx Hl]; subst. destruct l as [|y l]; [exact Hx|].
  change (Str.join (String sep EmptyString) (x :: y :: l))
    with (x ++ String sep (Str.join (String sep EmptyString) (y :: l))).
  rewrite all_chars_app, Hx. simpl. rewrite Hsep. now apply IH.
Qed.

Lemma run_then_all (cls : ascii -> bool) (close : ascii) (s g : string) (n : nat) :
  Re.run_then cls close s = Some (g, n) ->
  all_chars cls g = true /\ n = S (String.length g) /\
  exists rest, s = g ++ String close rest.
Proof.
  unfold Re.run_then. destruct (Re.span cls s) as [g1 r1] eqn:E.
  destruct g1 as [|c g1]; [discriminate|].
  destruct r1 as [|d r1]; [discriminate|].
  destruct (Ascii.eqb d close) eqn:D; [|discriminate].
  intros [= <- <-]. apply Ascii.eqb_eq in D. subst d.
  destruct (span_spec _ _ _ _ E) as (Hs & Hall & _).
  split; [exact Hall|]. split; [reflexivity|]. now exists r1.
Qed.

Lemma apertium_re_match (t g : string) (n : nat) :
  Re.apertium_re t = Some (g, n) ->
  all_chars Re.not_caret_dollar g = true /\
  exists rest, t = String Re.caret (g ++ String Re.dollar rest).
Proof.
  unfold Re.apertium_re. destruct t as [|c t]; [discriminate|].
  destruct (Ascii.eqb c Re.caret) eqn:C; [|discriminate].
  destruct (Re.run_then Re.not_caret_dollar Re.dollar t) as [[g0 n0]|] eqn:E;
    [|discriminate].
  intros [= <- _]. apply Ascii.eqb_eq in C. subst c.
  destruct (run_then_all _ _ _ _ _ E) as (Hall & _ & rest & ->).
  split; [exact Hall | now exists rest].
Qed.

Lemma parsed_item_fields (stdout : string) (it : ParsedItem) :
  In it (parse_apertium stdout) ->
  clean_field (input_str it) = true /\
  Forall (fun v => clean_field v = true) (out_variants it).
Proof.
  unfold parse_apertium. intros H.
  apply in_map_iff in H as (content & <- & Hin).
  destruct (findall_from_In _ _ _ _ Hin) as (t & n & E).
  destruct (apertium_re_match _ _ _ E) as [Hall _].
  pose proof (split_parts Re.not_caret_dollar "/" content Hall) as P.
  unfold item_of_span. destruct (Str.split "/" content) as [|w vs].
  - simpl. split; [reflexivity | constructor].
  - inversion P as [|? ? Hw Hvs]; subst. simpl. split.
    + now apply clean_field_parts.
    + eapply Forall_impl; [|exact Hvs]. intros v Hv. now apply clean_field_parts.
Qed.

Lemma findall_from_skip_app (m : Re.matcher) (a b : string) :
  Re.findall_from m (String.length a) (a ++ b) = Re.findall_from m 0 b.
Proof.
  induction a as [|c a IH]; [reflexivity|]. simpl. exact IH.
Qed.

Lemma findall_apertium_junk (junk s : string) :
  avoids Re.caret junk = true ->
  Re.findall Re.apertium_re (junk ++ s) = Re.findall Re.apertium_re s.
Proof.
  unfold Re.findall. induction junk as [|c junk IH]; intros H; [reflexivity|].
  simpl in H. apply andb_true_iff in H as [Hc Hj].
  simpl append. cbn [Re.findall_from Re.apertium_re].
  apply negb_true_iff in Hc. rewrite Hc. now apply IH.
Qed.

Lemma findall_apertium_span (content rest : string) :
  content <> EmptyString -> all_chars Re.not_caret_dollar content = true ->
  Re.findall Re.apertium_re ("^" ++ content ++ "$" ++ rest) =
  content :: Re.findall Re.apertium_re rest.
Proof.
  intros Hne Hall. unfold Re.findall.
  change ("^" ++ content ++ "$" ++ rest)
    with (String Re.caret (content ++ String "$" rest)).
  cbn [Re.findall_from Re.apertium_re]. rewrite Ascii.eqb_refl.
  unfold Re.run_then.
  rewrite (span_all Re.not_caret_dollar content "$"%char rest Hall eq_refl).
  destruct content as [|c g]; [contradiction|].
  change (Ascii.eqb "$" Re.dollar) with true. cbv beta iota. f_equal.
  replace (S (S (S (String.length g))) - 1)
    with (String.length (String c g ++ "$")) by (rewrite length_append; simpl; lia).
  replace (String c g ++ String "$" rest) with ((String c g ++ "$") ++ rest)
    by (rewrite append_assoc; reflexivity).
  apply findall_from_skip_app.
Qed.

Lemma printable_content (it : ParsedItem) :
  printable_item it ->
  let content := Str.join "/" (input_str it :: out_variants it) in
  content <> EmptyString /\
  all_chars Re.not_caret_dollar content = true /\
  item_of_span content = it.
Proof.
  intros (Hi & Hv & Hne). cbv zeta.
  apply clean_field_parts in Hi as [Hi1 Hi2].
  assert (Hv1 : Forall (fun s => all_chars Re.not_caret_dollar s = true)
                       (out_variants it)).
  { eapply Forall_impl; [|exact Hv]. intros v H. now apply clean_field_parts in H. }
  assert (Hv2 : Forall (fun s => count_char "/" s = 0) (out_variants it)).
  { eapply Forall_impl; [|exact Hv]. intros v H. now apply clean_field_parts in H. }
  split; [|split].
  - destruct it as [w vs]. simpl in *. destruct vs as [|v vs].
    + destruct Hne as [H | H]; [exact H | now contradiction H].
    + destruct w; discriminate.
  - apply (join_all_chars Re.not_caret_dollar "/"); [reflexivity|].
    constructor; assumption.
  - unfold item_of_span.
    rewrite (split_join "/" (out_variants it) (input_str it) Hi2 Hv2).
    now destruct it.
Qed.

Lemma findall_render_item (it : ParsedItem) (rest : string) :
  printable_item it ->
  Re.findall Re.apertium_re (render_item it ++ rest) =
  Str.join "/" (input_str it :: out_variants it)
  :: Re.findall Re.apertium_re rest.
Proof.
  intros Hit. destruct (printable_content it Hit) as (Hne & Hall & _).
  rewrite <- (findall_apertium_span _ rest Hne Hall).
  unfold render_item. simpl. now rewrite append_assoc.
Qed.

(** X1. [parse_apertium] reads back what the analyzer prints: for items
    with clean fields, printed as [^input/var1/...$] spans with any text
    free of [^] before the first span and after each span, the parser
    returns exactly these items, in order. *)
Theorem parse_apertium_render (items : list ParsedItem) :
  forall pre sep,
    avoids Re.caret pre = true -> avoids Re.caret sep = true ->
    Forall printable_item items ->
    parse_apertium
      (pre ++ concat_all (map (fun it => render_item it ++ sep) items)) = items.
Proof.
  unfold parse_apertium.
  induction items as [|it items IH]; intros pre sep Hpre Hsep H.
  - simpl. rewrite findall_apertium_junk by exact Hpre. reflexivity.
  - inversion H as [|? ? Hit Hrest]; subst.
    destruct (printable_content it Hit) as (_ & _ & Hitem).
    rewrite findall_apertium_junk by exact Hpre.
    cbn [map concat_all]. rewrite append_assoc.
    rewrite (findall_render_item it _ Hit). cbn [map]. rewrite Hitem. f_equal.
    now apply IH.
Qed.

Lemma parse_apertium_render_witness :
  parse_apertium
    ("> " ++ concat_all
       (map (fun it => render_item it ++ String Re.newline EmptyString)
            [mkParsedItem "dogs" ["dog<n><pl>"; "dogs<n><pl>"];
             mkParsedItem "zzz" ["*zzz"]])) =
  [mkParsedItem "dogs" ["dog<n><pl>"; "dogs<n><pl>"]; mkParsedItem "zzz" ["*zzz"]].
Proof.
  apply (parse_apertium_render _ "> " (String Re.newline EmptyString));
    [reflexivity | reflexivity |].
  constructor; [|constructor; [|constructor]];
    (split; [reflexivity | split; [repeat constructor | left; discriminate]]).
Defined.

(** X2. No field of a parsed item contains [^], [$] or [/]; so the
    variants joined by [/], as [variants] writes them into the detail
    records, split back into the item's variants when there is one. *)
Theorem parse_apertium_fields (stdout : string) (it : ParsedItem) :
  In it (parse_apertium stdout) ->
  clean_field (input_str it) = true /\
  Forall (fun v => clean_field v = true) (out_variants it) /\
  (out_variants it <> [] -> Str.split "/" (variants it) = out_variants it).
Proof.
  intros H. destruct (parsed_item_fields stdout it H) as [Hi Hv].
  split; [exact Hi|]. split; [exact Hv|].
  unfold variants. destruct (out_variants it) as [|v vs]; [now intros []|].
  intros _. inversion Hv as [|? ? H1 H2]; subst.
  apply split_join.
  - now apply clean_field_parts in H1.
  - eapply Forall_impl; [|exact H2]. intros x Hx. now apply clean_field_parts in Hx.
Qed.

Lemma parse_apertium_fields_witness :
  Str.split "/" (variants (mkParsedItem "dogs" ["dog<n><pl>"; "dogs<n><pl>"])) =
  ["dog<n><pl>"; "dogs<n><pl>"].
Proof.
  refine (proj2 (proj2 (parse_apertium_fields "^dogs/dog<n><pl>/dogs<n><pl>$"
                          (mkParsedItem "dogs" ["dog<n><pl>"; "dogs<n><pl>"]) _)) _).
  - now left.
  - discriminate.
Defined.

Lemma avoids_app (h : ascii) (a b : string) :
  avoids h (a ++ b) = avoids h a && avoids h b.
Proof.
  induction a as [|c a IH]; simpl; [reflexivity|]. now rewrite IH, andb_assoc.
Qed.

Lemma avoids_head (h : ascii) (s : string) : avoids h (String h s) = false.
Proof. simpl. now rewrite Ascii.eqb_refl. Qed.

(** X3. Text outside the spans is ignored: a prefix without [^] does not
    change what is parsed, and a text without [$] gives no item. *)
Theorem parse_apertium_ignores_text :
  (forall junk s,
     avoids Re.caret junk = true ->
     parse_apertium (junk ++ s) = parse_apertium s) /\
  (forall s, avoids Re.dollar s = true -> parse_apertium s = []).
Proof.
  split.
  - intros junk s H. unfold parse_apertium. now rewrite findall_apertium_junk.
  - intros s H. unfold parse_apertium, Re.findall.
    rewrite findall_from_nil; [reflexivity|].
    intros pre t ->. destruct (Re.apertium_re t) as [[g n]|] eqn:E; [exfalso | reflexivity].
    destruct (apertium_re_match _ _ _ E) as [_ [rest ->]].
    rewrite avoids_app in H. apply andb_true_iff in H as [_ H].
    change (avoids Re.dollar (String Re.caret (g ++ String Re.dollar rest)))
      with (avoids Re.dollar (g ++ String Re.dollar rest)) in H.
    rewrite avoids_app, avoids_head, andb_false_r in H. discriminate.
Qed.

Lemma parse_apertium_ignores_text_witness :
  parse_apertium ("warning: x" ++ "^cat/cat<n>$") = parse_apertium "^cat/cat<n>$" /\
  parse_apertium "^cat/cat<n>" = [].
Proof.
  destruct parse_apertium_ignores_text as [A B]. split.
  - apply A. reflexivity.
  - apply B. reflexivity.
Defined.

(** ** Stems *)

Lemma findall_from_suffix (m : Re.matcher) (s : string) :
  forall k g, In g (Re.findall_from m k s) ->
              exists pre t n, s = pre ++ t /\ m t = Some (g, n).
Proof.
  induction s as [|c s IH]; intros k g; simpl; [intros []|].
  assert (Tl : In g (Re.findall_from m (match k with S k' => k' | O => 0 end) s)
               \/ (k = 0 /\ exists n, m (String c s) = Some (g, n)) ->
               exists pre t n, String c s = pre ++ t /\ m t = Some (g, n)).
  { intros [H | [_ [n H]]].
    - destruct (IH _ _ H) as (pre & t & n & -> & E).
      now exists (String c pre), t, n.
    - now exists EmptyString, (String c s), n. }
  destruct k as [|k]; [|intros H; apply Tl; now left].
  destruct (m (String c s)) as [[g0 n]|] eqn:E.
  - intros [<- | H].
    + apply Tl. right. split; [reflexivity | now exists n].
    + destruct (IH _ _ H) as (pre & t & n' & -> & E').
      now exists (String c pre), t, n'.
  - intros H. apply Tl. now left.
Qed.

Lemma stem_re_match (t g : string) (n : nat) :
  Re.stem_re t = Some (g, n) ->
  g <> EmptyString /\ all_chars Re.not_angle g = true /\
  exists a b, t = a ++ g ++ String Re.lt_sign b.
Proof.
  assert (R : forall u g1 n1,
             Re.run_then Re.not_angle Re.lt_sign u = Some (g1, n1) ->
             g1 <> EmptyString /\ all_chars Re.not_angle g1 = true /\
             exists b, u = g1 ++ String Re.lt_sign b).
  { intros u g1 n1 H. destruct (run_then_all _ _ _ _ _ H) as (Hall & _ & b & ->).
    split; [|split; [exact Hall | now exists b]].
    destruct (run_then_spec _ _ _ _ _ H) as (g0 & x & _ & -> & _).
    destruct g0; discriminate. }
  unfold Re.stem_re. destruct t as [|c t]; [discriminate|].
  destruct (Ascii.eqb c Re.gt_sign).
  - destruct (Re.run_then Re.not_angle Re.lt_sign t) as [[g1 n1]|] eqn:E1.
    + intros [= <- _]. destruct (R _ _ _ E1) as (A & B & b & ->).
      split; [exact A|]. split; [exact B|]. now exists (String c EmptyString), b.
    + intros H. destruct (R _ _ _ H) as (A & B & b & Hb).
      split; [exact A|]. split; [exact B|]. exists EmptyString, b. exact Hb.
  - intros H. destruct (R _ _ _ H) as (A & B & b & Hb).
    split; [exact A|]. split; [exact B|]. exists EmptyString, b. exact Hb.
Qed.

(** X4. A stem returned by [get_stem] is not empty, contains neither [<]
    nor [>], and stands in the analysis right before a [<]. *)
Theorem get_stem_result (s g : string) :
  get_stem s = Ok g ->
  g <> EmptyString /\ all_chars Re.not_angle g = true /\
  exists a b, s = a ++ g ++ String Re.lt_sign b.
Proof.
  unfold get_stem, Re.findall.
  destruct (Re.findall_from Re.stem_re 0 s) as [|x l] eqn:F; [discriminate|].
  intros [= ->].
  destruct (findall_from_suffix Re.stem_re s 0 g) as (pre & t & n & -> & E).
  { rewrite F. now left. }
  destruct (stem_re_match _ _ _ E) as (A & B & a & b & ->).
  split; [exact A|]. split; [exact B|]. exists (pre ++ a), b.
  now rewrite append_assoc.
Qed.

Lemma get_stem_result_witness :
  exists a b, "pl>car<n>" = a ++ "car" ++ String Re.lt_sign b.
Proof.
  exact (proj2 (proj2 (get_stem_result "pl>car<n>" "car" eq_refl))).
Defined.

Lemma not_angle_gt (c : ascii) : Re.not_angle c = true -> Ascii.eqb c Re.gt_sign = false.
Proof.
  unfold Re.not_angle. rewrite negb_true_iff, orb_false_iff. tauto.
Qed.

Lemma run_then_stem (stem rest : string) :
  stem <> EmptyString -> all_chars Re.not_angle stem = true ->
  Re.run_then Re.not_angle Re.lt_sign (stem ++ String Re.lt_sign rest) =
  Some (stem, S (String.length stem)).
Proof.
  intros Hne Hall. unfold Re.run_then.
  rewrite (span_all Re.not_angle stem Re.lt_sign rest Hall eq_refl).
  destruct stem as [|c g]; [contradiction|]. now rewrite Ascii.eqb_refl.
Qed.

(** X5. On the two documented shapes of an analysis, [stem<tag>...] and
    [tag>stem<tag>...], [get_stem] returns the stem. *)
Theorem get_stem_conventions (stem rest : string) :
  stem <> EmptyString -> all_chars Re.not_angle stem = true ->
  get_stem (stem ++ String Re.lt_sign rest) = Ok stem /\
  forall t, all_chars Re.not_angle t = true ->
            get_stem (t ++ String Re.gt_sign (stem ++ String Re.lt_sign rest))
            = Ok stem.
Proof.
  intros Hne Hall. pose proof (run_then_stem stem rest Hne Hall) as R.
  unfold get_stem, Re.findall. split.
  - destruct stem as [|c g] eqn:S; [contradiction|]. simpl append.
    cbn [Re.findall_from]. unfold Re.stem_re.
    simpl in Hall. apply andb_true_iff in Hall as [Hc _].
    rewrite (not_angle_gt c Hc). simpl append in R. rewrite R. reflexivity.
  - intros t Ht. induction t as [|c t IH].
    + simpl append. cbn [Re.findall_from]. unfold Re.stem_re.
      rewrite Ascii.eqb_refl, R. reflexivity.
    + simpl in Ht. apply andb_true_iff in Ht as [Hc Ht].
      simpl append. cbn [Re.findall_from]. unfold Re.stem_re.
      rewrite (not_angle_gt c Hc). unfold Re.run_then.
      change (String c (t ++ String Re.gt_sign (stem ++ String Re.lt_sign rest)))
        with (String c t ++ String Re.gt_sign (stem ++ String Re.lt_sign rest)).
      rewrite (span_all Re.not_angle (String c t) Re.gt_sign _
                 ltac:(simpl; now rewrite Hc, Ht) eq_refl).
      change (Ascii.eqb Re.gt_sign Re.lt_sign) with false. cbv beta iota.
      now apply IH.
Qed.

Lemma get_stem_conventions_witness :
  get_stem "car<n><pl>" = Ok "car" /\ get_stem "pl>car<n>" = Ok "car".
Proof.
  destruct (get_stem_conventions "car" "n>" ltac:(discriminate) eq_refl) as [_ B].
  split.
  - exact (proj1 (get_stem_conventions "car" "n><pl>" ltac:(discriminate) eq_refl)).
  - exact (B "pl" eq_refl).
Defined.

(** ** The accuracy predicates *)

Lemma mem_In (x : string) (l : list string) : mem x l = true <-> In x l.
Proof. apply existsb_eqb_In. Qed.

Lemma set_eqb_spec (l1 l2 : list string) :
  set_eqb l1 l2 = true <-> forall x, In x l1 <-> In x l2.
Proof.
  unfold set_eqb. rewrite andb_true_iff, !forallb_forall. split.
  - intros [A B] x. split; intros H; apply mem_In; auto.
  - intros H. split; intros x Hx; apply mem_In; now apply H.
Qed.

Lemma set_eqb_sym (l1 l2 : list string) : set_eqb l1 l2 = set_eqb l2 l1.
Proof. unfold set_eqb. apply andb_comm. Qed.

Lemma match_stem_sym (a b : string) : match_stem a b = match_stem b a.
Proof.
  unfold match_stem, bindR.
  destruct (get_stem a) as [sa|ea] eqn:A; destruct (get_stem b) as [sb|eb] eqn:B.
  - now rewrite String.eqb_sym.
  - reflexivity.
  - reflexivity.
  - now rewrite (get_stem_error _ _ A), (get_stem_error _ _ B).
Qed.

Lemma match_pos_sym (a b : string) : match_pos a b = match_pos b a.
Proof.
  unfold match_pos, bindR.
  destruct (first (Re.findall Re.pos_re a)) as [sa|ea] eqn:A;
    destruct (first (Re.findall Re.pos_re b)) as [sb|eb] eqn:B.
  - now rewrite String.eqb_sym.
  - reflexivity.
  - reflexivity.
  - now rewrite (first_error _ _ A), (first_error _ _ B).
Qed.

(** X6. Every predicate of the registry is symmetric: exchanging the
    reference and the candidate gives the same verdict, or the same
    exception. *)
Theorem accuracy_funcs_symmetric (k : string) (f : AccFunc) (a b : string) :
  In (k, f) accuracy_funcs -> f a b = f b a.
Proof.
  simpl. intros [H | [H | [H | [H | [H | []]]]]]; injection H as _ <-.
  - unfold match_exact. now rewrite String.eqb_sym.
  - apply match_stem_sym.
  - apply match_pos_sym.
  - unfold match_stem_and_pos. now rewrite match_stem_sym, match_pos_sym.
  - unfold match_unordered. now rewrite match_stem_sym, set_eqb_sym.
Qed.

Lemma accuracy_funcs_symmetric_witness :
  match_unordered "car<n><pl>" "car<pl><n>" = match_unordered "car<pl><n>" "car<n><pl>".
Proof.
  apply (accuracy_funcs_symmetric "unordered_tags_match"). simpl. tauto.
Defined.

Lemma match_stem_refl (t : string) (b : bool) : match_stem t t = Ok b -> b = true.
Proof.
  unfold match_stem, bindR. destruct (get_stem t); [|discriminate].
  intros [= <-]. apply String.eqb_refl.
Qed.

Lemma match_pos_refl (t : string) (b : bool) : match_pos t t = Ok b -> b = true.
Proof.
  unfold match_pos, bindR. destruct (first (Re.findall Re.pos_re t)); [|discriminate].
  intros [= <-]. apply String.eqb_refl.
Qed.

Lemma set_eqb_refl (l : list string) : set_eqb l l = true.
Proof. apply set_eqb_spec. tauto. Qed.

Lemma accuracy_funcs_refl (k : string) (f : AccFunc) (t : string) (b : bool) :
  In (k, f) accuracy_funcs -> f t t = Ok b -> b = true.
Proof.
  simpl. intros [H | [H | [H | [H | [H | []]]]]]; injection H as _ <-.
  - unfold match_exact. intros [= <-]. apply String.eqb_refl.
  - apply match_stem_refl.
  - apply match_pos_refl.
  - unfold match_stem_and_pos, bindR.
    destruct (match_stem t t) as [[|]|] eqn:S; try discriminate.
    + apply match_pos_refl.
    + now apply match_stem_refl in S.
  - unfold match_unordered, bindR.
    destruct (match_stem t t) as [[|]|] eqn:S; try discriminate.
    + intros [= <-]. apply set_eqb_refl.
    + now apply match_stem_refl in S.
Qed.

(** X7. [match_exact] never raises and holds exactly for equal strings;
    on equal strings every predicate of the registry holds, unless it
    raises [IndexError]. *)
Theorem exact_match_implies_all :
  (forall a b, exists v, match_exact a b = Ok v /\ (v = true <-> a = b)) /\
  (forall k f a b,
     In (k, f) accuracy_funcs -> match_exact a b = Ok true ->
     f a b = Ok true \/ f a b = Raise IndexError).
Proof.
  split.
  - intros a b. exists (String.eqb a b). split; [reflexivity | apply String.eqb_eq].
  - intros k f a b Hin [= E]. apply String.eqb_eq in E. subst b.
    destruct (f a a) as [v|e] eqn:F.
    + left. now rewrite (accuracy_funcs_refl k f a v Hin F).
    + right. now rewrite (accuracy_funcs_errors k f a a e Hin F).
Qed.

Lemma exact_match_implies_all_witness :
  match_pos "car<n><pl>" "car<n><pl>" = Ok true \/
  match_pos "car<n><pl>" "car<n><pl>" = Raise IndexError.
Proof.
  apply (proj2 exact_match_implies_all "pos_match"); [simpl; tauto | reflexivity].
Defined.

Lemma composite_predicates_parts (a b : string) :
  (match_unordered a b = Ok true -> match_stem a b = Ok true) /\
  (match_stem_and_pos a b = Ok true ->
   match_stem a b = Ok true /\ match_pos a b = Ok true).
Proof.
  split.
  - unfold match_unordered, bindR. destruct (match_stem a b) as [[|]|e];
      [reflexivity | discriminate | discriminate].
  - unfold match_stem_and_pos, bindR. destruct (match_stem a b) as [[|]|e];
      [now split | discriminate | discriminate].
Qed.



(** ** Alias normalization, continued *)

Lemma replace_aliases_length (tagged : list string) :
  List.length (replace_aliases tagged) = List.length tagged.
Proof. unfold replace_aliases. apply length_map. Qed.

Lemma apply_aliases_absent (t : string) :
  Str.contains "<lat>" t = false -> Str.contains "<o>" t = false ->
  apply_aliases tag_aliases t = t.
Proof.
  intros Hlat Ho. rewrite apply_tag_aliases. unfold Str.replace.
  rewrite (replace_from_absent "<"%char "lat>" "dat>" t Hlat).
  apply (replace_from_absent "<"%char "o>" "obl>" t Ho).
Qed.

(** X9. After [replace_aliases] no reference contains a deprecated
    spelling ([<lat>] or [<o>]); the list keeps its length, and references
    without a deprecated spelling are left as they are. *)
Theorem replace_aliases_normal_form (tagged : list string) :
  List.length (replace_aliases tagged) = List.length tagged /\
  (forall t, In t (replace_aliases tagged) ->
             Str.contains "<lat>" t = false /\ Str.contains "<o>" t = false) /\
  (Forall (fun t => Str.contains "<lat>" t = false /\ Str.contains "<o>" t = false)
          tagged ->
   replace_aliases tagged = tagged).
Proof.
  split; [apply replace_aliases_length|]. split.
  - intros t H. unfold replace_aliases in H.
    apply in_map_iff in H as (t0 & <- & _). apply aliases_absent_after.
  - intros H. unfold replace_aliases. induction H as [|t l [H1 H2] Hl IH]; cbn [map].
    + reflexivity.
    + now rewrite (apply_aliases_absent t H1 H2), IH.
Qed.

Lemma replace_aliases_normal_form_witness :
  replace_aliases ["car<n><dat>"; "cat<obl>"] = ["car<n><dat>"; "cat<obl>"].
Proof.
  apply (proj2 (proj2 (replace_aliases_normal_form ["car<n><dat>"; "cat<obl>"]))).
  repeat constructor.
Defined.

Section ReplaceConcat.

Variable h : ascii.
Variables old' new : string.
Hypothesis old_avoids : avoids h old' = true.

Let old := String h old'.

Lemma prefix_before_head (q a b : string) :
  avoids h q = true ->
  prefix q (a ++ String h b) = prefix q a.
Proof.
  revert a. induction q as [|x q IH]; intros a Hq.
  - now rewrite !prefix_nil.
  - simpl in Hq. apply andb_true_iff in Hq as [Hx Hq].
    apply negb_true_iff in Hx. destruct a as [|y a].
    + simpl append. rewrite prefix_cons, Hx. reflexivity.
    + simpl append. rewrite !prefix_cons. now rewrite IH.
Qed.

Lemma prefix_length (q s : string) :
  prefix q s = true -> String.length q <= String.length s.
Proof.
  intros H. apply prefix_spec in H as [r ->]. rewrite length_append. lia.
Qed.

Lemma replace_from_skip_exact (a b : string) :
  Str.replace_from old new (String.length a) (a ++ b) = Str.replace_from old new 0 b.
Proof. induction a as [|c a IH]; [reflexivity | exact IH]. Qed.

Lemma replace_from_0 (c : ascii) (s : string) :
  Str.replace_from old new 0 (String c s) =
  if prefix old (String c s)
  then new ++ Str.replace_from old new (String.length old - 1) s
  else String c (Str.replace_from old new 0 s).
Proof. reflexivity. Qed.

Lemma replace_from_S (k : nat) (c : ascii) (s : string) :
  Str.replace_from old new (S k) (String c s) = Str.replace_from old new k s.
Proof. reflexivity. Qed.

Lemma replace_from_append (a b : string) :
  forall k, k <= String.length a ->
    Str.replace_from old new k (a ++ String h b) =
    Str.replace_from old new k a ++ Str.replace_from old new 0 (String h b).
Proof.
  induction a as [|c a IH]; intros k Hk.
  - simpl in Hk. assert (k = 0) by lia. subst k. reflexivity.
  - change (String c a ++ String h b) with (String c (a ++ String h b)).
    destruct k as [|k].
    + rewrite (replace_from_0 c (a ++ String h b)), (replace_from_0 c a).
      assert (P : prefix old (String c (a ++ String h b)) = prefix old (String c a)).
      { unfold old. rewrite !prefix_cons.
        now rewrite (prefix_before_head old' a b old_avoids). }
      rewrite P. destruct (prefix old (String c a)) eqn:E.
      * apply prefix_length in E. rewrite append_assoc. f_equal.
        apply IH. unfold old in *. simpl in *. lia.
      * change (String c (Str.replace_from old new 0 a) ++
                Str.replace_from old new 0 (String h b))
          with (String c (Str.replace_from old new 0 a ++
                          Str.replace_from old new 0 (String h b))).
        f_equal. apply IH. lia.
    + rewrite !replace_from_S. apply IH. simpl in Hk. lia.
Qed.

Lemma replace_from_old (b : string) :
  Str.replace_from old new 0 (old ++ b) = new ++ Str.replace_from old new 0 b.
Proof.
  unfold old at 2. simpl append. rewrite replace_from_0.
  assert (P : prefix old (String h (old' ++ b)) = true).
  { apply prefix_spec. now exists b. }
  rewrite P. f_equal.
  replace (String.length old - 1) with (String.length old')
    by (unfold old; simpl; lia).
  apply replace_from_skip_exact.
Qed.

(** Around an occurrence of the old text, the replacement works on the
    two sides separately. *)
Lemma replace_from_around (a b : string) :
  Str.replace_from old new 0 (a ++ old ++ b) =
  Str.replace_from old new 0 a ++ new ++ Str.replace_from old new 0 b.
Proof.
  unfold old at 2. simpl append.
  rewrite (replace_from_append a (old' ++ b) 0 (Nat.le_0_l _)).
  f_equal. apply replace_from_old.
Qed.

End ReplaceConcat.

(** X10. Every occurrence of a deprecated spelling is rewritten, the text
    before and after it being normalized on its own: [a<lat>b] becomes
    [a'<dat>b'] and [a<o>b] becomes [a'<obl>b'], where [a'] and [b'] are
    the normalized [a] and [b]. *)
Theorem apply_aliases_occurrence (a b : string) :
  apply_aliases tag_aliases (a ++ "<lat>" ++ b) =
  apply_aliases tag_aliases a ++ "<dat>" ++ apply_aliases tag_aliases b /\
  apply_aliases tag_aliases (a ++ "<o>" ++ b) =
  apply_aliases tag_aliases a ++ "<obl>" ++ apply_aliases tag_aliases b.
Proof.
  rewrite !apply_tag_aliases. unfold Str.replace. split.
  - rewrite (replace_from_around "<"%char "lat>" "<dat>" eq_refl a b).
    change ("<dat>" ++ Str.replace_from "<lat>" "<dat>" 0 b)
      with (String "<" ("dat>" ++ Str.replace_from "<lat>" "<dat>" 0 b)).
    rewrite (replace_from_append "<"%char "o>" "<obl>" eq_refl _ _ 0 (Nat.le_0_l _)).
    reflexivity.
  - change (a ++ "<o>" ++ b) with (a ++ String "<" ("o>" ++ b)).
    rewrite (replace_from_append "<"%char "lat>" "<dat>" eq_refl a _ 0 (Nat.le_0_l _)).
    change (Str.replace_from "<lat>" "<dat>" 0 (String "<" ("o>" ++ b)))
      with ("<o>" ++ Str.replace_from "<lat>" "<dat>" 0 b).
    apply (replace_from_around "<"%char "o>" "<obl>" eq_refl).
Qed.

(** ** What [compare] returns *)

Lemma yields_ret {A : Type} (a : A) : yields (ret a) (Ok a).
Proof. intros w. reflexivity. Qed.

Lemma yields_lift {A : Type} (r : result A) : yields (lift r) r.
Proof. intros w. reflexivity. Qed.

Lemma yields_log (d : option string) (f wf ref real res : string) :
  yields (log_details d f wf ref real res) (Ok tt).
Proof. intros w. unfold log_details. now destruct d. Qed.

Lemma yields_bind_Ok {A B : Type} (c : M A) (k : A -> M B) (a : A) (r : result B) :
  yields c (Ok a) -> yields (k a) r -> yields (bind c k) r.
Proof.
  intros Hc Hk w. unfold bind. specialize (Hc w).
  destruct (c w) as [w1 r1]. simpl in Hc. subst r1. apply Hk.
Qed.

Lemma yields_bind_Raise {A B : Type} (c : M A) (k : A -> M B) (e : exn) :
  yields c (Raise e) -> yields (bind c k) (Raise e).
Proof.
  intros Hc w. unfold bind. specialize (Hc w).
  destruct (c w) as [w1 r1]. simpl in Hc. now subst r1.
Qed.

Lemma yields_eq {A : Type} (c : M A) (r r' : result A) :
  yields c r -> r = r' -> yields c r'.
Proof. now intros H <-. Qed.

Lemma dict_get_NoDup {V : Type} (l : Dict.t V) (k : string) (v : V) :
  NoDup (Dict.keys l) -> In (k, v) l -> Dict.get k l = Ok v.
Proof.
  induction l as [|[k0 v0] l IH]; simpl; intros ND H; [destruct H|].
  inversion ND as [|? ? Hk Hl]; subst. destruct H as [[= -> ->] | H].
  - now rewrite String.eqb_refl.
  - destruct (String.eqb k k0) eqn:E; [|now apply IH].
    apply String.eqb_eq in E. subst k0. exfalso. apply Hk.
    apply (in_map fst) in H. exact H.
Qed.

Lemma keys_functional {V : Type} (l : Dict.t V) (kf : string * V) (k : string) (v : V) :
  NoDup (Dict.keys l) -> In kf l -> In (k, v) l -> fst kf = k -> kf = (k, v).
Proof.
  intros ND H1 H2 E. destruct kf as [k' v']. simpl in E. subst k'.
  apply (dict_get_NoDup l k v' ND) in H1. apply (dict_get_NoDup l k v ND) in H2.
  congruence.
Qed.

Lemma entries_keys {V W : Type} (l : Dict.t V) (g : string * V -> W) :
  Dict.keys (entries l g) = Dict.keys l.
Proof. unfold entries, Dict.keys. rewrite map_map. reflexivity. Qed.

Lemma entries_ext {V W : Type} (l : Dict.t V) (g g' : string * V -> W) :
  (forall kf, In kf l -> g kf = g' kf) -> entries l g = entries l g'.
Proof.
  intros H. unfold entries. apply map_ext_in. intros kf Hin. now rewrite H.
Qed.

Lemma entries_get {V W : Type} (l : Dict.t V) (g : string * V -> W)
  (k : string) (f : V) :
  NoDup (Dict.keys l) -> In (k, f) l -> Dict.get k (entries l g) = Ok (g (k, f)).
Proof.
  intros ND H. apply dict_get_NoDup; [now rewrite entries_keys|].
  unfold entries. apply in_map_iff. now exists (k, f).
Qed.

Lemma entries_set {V W : Type} (l : Dict.t V) (g : string * V -> W)
  (k : string) (v : W) :
  NoDup (Dict.keys l) -> In k (Dict.keys l) ->
  Dict.set k v (entries l g) =
  entries l (fun kf => if String.eqb (fst kf) k then v else g kf).
Proof.
  induction l as [|[k0 f0] l IH]; intros ND H; [destruct H|].
  inversion ND as [|? ? Hk Hl]; subst.
  unfold entries. cbn [map fst Dict.set]. rewrite (String.eqb_sym k0 k).
  destruct (String.eqb k k0) eqn:E.
  - apply String.eqb_eq in E. subst k0. f_equal.
    apply map_ext_in. intros kf Hin.
    destruct (String.eqb (fst kf) k) eqn:E'; [|reflexivity].
    apply String.eqb_eq in E'. exfalso. apply Hk. rewrite <- E'.
    now apply in_map.
  - f_equal. apply IH; [exact Hl|]. destruct H as [H | H]; [|exact H].
    simpl in H. subst k0. rewrite String.eqb_refl in E. discriminate.
Qed.

Lemma entries_update {V : Type} (l : Dict.t V) (g : string * V -> Metric.t)
  (k : string) (f : V) (u : Metric.t -> Metric.t) :
  NoDup (Dict.keys l) -> In (k, f) l ->
  Dict.update k u (entries l g) =
  Ok (entries l (fun kf => if String.eqb (fst kf) k then u (g kf) else g kf)).
Proof.
  intros ND H. unfold Dict.update, bindR. rewrite (entries_get l g k f ND H).
  f_equal. rewrite entries_set; [|exact ND | apply (in_map fst) in H; exact H].
  apply entries_ext. intros kf Hin.
  destruct (String.eqb (fst kf) k) eqn:E; [|reflexivity].
  apply String.eqb_eq in E. now rewrite (keys_functional l kf k f ND Hin H E).
Qed.

Lemma dict_set_absent {V : Type} (k : string) (v : V) (d : Dict.t V) :
  ~ In k (Dict.keys d) -> Dict.set k v d = (d ++ [(k, v)])%list.
Proof.
  induction d as [|[k0 v0] d IH]; simpl; intros H; [reflexivity|].
  destruct (String.eqb k k0) eqn:E.
  - apply String.eqb_eq in E. subst k0. exfalso. apply H. now left.
  - f_equal. apply IH. intros G. apply H. now right.
Qed.

Lemma initial_fold_entries {V W : Type} (v : W) (l : Dict.t V) :
  forall d0 : Dict.t W,
    NoDup (Dict.keys d0 ++ Dict.keys l) ->
    fold_left (fun d k => Dict.set k v d) (Dict.keys l) d0 =
    (d0 ++ entries l (fun _ => v))%list.
Proof.
  induction l as [|[k f] l IH]; intros d0 ND; simpl.
  - now rewrite app_nil_r.
  - simpl in ND. rewrite dict_set_absent.
    + rewrite IH.
      * now rewrite <- app_assoc.
      * unfold Dict.keys at 1. rewrite map_app. simpl.
        rewrite <- app_assoc. exact ND.
    + apply NoDup_remove_2 in ND. intros G. apply ND.
      apply in_or_app. now left.
Qed.

Lemma initial_results_entries (acc_funcs : AccFuncsMapping) :
  NoDup (Dict.keys acc_funcs) ->
  initial_results acc_funcs = entries acc_funcs (fun _ => Metric.mk 0 0 None).
Proof.
  intros ND. unfold initial_results.
  now rewrite (initial_fold_entries (Metric.mk 0 0 None) acc_funcs []).
Qed.

Lemma suffix_entry {V : Type} (l pre rest : Dict.t V) (k : string) (f : V) :
  l = (pre ++ (k, f) :: rest)%list -> NoDup (Dict.keys l) ->
  In (k, f) l /\ ~ In k (Dict.keys rest).
Proof.
  intros -> ND. split; [apply in_or_app; right; now left|].
  unfold Dict.keys in ND. rewrite map_app in ND. simpl in ND.
  apply NoDup_remove_2 in ND. intros G. apply ND. apply in_or_app. now right.
Qed.

Lemma mem_cons (x k : string) (l : list string) :
  mem x (k :: l) = String.eqb x k || mem x l.
Proof. reflexivity. Qed.

Lemma mem_false (x : string) (l : list string) : ~ In x l -> mem x l = false.
Proof.
  intros H. destruct (mem x l) eqn:E; [|reflexivity].
  apply mem_In in E. contradiction.
Qed.

Section CompareRefines.

Variable acc_funcs : AccFuncsMapping.
Variable details_dir : option string.
Hypothesis keys_distinct : NoDup (Dict.keys acc_funcs).

Lemma try_variants_yields (k : string) (f : AccFunc) (ref : string)
  (pred : ParsedItem) (vars : list string) (is_correct : bool)
  (d : Dict.t Metric.t) :
  Dict.get k acc_funcs = Ok f ->
  yields (try_variants acc_funcs details_dir k ref pred vars is_correct d)
         (match first_match f ref vars with
          | Ok true => d' <-? Dict.update k incr_correct d ;; Ok (true, d')
          | Ok false => Ok (is_correct, d)
          | Raise e => Raise e
          end).
Proof.
  intros G. induction vars as [|v vars IH]; cbn [try_variants first_match].
  - apply yields_ret.
  - rewrite G, bind_lift_Ok. unfold bindR at 1.
    destruct (f ref v) as [[|]|e].
    + rewrite bind_lift_Ok. unfold bindR.
      destruct (Dict.update k incr_correct d) as [d'|e].
      * rewrite bind_lift_Ok. eapply yields_bind_Ok; [apply yields_log | apply yields_ret].
      * apply yields_bind_Raise, yields_lift.
    + rewrite bind_lift_Ok. exact IH.
    + apply yields_bind_Raise, yields_lift.
Qed.

Lemma bump_true (m : Metric.t) : incr_correct (incr_recognized m) = bump true m.
Proof. reflexivity. Qed.

Lemma bump_false (m : Metric.t) : incr_recognized m = bump false m.
Proof. unfold incr_recognized, bump. simpl. now rewrite Nat.add_0_r. Qed.

Lemma score_metrics_yields (ref : string) (pred : ParsedItem)
  (l : AccFuncsMapping) :
  forall pre g is_correct,
    acc_funcs = (pre ++ l)%list ->
    yields (score_metrics acc_funcs details_dir ref pred (Dict.keys l)
              is_correct (entries acc_funcs g))
           (t <-? check_metrics l ref pred ;;
            Ok (is_correct || existsb (fun kf => metric_hit (snd kf) ref pred) l,
                entries acc_funcs
                  (fun kf => if mem (fst kf) (Dict.keys l)
                             then bump (metric_hit (snd kf) ref pred) (g kf)
                             else g kf))).
Proof.
  induction l as [|[k f] l IH]; intros pre g ic Haf.
  - cbn. rewrite orb_false_r. apply yields_ret.
  - destruct (suffix_entry _ _ _ _ _ Haf keys_distinct) as [Hin Hk].
    pose proof (dict_get_NoDup acc_funcs k f keys_distinct Hin) as G.
    cbn [Dict.keys map fst score_metrics check_metrics snd existsb].
    fold (Dict.keys l).
    rewrite (entries_update acc_funcs g k f incr_recognized keys_distinct Hin).
    rewrite bind_lift_Ok.
    set (g1 := fun kf : string * AccFunc =>
                 if String.eqb (fst kf) k then incr_recognized (g kf) else g kf).
    pose proof (try_variants_yields k f ref pred (out_variants pred) ic
                  (entries acc_funcs g1) G) as T.
    assert (Haf' : acc_funcs = ((pre ++ [(k, f)]) ++ l)%list)
      by (rewrite <- app_assoc; exact Haf).
    unfold metric_hit at 1.
    destruct (first_match f ref (out_variants pred)) as [[|]|e] eqn:FM.
    + rewrite (entries_update acc_funcs g1 k f incr_correct keys_distinct Hin) in T.
      cbn [bindR] in T |- *.
      eapply yields_bind_Ok; [exact T|]. cbn [fst snd negb].
      eapply yields_bind_Ok; [apply yields_ret|].
      specialize (IH _ (fun kf => if String.eqb (fst kf) k
                                  then incr_correct (g1 kf) else g1 kf) true Haf').
      destruct (check_metrics l ref pred) as [t|e]; cbn [bindR] in IH |- *;
        [|exact IH].
      apply (yields_eq _ _ _ IH). rewrite orb_true_r. cbn [orb].
      do 2 f_equal. apply entries_ext.
      intros kf Hkf. cbv beta. rewrite mem_cons. unfold g1.
      destruct (String.eqb (fst kf) k) eqn:E.
      * apply String.eqb_eq in E.
        rewrite (keys_functional acc_funcs kf k f keys_distinct Hkf Hin E).
        cbn [fst snd orb]. rewrite (mem_false k _ Hk).
        unfold metric_hit. rewrite FM. now rewrite bump_true.
      * reflexivity.
    + cbn [bindR] in T |- *.
      eapply yields_bind_Ok; [exact T|]. cbn [fst snd].
      eapply yields_bind_Ok with (a := tt).
      { destruct (negb ic); [apply yields_log | apply yields_ret]. }
      specialize (IH _ g1 ic Haf').
      destruct (check_metrics l ref pred) as [t|e]; cbn [bindR] in IH |- *;
        [|exact IH].
      apply (yields_eq _ _ _ IH). cbn [orb].
      do 2 f_equal. apply entries_ext.
      intros kf Hkf. cbv beta. rewrite mem_cons. unfold g1.
      destruct (String.eqb (fst kf) k) eqn:E.
      * apply String.eqb_eq in E.
        rewrite (keys_functional acc_funcs kf k f keys_distinct Hkf Hin E).
        cbn [fst snd orb]. rewrite (mem_false k _ Hk).
        unfold metric_hit. rewrite FM. now rewrite bump_false.
      * reflexivity.
    + cbn [bindR] in T |- *. apply yields_bind_Raise. exact T.
Qed.

Lemma count_recognized_cons (pred : ParsedItem) (items : list ParsedItem) :
  count_recognized (pred :: items) = b2n (recognizedb pred) + count_recognized items.
Proof. unfold count_recognized. simpl. now destruct (recognizedb pred). Qed.

Lemma hits_cons (f : AccFunc) (ref : string) (pred : ParsedItem)
  (pairs : list (string * ParsedItem)) :
  hits f ((ref, pred) :: pairs) =
  b2n (recognizedb pred && metric_hit f ref pred) + hits f pairs.
Proof.
  unfold hits. simpl. now destruct (recognizedb pred && metric_hit f ref pred).
Qed.

Lemma score_items_yields (pairs : list (string * ParsedItem)) :
  forall n g,
    yields (score_items acc_funcs details_dir pairs n (entries acc_funcs g))
           (t <-? check_items acc_funcs pairs ;;
            Ok (n + count_recognized (map snd pairs),
                entries acc_funcs
                  (fun kf =>
                     Metric.mk
                       (Metric.correct (g kf) + hits (snd kf) pairs)
                       (Metric.recognized (g kf) + count_recognized (map snd pairs))
                       (Metric.acc (g kf))))).
Proof.
  induction pairs as [|[ref pred] pairs IH]; intros n g.
  - cbn [score_items check_items bindR map]. apply (yields_eq _ _ _ (yields_ret _)).
    do 2 f_equal; [unfold count_recognized; simpl; lia|].
    apply entries_ext. intros kf _. unfold count_recognized, hits. simpl.
    rewrite !Nat.add_0_r. now destruct (g kf).
  - cbn [score_items check_items map snd].
    rewrite count_recognized_cons. unfold recognizedb at 1 2.
    destruct (is_unknown pred) as [[|]|e] eqn:U; cbn [bindR].
    + rewrite bind_lift_Ok.
      eapply yields_bind_Ok; [apply yields_log|].
      apply (yields_eq _ _ _ (IH n g)).
      destruct (check_items acc_funcs pairs); cbn [bindR]; [|reflexivity].
      do 2 f_equal. apply entries_ext. intros kf _.
      rewrite hits_cons. unfold recognizedb. rewrite U. reflexivity.
    + rewrite bind_lift_Ok.
      pose proof (score_metrics_yields ref pred acc_funcs [] g false eq_refl) as S.
      destruct (check_metrics acc_funcs ref pred) as [t|e]; cbn [bindR] in S |- *.
      * eapply yields_bind_Ok; [exact S|]. cbn [snd].
        apply (yields_eq _ _ _ (IH (n + 1) _)).
        destruct (check_items acc_funcs pairs); cbn [bindR]; [|reflexivity].
        do 2 f_equal; [simpl; lia|].
        apply entries_ext. intros kf Hkf. cbv beta.
        assert (Hm : mem (fst kf) (Dict.keys acc_funcs) = true).
        { apply mem_In. now apply in_map. }
        rewrite Hm, hits_cons. unfold recognizedb. rewrite U.
        unfold bump. cbn [Metric.correct Metric.recognized Metric.acc andb b2n].
        f_equal; lia.
      * apply yields_bind_Raise. exact S.
    + apply yields_bind_Raise, yields_lift.
Qed.

Lemma ratio_guarded (c n : nat) :
  (if n =? 0 then Ok 0%Q else truediv c n) = Ok (ratio c n).
Proof. now destruct n. Qed.

Lemma fractions_entries (l : AccFuncsMapping) :
  forall pre g,
    acc_funcs = (pre ++ l)%list ->
    fractions (Dict.keys l) (entries acc_funcs g) =
    Ok (entries acc_funcs
          (fun kf => if mem (fst kf) (Dict.keys l)
                     then set_acc (ratio (Metric.correct (g kf))
                                         (Metric.recognized (g kf))) (g kf)
                     else g kf)).
Proof.
  induction l as [|[k f] l IH]; intros pre g Haf; [reflexivity|].
  destruct (suffix_entry _ _ _ _ _ Haf keys_distinct) as [Hin Hk].
  cbn [Dict.keys map fst fractions]. fold (Dict.keys l).
  rewrite (entries_get acc_funcs g k f keys_distinct Hin). cbn [bindR].
  rewrite ratio_guarded. cbn [bindR].
  rewrite (entries_update acc_funcs g k f _ keys_distinct Hin). cbn [bindR].
  rewrite (IH (pre ++ [(k, f)])%list) by (rewrite <- app_assoc; exact Haf).
  f_equal. apply entries_ext. intros kf Hkf. cbv beta. rewrite mem_cons.
  destruct (String.eqb (fst kf) k) eqn:E; [|reflexivity].
  apply String.eqb_eq in E.
  rewrite (keys_functional acc_funcs kf k f keys_distinct Hkf Hin E).
  cbn [fst orb]. now rewrite (mem_false k _ Hk).
Qed.

Lemma compare_yields (reference : list string) (predicted : list ParsedItem) :
  yields (compare acc_funcs details_dir reference predicted)
         (compare_spec acc_funcs reference predicted).
Proof.
  unfold compare, compare_spec.
  destruct (negb (List.length reference =? List.length predicted)) eqn:L.
  - intros w. reflexivity.
  - apply negb_false_iff, Nat.eqb_eq in L.
    rewrite (initial_results_entries acc_funcs keys_distinct).
    pose proof (score_items_yields (combine reference predicted) 0
                  (fun _ => Metric.mk 0 0 None)) as S.
    destruct (check_items acc_funcs (combine reference predicted)) as [t|e];
      cbn [bindR] in S |- *.
    + eapply yields_bind_Ok; [exact S|]. cbn [fst snd].
      rewrite (fractions_entries acc_funcs [] _ eq_refl), bind_lift_Ok.
      apply (yields_eq _ _ _ (yields_ret _)). f_equal.
      unfold expected_result. rewrite (combine_snd _ _ L). f_equal.
      apply map_ext_in. intros kf Hkf. cbv beta.
      assert (Hm : mem (fst kf) (Dict.keys acc_funcs) = true).
      { apply mem_In. now apply in_map. }
      rewrite Hm. reflexivity.
    + apply yields_bind_Raise. exact S.
Qed.

End CompareRefines.



(** ** The metrics of the registry, compared *)

Lemma first_match_mono (f g : AccFunc) (ref : string) (vars : list string) (b : bool) :
  (forall v bg, f ref v = Ok true -> g ref v = Ok bg -> bg = true) ->
  first_match f ref vars = Ok true -> first_match g ref vars = Ok b -> b = true.
Proof.
  intros Hfg. induction vars as [|v vars IH]; cbn [first_match]; [discriminate|].
  unfold bindR. destruct (f ref v) as [[|]|ef] eqn:F; [| |discriminate].
  - intros _. destruct (g ref v) as [[|]|eg] eqn:G; [| |discriminate].
    + now intros [= <-].
    + discriminate (Hfg v false F G).
  - intros Hf. destruct (g ref v) as [[|]|eg]; [| |discriminate].
    + now intros [= <-].
    + now apply IH.
Qed.

Lemma check_metrics_In (l : AccFuncsMapping) (ref : string) (pred : ParsedItem)
  (t : unit) (kf : string * AccFunc) :
  check_metrics l ref pred = Ok t -> In kf l ->
  exists b, first_match (snd kf) ref (out_variants pred) = Ok b.
Proof.
  induction l as [|x l IH]; cbn [check_metrics]; intros H Hin; [destruct Hin|].
  unfold bindR in H.
  destruct (first_match (snd x) ref (out_variants pred)) as [b|e] eqn:F; [|discriminate].
  destruct Hin as [-> | Hin]; [now exists b | now apply IH].
Qed.

Lemma hits_le (acc_funcs : AccFuncsMapping) (kf kg : string * AccFunc)
  (pairs : list (string * ParsedItem)) (t : unit) :
  In kg acc_funcs ->
  (forall ref v bg, snd kf ref v = Ok true -> snd kg ref v = Ok bg -> bg = true) ->
  check_items acc_funcs pairs = Ok t ->
  hits (snd kf) pairs <= hits (snd kg) pairs.
Proof.
  intros Hg Hfg. induction pairs as [|[ref pred] pairs IH]; intros H; [apply Nat.le_refl|].
  rewrite !hits_cons. cbn [check_items] in H. unfold bindR in H.
  unfold recognizedb. destruct (is_unknown pred) as [[|]|e]; [| |discriminate].
  - simpl. now apply IH.
  - destruct (check_metrics acc_funcs ref pred) as [t0|e] eqn:C; [|discriminate].
    specialize (IH H). cbn [andb].
    destruct (metric_hit (snd kf) ref pred) eqn:Mf; [|simpl; lia].
    destruct (check_metrics_In _ _ _ _ kg C Hg) as [b Hb].
    assert (b = true).
    { unfold metric_hit in Mf.
      destruct (first_match (snd kf) ref (out_variants pred)) as [[|]|] eqn:Ff;
        try discriminate.
      exact (first_match_mono _ _ _ _ _ (Hfg ref) Ff Hb). }
    subst b. unfold metric_hit. rewrite Hb. simpl. lia.
Qed.

Lemma accuracy_funcs_keys_distinct : NoDup (Dict.keys accuracy_funcs).
Proof. repeat constructor; simpl; intuition discriminate. Qed.

(** X12. In every result of [compare] with the registry of the program,
    the [correct] counts are ordered: exact match is counted at most as
    often as the unordered-tags match and as the stem-and-pos match; these
    two at most as often as the stem match, and the stem-and-pos match at
    most as often as the pos match. *)
Theorem compare_metric_order (details_dir : option string)
  (reference : list string) (predicted : list ParsedItem)
  (w w' : list Detail) (r : RunResult) :
  compare accuracy_funcs details_dir reference predicted w = (w', Ok r) ->
  correct_of "exact_match" r <= correct_of "unordered_tags_match" r /\
  correct_of "unordered_tags_match" r <= correct_of "stem_match" r /\
  correct_of "exact_match" r <= correct_of "stem_and_pos_match" r /\
  correct_of "stem_and_pos_match" r <= correct_of "stem_match" r /\
  correct_of "stem_and_pos_match" r <= correct_of "pos_match" r.
Proof.
  intros H.
  pose proof (compare_yields accuracy_funcs details_dir
                accuracy_funcs_keys_distinct reference predicted w) as Y.
  rewrite H in Y. cbn [snd] in Y. unfold compare_spec in Y.
  destruct (negb (List.length reference =? List.length predicted)); [discriminate|].
  destruct (check_items accuracy_funcs (combine reference predicted))
    as [t|e] eqn:C; [|discriminate].
  injection Y as ->.
  set (pairs := combine reference predicted) in *.
  change (correct_of "exact_match" (expected_result accuracy_funcs reference predicted))
    with (hits match_exact pairs).
  change (correct_of "unordered_tags_match"
            (expected_result accuracy_funcs reference predicted))
    with (hits match_unordered pairs).
  change (correct_of "stem_match" (expected_result accuracy_funcs reference predicted))
    with (hits match_stem pairs).
  change (correct_of "stem_and_pos_match"
            (expected_result accuracy_funcs reference predicted))
    with (hits match_stem_and_pos pairs).
  change (correct_of "pos_match" (expected_result accuracy_funcs reference predicted))
    with (hits match_pos pairs).
  assert (Ex : forall k g, In (k, g) accuracy_funcs ->
                 forall ref v bg, match_exact ref v = Ok true -> g ref v = Ok bg ->
                                  bg = true).
  { intros k g Hin ref v bg [= E] Hg. apply String.eqb_eq in E. subst v.
    exact (accuracy_funcs_refl k g ref bg Hin Hg). }
  repeat split.
  - apply (hits_le accuracy_funcs ("exact_match", match_exact)
             ("unordered_tags_match", match_unordered) pairs t);
      [simpl; tauto | apply (Ex "unordered_tags_match"); simpl; tauto | exact C].
  - apply (hits_le accuracy_funcs ("unordered_tags_match", match_unordered)
             ("stem_match", match_stem) pairs t); [simpl; tauto | | exact C].
    cbn [snd]. intros ref v bg Hu Hs.
    apply (proj1 (composite_predicates_parts ref v)) in Hu. congruence.
  - apply (hits_le accuracy_funcs ("exact_match", match_exact)
             ("stem_and_pos_match", match_stem_and_pos) pairs t);
      [simpl; tauto | apply (Ex "stem_and_pos_match"); simpl; tauto | exact C].
  - apply (hits_le accuracy_funcs ("stem_and_pos_match", match_stem_and_pos)
             ("stem_match", match_stem) pairs t); [simpl; tauto | | exact C].
    cbn [snd]. intros ref v bg Hu Hs.
    apply (proj2 (composite_predicates_parts ref v)) in Hu as [Hu _]. congruence.
  - apply (hits_le accuracy_funcs ("stem_and_pos_match", match_stem_and_pos)
             ("pos_match", match_pos) pairs t); [simpl; tauto | | exact C].
    cbn [snd]. intros ref v bg Hu Hs.
    apply (proj2 (composite_predicates_parts ref v)) in Hu as [_ Hu]. congruence.
Qed.

Lemma compare_metric_order_witness :
  exists w' r,
    compare accuracy_funcs None ["car<n><pl>"; "cat<n><sg>"]
      [mkParsedItem "cars" ["car<pl><n>"]; mkParsedItem "cat" ["cat<n><sg>"]] []
    = (w', Ok r) /\
    correct_of "exact_match" r <= correct_of "unordered_tags_match" r.
Proof.
  eexists. eexists. split; [vm_compute; reflexivity|].
  refine (proj1 (compare_metric_order None ["car<n><pl>"; "cat<n><sg>"]
            [mkParsedItem "cars" ["car<pl><n>"]; mkParsedItem "cat" ["cat<n><sg>"]]
            [] _ _ _)).
  vm_compute. reflexivity.
Defined.

(** ** What [compare] logs *)

Lemma appends_ret {A : Type} (a : A) (P : Detail -> Prop) : appends (ret a) P.
Proof. intros w. exists []. split; [now rewrite app_nil_r | constructor]. Qed.

Lemma appends_lift {A : Type} (r : result A) (P : Detail -> Prop) :
  appends (lift r) P.
Proof. intros w. exists []. split; [now rewrite app_nil_r | constructor]. Qed.

Lemma appends_bind {A B : Type} (c : M A) (k : A -> M B) (P : Detail -> Prop) :
  appends c P -> (forall a, appends (k a) P) -> appends (bind c k) P.
Proof.
  intros Hc Hk w. unfold bind. destruct (Hc w) as (r1 & E1 & F1).
  destruct (c w) as [w1 [a|e]]; simpl in E1; subst w1.
  - destruct (Hk a (w ++ r1)%list) as (r2 & E2 & F2).
    exists (r1 ++ r2)%list. split; [now rewrite E2, app_assoc|].
    apply Forall_app. now split.
  - now exists r1.
Qed.

Lemma appends_log (d : option string) (f wf ref real res : string)
  (P : Detail -> Prop) :
  (forall x, d = Some x -> P (mkDetail x (csv_name f) wf ref real res)) ->
  appends (log_details d f wf ref real res) P.
Proof.
  intros H w. unfold log_details. destruct d as [x|].
  - eexists. split; [reflexivity|]. constructor; [now apply H | constructor].
  - exists []. split; [now rewrite app_nil_r | constructor].
Qed.

Lemma appends_weaken {A : Type} (c : M A) (P Q : Detail -> Prop) :
  appends c P -> (forall row, P row -> Q row) -> appends c Q.
Proof.
  intros H HPQ w. destruct (H w) as (rows & E & F). exists rows.
  split; [exact E|]. eapply Forall_impl; [exact HPQ | exact F].
Qed.

Section CompareAppends.

Variable acc_funcs : AccFuncsMapping.
Variable details_dir : option string.

Lemma try_variants_appends (k ref : string) (pred : ParsedItem)
  (vars : list string) (is_correct : bool) (d : Dict.t Metric.t) :
  In k (Dict.keys acc_funcs) -> is_unknown pred = Ok false ->
  appends (try_variants acc_funcs details_dir k ref pred vars is_correct d)
          (row_about details_dir acc_funcs ref pred).
Proof.
  intros Hk U. induction vars as [|v vars IH]; cbn [try_variants].
  - apply appends_ret.
  - apply appends_bind; [apply appends_lift|]. intros f.
    apply appends_bind; [apply appends_lift|]. intros [|]; [|exact IH].
    apply appends_bind; [apply appends_lift|]. intros d'.
    apply appends_bind; [|intros; apply appends_ret].
    apply appends_log. intros x ->. repeat split. right.
    split; [now left|]. split; [exact U|]. now exists k.
Qed.

Lemma score_metrics_appends (ref : string) (pred : ParsedItem)
  (acc_types : list string) :
  forall is_correct d,
    incl acc_types (Dict.keys acc_funcs) -> is_unknown pred = Ok false ->
    appends (score_metrics acc_funcs details_dir ref pred acc_types is_correct d)
            (row_about details_dir acc_funcs ref pred).
Proof.
  induction acc_types as [|k l IH]; intros ic d Hl U; cbn [score_metrics].
  - apply appends_ret.
  - assert (Hk : In k (Dict.keys acc_funcs)) by (apply Hl; now left).
    apply appends_bind; [apply appends_lift|]. intros d1.
    apply appends_bind; [now apply try_variants_appends|]. intros st.
    apply appends_bind.
    + destruct (negb (fst st)); [|apply appends_ret].
      apply appends_log. intros x ->. repeat split. right.
      split; [now right|]. split; [exact U|]. now exists k.
    + intros _. apply IH; [|exact U]. intros x Hx. apply Hl. now right.
Qed.

Lemma score_items_appends (pairs : list (string * ParsedItem)) :
  forall n d,
    appends (score_items acc_funcs details_dir pairs n d)
            (fun row => exists ref pred,
                 In (ref, pred) pairs /\
                 row_about details_dir acc_funcs ref pred row).
Proof.
  induction pairs as [|[ref pred] pairs IH]; intros n d; cbn [score_items].
  - apply appends_ret.
  - assert (Tl : forall n' d',
               appends (score_items acc_funcs details_dir pairs n' d')
                 (fun row => exists ref0 pred0,
                      In (ref0, pred0) ((ref, pred) :: pairs) /\
                      row_about details_dir acc_funcs ref0 pred0 row)).
    { intros n' d'. eapply appends_weaken; [apply IH|].
      intros row (r0 & p0 & Hin & Hr). exists r0, p0. split; [now right | exact Hr]. }
    intros w. unfold bind at 1. unfold lift at 1.
    destruct (is_unknown pred) as [[|]|e] eqn:U.
    + revert w. apply appends_bind; [|intros; apply Tl].
      apply appends_log. intros x ->. exists ref, pred. split; [now left|].
      repeat split. left. now repeat split.
    + revert w. apply appends_bind; [|intros; apply Tl].
      eapply appends_weaken.
      * apply score_metrics_appends; [apply incl_refl | exact U].
      * intros row Hr. exists ref, pred. split; [now left | exact Hr].
    + exists []. split; [now rewrite app_nil_r | constructor].
Qed.

End CompareAppends.

(** X13. [compare] only appends to the detail log, also when it raises.
    Without a detail directory it writes nothing.  With one, every record
    it writes is in that directory and is about an item of the input: its
    wordform, its reference and its variants joined by [/]; the verdict is
    UNKNOWN in [unknown.csv] for an item with the marker, and CORRECT or
    FAIL in the file of a metric of the registry for an item without. *)
Theorem compare_log_frame (acc_funcs : AccFuncsMapping)
  (details_dir : option string) (reference : list string)
  (predicted : list ParsedItem) (w : list Detail) :
  exists rows,
    fst (compare acc_funcs details_dir reference predicted w) = (w ++ rows)%list /\
    (details_dir = None -> rows = []) /\
    Forall (fun row => exists ref pred,
                In (ref, pred) (combine reference predicted) /\
                row_about details_dir acc_funcs ref pred row) rows.
Proof.
  assert (A : appends (compare acc_funcs details_dir reference predicted)
                (fun row => exists ref pred,
                     In (ref, pred) (combine reference predicted) /\
                     row_about details_dir acc_funcs ref pred row)).
  { unfold compare.
    destruct (negb (List.length reference =? List.length predicted)).
    - intros w0. exists []. split; [now rewrite app_nil_r | constructor].
    - apply appends_bind; [apply score_items_appends|]. intros st.
      apply appends_bind; [apply appends_lift|]. intros d. apply appends_ret. }
  destruct (A w) as (rows & E & F). exists rows.
  split; [exact E|]. split; [|exact F].
  intros ->. destruct rows as [|row rows]; [reflexivity|].
  inversion F as [|? ? (r & p & _ & H & _) _]. discriminate.
Qed.

Lemma compare_log_frame_witness :
  fst (compare accuracy_funcs None ["car<n><pl>"]
         [mkParsedItem "cars" ["car<n><sg>"]] []) = [].
Proof.
  destruct (compare_log_frame accuracy_funcs None ["car<n><pl>"]
              [mkParsedItem "cars" ["car<n><sg>"]] []) as (rows & E & N & _).
  rewrite E, (N eq_refl). reflexivity.
Defined.

Lemma logs_ret {A : Type} (a : A) : logs (ret a) [].
Proof. intros w. simpl. now rewrite app_nil_r. Qed.

Lemma logs_log (d : option string) (f wf ref real res : string) :
  logs (log_details d f wf ref real res) (detail_rows d f wf ref real res).
Proof.
  intros w. unfold log_details, detail_rows. destruct d; simpl;
    [reflexivity | now rewrite app_nil_r].
Qed.

Lemma logs_bind {A B : Type} (c : M A) (k : A -> M B) (a : A)
  (r1 r2 : list Detail) :
  logs c r1 -> yields c (Ok a) -> logs (k a) r2 -> logs (bind c k) (r1 ++ r2).
Proof.
  intros L1 Y L2 w. unfold bind. specialize (L1 w). specialize (Y w).
  destruct (c w) as [w1 r]. simpl in L1, Y. subst w1 r.
  now rewrite L2, app_assoc.
Qed.

Lemma logs_eq {A : Type} (c : M A) (r r' : list Detail) :
  logs c r -> r = r' -> logs c r'.
Proof. now intros H <-. Qed.

Section CompareLogs.

Variable acc_funcs : AccFuncsMapping.
Variable details_dir : option string.
Hypothesis keys_distinct : NoDup (Dict.keys acc_funcs).

Lemma try_variants_logs (k : string) (f : AccFunc) (ref : string)
  (pred : ParsedItem) (vars : list string) (is_correct b : bool)
  (g : string * AccFunc -> Metric.t) :
  In (k, f) acc_funcs ->
  first_match f ref vars = Ok b ->
  logs (try_variants acc_funcs details_dir k ref pred vars is_correct
          (entries acc_funcs g))
       (if b then detail_rows details_dir k (input_str pred) ref
                              (variants pred) "CORRECT"
        else []).
Proof.
  intros Hin. pose proof (dict_get_NoDup acc_funcs k f keys_distinct Hin) as G.
  induction vars as [|v vars IH]; cbn [try_variants first_match].
  - intros [= <-]. apply logs_ret.
  - rewrite G, bind_lift_Ok. unfold bindR.
    destruct (f ref v) as [[|]|e]; [| |discriminate].
    + intros [= <-]. rewrite bind_lift_Ok.
      rewrite (entries_update acc_funcs g k f incr_correct keys_distinct Hin).
      rewrite bind_lift_Ok.
      eapply logs_eq.
      * eapply logs_bind; [apply logs_log | apply yields_log | apply logs_ret].
      * apply app_nil_r.
    + rewrite bind_lift_Ok. exact IH.
Qed.

Lemma score_metrics_logs (ref : string) (pred : ParsedItem)
  (l : AccFuncsMapping) :
  forall pre g is_correct t,
    acc_funcs = (pre ++ l)%list ->
    check_metrics l ref pred = Ok t ->
    logs (score_metrics acc_funcs details_dir ref pred (Dict.keys l)
            is_correct (entries acc_funcs g))
         (metric_rows details_dir l ref pred is_correct).
Proof.
  induction l as [|[k f] l IH]; intros pre g ic t Haf C.
  - apply logs_ret.
  - destruct (suffix_entry _ _ _ _ _ Haf keys_distinct) as [Hin Hk].
    pose proof (dict_get_NoDup acc_funcs k f keys_distinct Hin) as G.
    cbn [Dict.keys map fst score_metrics check_metrics metric_rows snd] in C |- *.
    fold (Dict.keys l).
    rewrite (entries_update acc_funcs g k f incr_recognized keys_distinct Hin).
    rewrite bind_lift_Ok.
    set (g1 := fun kf : string * AccFunc =>
                 if String.eqb (fst kf) k then incr_recognized (g kf) else g kf).
    assert (Haf' : acc_funcs = ((pre ++ [(k, f)]) ++ l)%list)
      by (rewrite <- app_assoc; exact Haf).
    unfold bindR in C.
    destruct (first_match f ref (out_variants pred)) as [b|e] eqn:FM; [|discriminate].
    pose proof (try_variants_logs k f ref pred (out_variants pred) ic b g1 Hin FM) as TL.
    pose proof (try_variants_yields acc_funcs details_dir k f ref pred
                  (out_variants pred) ic (entries acc_funcs g1) G) as TY.
    rewrite FM in TY. unfold metric_hit. rewrite FM.
    destruct b.
    + rewrite (entries_update acc_funcs g1 k f incr_correct keys_distinct Hin) in TY.
      cbn [bindR] in TY.
      eapply logs_bind; [exact TL | exact TY|]. cbn [fst snd negb].
      eapply logs_eq.
      * eapply logs_bind; [apply logs_ret | apply yields_ret|].
        exact (IH _ _ true t Haf' C).
      * cbn [app]. now rewrite orb_true_r.
    + destruct ic.
      * eapply logs_eq.
        -- eapply logs_bind; [exact TL | exact TY|]. cbn [fst snd negb].
           eapply logs_bind; [apply logs_ret | apply yields_ret|].
           exact (IH _ _ true t Haf' C).
        -- reflexivity.
      * eapply logs_eq.
        -- eapply logs_bind; [exact TL | exact TY|]. cbn [fst snd negb].
           eapply logs_bind; [apply logs_log | apply yields_log|].
           exact (IH _ _ false t Haf' C).
        -- reflexivity.
Qed.

Lemma score_items_logs (pairs : list (string * ParsedItem)) :
  forall n g t,
    check_items acc_funcs pairs = Ok t ->
    logs (score_items acc_funcs details_dir pairs n (entries acc_funcs g))
         (expected_rows details_dir acc_funcs pairs).
Proof.
  unfold expected_rows.
  induction pairs as [|[ref pred] pairs IH]; intros n g t C.
  - apply logs_ret.
  - cbn [score_items check_items flat_map] in C |- *. unfold item_rows at 1.
    cbn [fst snd]. unfold unknownb. unfold bindR in C.
    destruct (is_unknown pred) as [[|]|e] eqn:U; [| |discriminate].
    + rewrite bind_lift_Ok.
      eapply logs_bind; [apply logs_log | apply yields_log | exact (IH n g t C)].
    + rewrite bind_lift_Ok.
      destruct (check_metrics acc_funcs ref pred) as [t0|e] eqn:CM; [|discriminate].
      pose proof (score_metrics_yields acc_funcs details_dir keys_distinct ref pred
                    acc_funcs [] g false eq_refl) as SY.
      rewrite CM in SY. cbn [bindR] in SY.
      eapply logs_bind;
        [exact (score_metrics_logs ref pred acc_funcs [] g false t0 eq_refl CM)
        | exact SY |].
      cbn [snd]. exact (IH (n + 1) _ t C).
Qed.

Lemma compare_logs (reference : list string) (predicted : list ParsedItem)
  (r : RunResult) :
  compare_spec acc_funcs reference predicted = Ok r ->
  logs (compare acc_funcs details_dir reference predicted)
       (expected_rows details_dir acc_funcs (combine reference predicted)).
Proof.
  unfold compare, compare_spec.
  destruct (negb (List.length reference =? List.length predicted)); [discriminate|].
  destruct (check_items acc_funcs (combine reference predicted)) as [t|e] eqn:C;
    [|discriminate].
  intros _. rewrite (initial_results_entries acc_funcs keys_distinct).
  pose proof (score_items_yields acc_funcs details_dir keys_distinct
                (combine reference predicted) 0 (fun _ => Metric.mk 0 0 None)) as SY.
  rewrite C in SY. cbn [bindR] in SY.
  eapply logs_eq.
  - eapply logs_bind; [exact (score_items_logs _ 0 _ t C) | exact SY|].
    cbn [fst snd]. rewrite (fractions_entries acc_funcs keys_distinct acc_funcs [] _ eq_refl).
    rewrite bind_lift_Ok. apply logs_ret.
  - apply app_nil_r.
Qed.

End CompareLogs.

(** X14. The records of a run that returns.  For a registry with distinct
    names, when [compare] returns a result it has appended to the log, item
    after item: one UNKNOWN record for an item with the marker; for an item
    without, metric after metric, a CORRECT record if some variant
    satisfies the metric, and otherwise a FAIL record provided no earlier
    metric of the registry was satisfied for this item (else no record). *)
Theorem compare_log_rows (acc_funcs : AccFuncsMapping)
  (details_dir : option string) (reference : list string)
  (predicted : list ParsedItem) (w w' : list Detail) (r : RunResult) :
  NoDup (Dict.keys acc_funcs) ->
  compare acc_funcs details_dir reference predicted w = (w', Ok r) ->
  w' = (w ++ expected_rows details_dir acc_funcs (combine reference predicted))%list.
Proof.
  intros ND H.
  pose proof (compare_yields acc_funcs details_dir ND reference predicted w) as Y.
  rewrite H in Y. cbn [snd] in Y. symmetry in Y.
  pose proof (compare_logs acc_funcs details_dir ND reference predicted r Y w) as L.
  now rewrite H in L.
Qed.

Lemma compare_log_rows_witness :
  exists r,
    compare accuracy_funcs (Some "details") ["car<n><pl>"; "zzz"]
      [mkParsedItem "cars" ["car<n><sg>"]; mkParsedItem "zzz" ["*zzz"]] [] =
    ([ mkDetail "details" "exact_match.csv" "cars" "car<n><pl>" "car<n><sg>" "FAIL";
       mkDetail "details" "stem_match.csv" "cars" "car<n><pl>" "car<n><sg>" "CORRECT";
       mkDetail "details" "pos_match.csv" "cars" "car<n><pl>" "car<n><sg>" "CORRECT";
       mkDetail "details" "stem_and_pos_match.csv" "cars" "car<n><pl>" "car<n><sg>"
                "CORRECT";
       mkDetail "details" "unknown.csv" "zzz" "zzz" "*zzz" "UNKNOWN" ], Ok r).
Proof.
  destruct (compare accuracy_funcs (Some "details") ["car<n><pl>"; "zzz"]
              [mkParsedItem "cars" ["car<n><sg>"]; mkParsedItem "zzz" ["*zzz"]] [])
    as [w' [r|e]] eqn:E; [|vm_compute in E; discriminate].
  exists r. f_equal.
  exact (compare_log_rows accuracy_funcs (Some "details") _ _ [] w' r
           accuracy_funcs_keys_distinct E).
Defined.

(** ** Records and counts *)

Lemma count_rows_app (p : Detail -> bool) (a b : list Detail) :
  count_rows p (a ++ b) = count_rows p a + count_rows p b.
Proof. unfold count_rows. now rewrite filter_app, length_app. Qed.

Lemma metric_rows_no_unknown (d : option string) (l : AccFuncsMapping)
  (ref : string) (pred : ParsedItem) :
  forall ic, count_rows (has_verdict "UNKNOWN") (metric_rows d l ref pred ic) = 0.
Proof.
  induction l as [|kf l IH]; intros ic; [reflexivity|].
  cbn [metric_rows]. rewrite count_rows_app, IH.
  destruct (metric_hit (snd kf) ref pred); [now destruct d|].
  destruct ic; [reflexivity | now destruct d].
Qed.

Lemma detail_rows_count (d file k wf ref real v : string) :
  count_rows (is_row (csv_name k) "CORRECT")
             (detail_rows (Some d) file wf ref real v) =
  b2n (String.eqb (csv_name file) (csv_name k) && String.eqb v "CORRECT").
Proof.
  unfold count_rows, detail_rows, is_row. simpl.
  now destruct (String.eqb (csv_name file) (csv_name k) && String.eqb v "CORRECT").
Qed.

Lemma metric_rows_other (d k : string) (l : AccFuncsMapping)
  (ref : string) (pred : ParsedItem) :
  ~ In (csv_name k) (map csv_name (Dict.keys l)) ->
  forall ic, count_rows (is_row (csv_name k) "CORRECT")
                        (metric_rows (Some d) l ref pred ic) = 0.
Proof.
  induction l as [|[k0 f0] l IH]; intros H ic; [reflexivity|].
  cbn [metric_rows fst snd]. rewrite count_rows_app, IH.
  - assert (E : String.eqb (csv_name k0) (csv_name k) = false).
    { apply String.eqb_neq. intros E. apply H. left. exact E. }
    destruct (metric_hit f0 ref pred).
    + now rewrite detail_rows_count, E.
    + destruct ic; [reflexivity | now rewrite detail_rows_count, E].
  - intros G. apply H. now right.
Qed.

Lemma metric_rows_count (d k : string) (f : AccFunc) (l : AccFuncsMapping)
  (ref : string) (pred : ParsedItem) :
  NoDup (map csv_name (Dict.keys l)) -> In (k, f) l ->
  forall ic, count_rows (is_row (csv_name k) "CORRECT")
                        (metric_rows (Some d) l ref pred ic) =
             b2n (metric_hit f ref pred).
Proof.
  induction l as [|[k0 f0] l IH]; intros ND Hin ic; [destruct Hin|].
  cbn [Dict.keys map fst] in ND. fold (Dict.keys l) in ND.
  inversion ND as [|? ? Hk0 Hl]; subst.
  cbn [metric_rows fst snd]. rewrite count_rows_app.
  destruct Hin as [[= -> ->] | Hin].
  - rewrite (metric_rows_other d k l ref pred Hk0), Nat.add_0_r.
    destruct (metric_hit f ref pred).
    + now rewrite detail_rows_count, String.eqb_refl.
    + destruct ic; [reflexivity|]. now rewrite detail_rows_count, String.eqb_refl.
  - rewrite (IH Hl Hin).
    assert (E : String.eqb (csv_name k0) (csv_name k) = false).
    { apply String.eqb_neq. intros E. apply Hk0. rewrite E.
      apply in_map. apply (in_map fst) in Hin. exact Hin. }
    destruct (metric_hit f0 ref pred).
    + now rewrite detail_rows_count, E.
    + destruct ic; [reflexivity | now rewrite detail_rows_count, E].
Qed.

Lemma expected_rows_correct (d k : string) (f : AccFunc)
  (acc_funcs : AccFuncsMapping) (pairs : list (string * ParsedItem)) (t : unit) :
  NoDup (map csv_name (Dict.keys acc_funcs)) -> In (k, f) acc_funcs ->
  check_items acc_funcs pairs = Ok t ->
  count_rows (is_row (csv_name k) "CORRECT")
             (expected_rows (Some d) acc_funcs pairs) = hits f pairs.
Proof.
  intros ND Hin. unfold expected_rows.
  induction pairs as [|[ref pred] pairs IH]; intros C; [reflexivity|].
  cbn [flat_map check_items] in C |- *. rewrite count_rows_app, hits_cons.
  unfold item_rows at 1. unfold unknownb, recognizedb. cbn [fst snd].
  unfold bindR in C.
  destruct (is_unknown pred) as [[|]|e]; [| |discriminate].
  - rewrite (IH C), detail_rows_count, andb_false_r. reflexivity.
  - destruct (check_metrics acc_funcs ref pred); [|discriminate].
    rewrite (IH C), (metric_rows_count d k f acc_funcs ref pred ND Hin). reflexivity.
Qed.

Lemma expected_rows_unknown (d : option string) (acc_funcs : AccFuncsMapping)
  (pairs : list (string * ParsedItem)) (t : unit) :
  check_items acc_funcs pairs = Ok t ->
  count_rows (has_verdict "UNKNOWN") (expected_rows d acc_funcs pairs) =
  match d with
  | Some _ => List.length pairs - count_recognized (map snd pairs)
  | None => 0
  end.
Proof.
  unfold expected_rows.
  induction pairs as [|[ref pred] pairs IH]; intros C; [now destruct d|].
  cbn [flat_map check_items map snd List.length] in C |- *.
  rewrite count_rows_app, count_recognized_cons.
  unfold item_rows at 1. unfold unknownb, recognizedb. cbn [fst snd].
  unfold bindR in C.
  pose proof (proj1 (filter_length_all recognizedb (map snd pairs))) as Hle.
  fold (count_recognized (map snd pairs)) in Hle. rewrite length_map in Hle.
  destruct (is_unknown pred) as [[|]|e]; [| |discriminate].
  - rewrite (IH C). destruct d as [x|]; [|reflexivity].
    change (count_rows (has_verdict "UNKNOWN")
              (detail_rows (Some x) "unknown" (input_str pred) ref
                           (variants pred) "UNKNOWN")) with 1.
    cbn [b2n]. lia.
  - destruct (check_metrics acc_funcs ref pred); [|discriminate].
    rewrite (IH C), metric_rows_no_unknown. destruct d as [x|]; [|reflexivity].
    cbn [b2n]. lia.
Qed.

(** X15. The records agree with the counts.  With a detail directory and
    a registry whose metrics write to distinct files, when [compare]
    returns, the records it has appended hold as many UNKNOWN ones as
    [total - recognized], and the file of each metric holds as many CORRECT
    ones as the metric's [correct] count. *)
Theorem compare_rows_match_counts (acc_funcs : AccFuncsMapping) (d : string)
  (reference : list string) (predicted : list ParsedItem)
  (w w' : list Detail) (r : RunResult) :
  NoDup (map csv_name (Dict.keys acc_funcs)) ->
  compare acc_funcs (Some d) reference predicted w = (w', Ok r) ->
  exists rows,
    w' = (w ++ rows)%list /\
    count_rows (has_verdict "UNKNOWN") rows = total r - recognized r /\
    forall k m, In (k, m) (accuracy r) ->
                count_rows (is_row (csv_name k) "CORRECT") rows = Metric.correct m.
Proof.
  intros NDc H.
  assert (ND : NoDup (Dict.keys acc_funcs)) by (exact (NoDup_map_inv _ _ NDc)).
  pose proof (compare_yields acc_funcs (Some d) ND reference predicted w) as Y.
  rewrite H in Y. cbn [snd] in Y. symmetry in Y.
  pose proof (compare_logs acc_funcs (Some d) ND reference predicted r Y w) as L.
  rewrite H in L. cbn [fst] in L.
  exists (expected_rows (Some d) acc_funcs (combine reference predicted)).
  split; [exact L|].
  unfold compare_spec in Y.
  destruct (negb (List.length reference =? List.length predicted)) eqn:Len;
    [discriminate|].
  apply negb_false_iff, Nat.eqb_eq in Len.
  destruct (check_items acc_funcs (combine reference predicted)) as [t|e] eqn:C;
    [|discriminate].
  injection Y as <-. cbn [total recognized accuracy]. split.
  - rewrite (expected_rows_unknown (Some d) acc_funcs _ t C).
    rewrite (combine_snd _ _ Len), length_combine, <- Len, Nat.min_id. reflexivity.
  - intros k m Hin. apply in_map_iff in Hin as ([k0 f] & [= <- <-] & Hin).
    cbn [fst snd Metric.correct].
    exact (expected_rows_correct d k0 f acc_funcs _ t NDc Hin C).
Qed.

Lemma compare_rows_match_counts_witness :
  exists w' r rows,
    compare accuracy_funcs (Some "details") ["car<n><pl>"; "zzz"]
      [mkParsedItem "cars" ["car<n><sg>"]; mkParsedItem "zzz" ["*zzz"]] [] = (w', Ok r) /\
    w' = rows /\ count_rows (has_verdict "UNKNOWN") rows = 1.
Proof.
  destruct (compare accuracy_funcs (Some "details") ["car<n><pl>"; "zzz"]
              [mkParsedItem "cars" ["car<n><sg>"]; mkParsedItem "zzz" ["*zzz"]] [])
    as [w' [r|e]] eqn:E; [|vm_compute in E; discriminate].
  destruct (compare_rows_match_counts accuracy_funcs "details" _ _ [] w' r
              ltac:(repeat constructor; simpl; intuition discriminate) E)
    as (rows & Hw & Hu & _).
  exists w', r, rows. split; [reflexivity|]. split; [exact Hw|].
  rewrite Hu. vm_compute in E. injection E as _ <-. reflexivity.
Defined.

(** ** The transliteration pass, continued *)

Lemma dict_get_set {V : Type} (k k' : string) (v : V) (d : Dict.t V) :
  Dict.get k' (Dict.set k v d) = if String.eqb k' k then Ok v else Dict.get k' d.
Proof.
  induction d as [|[k0 v0] d IH]; simpl.
  - now destruct (String.eqb k' k).
  - destruct (String.eqb k k0) eqn:E; simpl.
    + apply String.eqb_eq in E. subst k0. now destruct (String.eqb k' k).
    + rewrite IH. destruct (String.eqb k' k0) eqn:E'; [|reflexivity].
      apply String.eqb_eq in E'. subst k0.
      now rewrite String.eqb_sym, E.
Qed.


Lemma store_translits_other (translits : list ParsedItem) (s : string) :
  ~ In s (map input_str translits) ->
  forall d, Dict.get s (store_translits translits d) = Dict.get s d.
Proof.
  unfold store_translits. induction translits as [|t l IH]; intros H d; [reflexivity|].
  simpl. rewrite IH by (intros G; apply H; now right).
  rewrite dict_get_set. destruct (String.eqb s (input_str t)) eqn:E; [|reflexivity].
  apply String.eqb_eq in E. exfalso. apply H. left. now symmetry.
Qed.

Lemma gather_variants_stems (vars : list string) :
  forall d d',
    gather_variants vars d = Ok d' ->
    (forall s, In s (Dict.keys d) -> In s (Dict.keys d')) /\
    Forall (fun var => exists s, get_stem var = Ok s /\ In s (Dict.keys d')) vars.
Proof.
  induction vars as [|var vars IH]; intros d d'; simpl.
  - intros [= <-]. split; [auto | constructor].
  - unfold bindR. destruct (get_stem var) as [stem|] eqn:G; [|discriminate].
    intros H. destruct (IH _ _ H) as [K F]. split.
    + intros s Hs. apply K. apply dict_set_In_keys. now right.
    + constructor; [|exact F]. exists stem. split; [exact G|].
      apply K. apply dict_set_In_keys. now left.
Qed.

Lemma gather_stems_grows (items : list ParsedItem) :
  forall d d', gather_stems items d = Ok d' ->
               forall s, In s (Dict.keys d) -> In s (Dict.keys d').
Proof.
  induction items as [|it items IH]; intros d d'; simpl.
  - now intros [= <-].
  - unfold bindR. destruct (is_unknown it) as [[|]|]; [| |discriminate].
    + apply IH.
    + destruct (gather_variants (out_variants it) d) as [d1|] eqn:G; [|discriminate].
      intros H s Hs. apply (IH _ _ H). now apply (proj1 (gather_variants_stems _ _ _ G)).
Qed.



Lemma rewrite_items_inputs (cyr2lat : Dict.t (list string)) (items : list ParsedItem) :
  map input_str (fst (rewrite_items cyr2lat items)) = map input_str items.
Proof.
  induction items as [|it items IH]; [reflexivity|]. cbn [rewrite_items].
  destruct (is_unknown it) as [[|]|]; [| |reflexivity].
  - destruct (rewrite_items cyr2lat items). simpl in *. now rewrite IH.
  - destruct (new_variants cyr2lat (out_variants it)); [|reflexivity].
    destruct (rewrite_items cyr2lat items). simpl in *. now rewrite IH.
Qed.



Lemma replace_from_same (h : ascii) (old' : string) (n : nat) :
  forall s, String.length s <= n ->
            Str.replace_from (String h old') (String h old') 0 s = s.
Proof.
  induction n as [|n IH]; intros s Hs.
  - destruct s; [reflexivity | simpl in Hs; lia].
  - destruct s as [|c s]; [reflexivity|]. simpl in Hs.
    rewrite replace_from_0.
    destruct (prefix (String h old') (String c s)) eqn:P.
    + apply prefix_spec in P as [r P]. simpl in P. injection P as -> ->.
      replace (String.length (String h old') - 1) with (String.length old')
        by (simpl; lia).
      rewrite replace_from_skip_exact, IH; [reflexivity|].
      rewrite length_append in Hs. lia.
    + f_equal. apply IH. lia.
Qed.

Lemma replace_same (stem var : string) :
  stem <> EmptyString -> Str.replace stem stem var = var.
Proof.
  intros H. destruct stem as [|h old']; [contradiction|]. unfold Str.replace.
  apply (replace_from_same h old' (String.length var)). apply Nat.le_refl.
Qed.

Lemma store_echo (batch : list string) (s : string) :
  In s batch ->
  forall d, Dict.get s (store_translits (map (fun x => mkParsedItem x [x]) batch) d)
            = Ok [s].
Proof.
  unfold store_translits. induction batch as [|x batch IH]; intros H d; [destruct H|].
  cbn [map fold_left input_str out_variants].
  destruct (in_dec string_dec s batch) as [Hin | Hout].
  - now apply IH.
  - destruct H as [-> | H]; [|contradiction].
    pose proof (store_translits_other (map (fun x => mkParsedItem x [x]) batch) s) as O.
    unfold store_translits in O. rewrite O.
    + now rewrite dict_get_set, String.eqb_refl.
    + rewrite map_map. simpl. now rewrite map_id.
Qed.

Lemma new_variants_echo (cyr2lat : Dict.t (list string)) (vars : list string) :
  Forall (fun var => exists s, get_stem var = Ok s /\ Dict.get s cyr2lat = Ok [s]) vars ->
  new_variants cyr2lat vars = Ok vars.
Proof.
  induction 1 as [|var vars (s & G & L) _ IH]; [reflexivity|].
  cbn [new_variants]. unfold bindR. rewrite G, L, IH. cbn [map app].
  now rewrite (replace_same s var (get_stem_nonempty _ _ G)).
Qed.

Lemma rewrite_items_echo (items : list ParsedItem) :
  forall d0 d cyr2lat,
    gather_stems items d0 = Ok d ->
    (forall s, In s (Dict.keys d) -> Dict.get s cyr2lat = Ok [s]) ->
    rewrite_items cyr2lat items = (items, None).
Proof.
  induction items as [|it items IH]; intros d0 d cyr2lat; [reflexivity|].
  cbn [gather_stems rewrite_items]. unfold bindR.
  destruct (is_unknown it) as [[|]|]; [| |discriminate].
  - intros H K. now rewrite (IH _ _ _ H K).
  - destruct (gather_variants (out_variants it) d0) as [d1|] eqn:G; [|discriminate].
    intros H K. destruct (gather_variants_stems _ _ _ G) as [_ F].
    rewrite new_variants_echo.
    + rewrite (IH _ _ _ H K). now destruct it.
    + eapply Forall_impl; [|exact F]. intros var (s & Hs & Ks). exists s.
      split; [exact Hs|]. apply K. exact (gather_stems_grows _ _ _ H s Ks).
Qed.

(** X17. With a transliterator that answers every stem with the stem
    itself, [make_latin] looks the stems up once and leaves every item
    exactly as it was. *)
Theorem make_latin_echo (items : list ParsedItem) :
  Forall extractable items ->
  exists batch, make_latin echo_lookup items = mkLatinRun [batch] items None.
Proof.
  intros H. destruct (gather_stems_total items [] H) as [d G].
  exists (Dict.keys d). unfold make_latin. rewrite G. unfold echo_lookup.
  rewrite (rewrite_items_echo items [] d _ G); [reflexivity|].
  intros s Hs. now apply store_echo.
Qed.

Lemma make_latin_echo_witness :
  exists batch,
    make_latin echo_lookup
      [mkParsedItem "cats" ["cat<n><pl>"; "cats<n>"]; mkParsedItem "zzz" ["*zzz"]] =
    mkLatinRun [batch]
      [mkParsedItem "cats" ["cat<n><pl>"; "cats<n>"]; mkParsedItem "zzz" ["*zzz"]] None.
Proof.
  apply make_latin_echo. repeat constructor.
  - exists false. split; [reflexivity|]. intros _.
    repeat constructor; eexists; reflexivity.
  - exists true. split; [reflexivity | discriminate].
Defined.








(** ** Reading the corpus *)

Lemma combine_snoc {A B : Type} (l : list A) (l' : list B) (a : A) (b : B) :
  List.length l = List.length l' ->
  combine (l ++ [a]) (l' ++ [b]) = (combine l l' ++ [(a, b)])%list.
Proof.
  revert l'. induction l as [|x l IH]; intros [|y l'] H; try discriminate.
  - reflexivity.
  - simpl. f_equal. apply IH. now injection H.
Qed.

Lemma unpack_rows_spec (reader : list (list string)) :
  forall ws ts,
    List.length ws = List.length ts ->
    match unpack_rows reader ws ts with
    | Done (ws', ts') =>
        List.length ws' = List.length ts' /\
        map (fun p => [fst p; snd p]) (combine ws' ts') =
        (map (fun p => [fst p; snd p]) (combine ws ts) ++ reader)%list
    | Failed e =>
        e = ValueError /\ ~ Forall (fun row => List.length row = 2) reader
    end.
Proof.
  induction reader as [|row reader IH]; intros ws ts L.
  - simpl. split; [exact L | now rewrite app_nil_r].
  - cbn [unpack_rows].
    assert (Bad : List.length row <> 2 ->
              ValueError = ValueError /\
              ~ Forall (fun row => List.length row = 2) (row :: reader)).
    { intros N. split; [reflexivity|]. intros F. inversion F. contradiction. }
    destruct row as [|w [|t [|x row]]]; try (apply Bad; simpl; lia).
    specialize (IH (ws ++ [w])%list (ts ++ [t])%list).
    rewrite !length_app in IH. simpl in IH. specialize (IH ltac:(lia)).
    destruct (unpack_rows reader (ws ++ [w]) (ts ++ [t])) as [[ws' ts']|e].
    + destruct IH as [L' M]. split; [exact L'|].
      rewrite M, (combine_snoc ws ts w t L), map_app. simpl.
      now rewrite <- app_assoc.
    + destruct IH as [-> N]. split; [reflexivity|].
      intros F. inversion F. contradiction.
Qed.

Lemma read_rows_cases (reader : list (list string)) (drop_first : bool) :
  read_rows reader drop_first =
  match drop_first, reader with
  | true, [] => Failed StopIteration
  | _, _ =>
      match unpack_rows (if drop_first then tl reader else reader) [] [] with
      | Done p => Done p
      | Failed _ => Failed ValueError
      end
  end.
Proof.
  unfold read_rows.
  assert (Core : forall rows,
            match unpack_rows rows [] [] with
            | Failed e => Failed e
            | Done (wordforms, tagged) =>
                if List.length wordforms =? List.length tagged
                then Done (wordforms, tagged) else Failed AssertionError
            end =
            match unpack_rows rows [] [] with
            | Done p => Done p
            | Failed _ => Failed ValueError
            end).
  { intros rows. pose proof (unpack_rows_spec rows [] [] eq_refl) as S.
    destruct (unpack_rows rows [] []) as [[ws ts]|e].
    - destruct S as [L _]. apply Nat.eqb_eq in L. now rewrite L.
    - now destruct S as [-> _]. }
  destruct drop_first; [destruct reader as [|hd rows]|];
    [reflexivity | apply Core | destruct reader; apply Core].
Qed.

Lemma pairs_have_two_fields (l : list (string * string)) :
  Forall (fun row : list string => List.length row = 2)
         (map (fun p => [fst p; snd p]) l).
Proof. induction l; constructor; auto. Qed.

Lemma unpacked_cases (rows : list (list string)) :
  let r := match unpack_rows rows [] [] with
           | Done p => Done p
           | Failed _ => Failed ValueError
           end in
  r <> Failed AssertionError /\
  r <> Failed StopIteration /\
  (forall ws ts, r = Done (ws, ts) ->
                 List.length ws = List.length ts /\
                 map (fun p => [fst p; snd p]) (combine ws ts) = rows) /\
  (r = Failed ValueError <-> ~ Forall (fun row => List.length row = 2) rows).
Proof.
  cbv zeta. pose proof (unpack_rows_spec rows [] [] eq_refl) as S.
  destruct (unpack_rows rows [] []) as [[ws ts]|e].
  - destruct S as [L M]. simpl in M.
    split; [discriminate|]. split; [discriminate|]. split.
    + intros ws' ts' [= <- <-]. now split.
    + split; [discriminate|]. intros N. exfalso. apply N. rewrite <- M.
      apply pairs_have_two_fields.
  - destruct S as [_ N].
    split; [discriminate|]. split; [discriminate|]. split.
    + intros ws ts H. discriminate.
    + split; [intros _; exact N | reflexivity].
Qed.

(** X19. Reading the corpus.  [read_stdin] (and [read_csv] on a file that
    exists) returns two lists of the same length, so its [assert] never
    fails: the first and second fields of the data rows, in order.  It
    raises [ValueError] exactly when some data row has not two fields (the
    empty row of a blank line, for one), and [StopIteration] exactly when
    the header is to be dropped from an empty input. *)
Theorem read_stdin_columns (reader : list (list string)) (drop_first : bool) :
  let data := if drop_first then tl reader else reader in
  read_csv (Some reader) drop_first = read_stdin reader drop_first /\
  read_stdin reader drop_first <> Failed AssertionError /\
  (forall ws ts,
     read_stdin reader drop_first = Done (ws, ts) ->
     List.length ws = List.length ts /\
     map (fun p => [fst p; snd p]) (combine ws ts) = data) /\
  (read_stdin reader drop_first = Failed StopIteration <->
   drop_first = true /\ reader = []) /\
  (read_stdin reader drop_first = Failed ValueError <->
   ~ Forall (fun row => List.length row = 2) data /\
   (drop_first = true -> reader <> [])).
Proof.
  cbv zeta. split; [reflexivity|]. unfold read_stdin. rewrite read_rows_cases.
  destruct drop_first; [destruct reader as [|hd rows]|].
  - split; [discriminate|]. split; [intros ws ts H; discriminate|]. split.
    + split; [now split | reflexivity].
    + split; [discriminate|]. intros [_ H]. now contradiction (H eq_refl).
  - cbn [tl]. destruct (unpacked_cases rows) as (A & B & C & D).
    split; [exact A|]. split; [exact C|]. split.
    + split; [intros Hs; contradiction | intros [_ Hd]; discriminate].
    + rewrite D. split; [intros N; split; [exact N | discriminate] | tauto].
  - destruct (unpacked_cases reader) as (A & B & C & D).
    split; [exact A|]. split; [exact C|]. split.
    + split; [intros Hs; contradiction | intros [Hd _]; discriminate].
    + rewrite D. split; [intros N; split; [exact N | discriminate] | tauto].
Qed.

Lemma read_stdin_columns_witness :
  read_stdin [["wordform"; "tagged"]; ["cats"; "cat<n><pl>"]; []] true
  = Failed ValueError.
Proof.
  apply (proj2 (proj2 (proj2 (proj2
           (read_stdin_columns [["wordform"; "tagged"]; ["cats"; "cat<n><pl>"]; []]
                               true))))).
  split; [|discriminate]. simpl. intros F.
  inversion F as [|? ? _ F']. inversion F' as [|? ? Hlen _]. discriminate.
Defined.

(** ** The report and [main] *)

Lemma metric_table_scored (d : Dict.t Metric.t) :
  (forall k m, In (k, m) d -> scored m) ->
  exists rows, metric_table d = Ok rows.
Proof.
  induction d as [|[k m] d IH]; intros H; [now exists []|].
  cbn [metric_table]. destruct (H k m (or_introl eq_refl)) as (_ & a & A & _).
  rewrite A. cbn [bindR]. destruct IH as [rows R].
  { intros k' m' Hin. apply (H k' m'). now right. }
  rewrite R. cbn [bindR]. eauto.
Qed.

Lemma compare_result_facts (acc_funcs : AccFuncsMapping)
  (details_dir : option string) (reference : list string)
  (predicted : list ParsedItem) (w w' : list Detail) (r : RunResult) :
  compare acc_funcs details_dir reference predicted w = (w', Ok r) ->
  List.length reference = List.length predicted /\
  total r = List.length reference /\
  (forall k m, In (k, m) (accuracy r) -> scored m).
Proof.
  intros H.
  assert (H' : snd (compare acc_funcs details_dir reference predicted w) = Ok r)
    by now rewrite H.
  pose proof (compare_ok_lengths _ _ _ _ _ _ H') as L.
  pose proof (compare_outcome acc_funcs details_dir (fun _ => True) I
                (fun _ _ _ _ _ _ _ => I) reference predicted L w) as O.
  rewrite H' in O. destruct O as (T & _ & _ & S & _).
  split; [exact L|]. split; [exact T | exact S].
Qed.

Section ReportFacts.

Variable percent : Q -> string.
Variable tabulate : list (list string) -> string.
Variables repr pformat : RunResult -> string.

Let report := table_results percent tabulate repr pformat.
Let run_main := main percent tabulate repr pformat.

Lemma report_other_formats (r : RunResult) (format : string) :
  format <> "table" -> exists out, report r format = Ok out.
Proof.
  intros N. unfold report, table_results.
  apply String.eqb_neq in N. rewrite N.
  destruct (String.eqb format "json"); [eauto|].
  destruct (String.eqb format "json_indent"); eauto.
Qed.

Lemma report_table (r : RunResult) :
  (forall k m, In (k, m) (accuracy r) -> scored m) ->
  (total r = 0 -> report r "table" = Raise ZeroDivisionError) /\
  (total r <> 0 -> exists out, report r "table" = Ok out).
Proof.
  intros S. unfold report, table_results. cbn [String.eqb Ascii.eqb Bool.eqb].
  change (String.eqb "table" "table") with true. cbv iota.
  destruct (metric_table_scored (accuracy r) S) as [rows R]. split.
  - intros ->. reflexivity.
  - intros N. destruct (total r) as [|n]; [contradiction|].
    cbn [truediv bindR]. rewrite R. cbn [bindR]. eauto.
Qed.

(** X20. The report of a result of [compare].  In the [table] format,
    [table_results] raises [ZeroDivisionError] exactly when the corpus was
    empty, and prints otherwise; in every other format it never raises. *)
Theorem report_of_compare (acc_funcs : AccFuncsMapping)
  (details_dir0 : option string) (reference : list string)
  (predicted : list ParsedItem) (w w' : list Detail) (r : RunResult) :
  compare acc_funcs details_dir0 reference predicted w = (w', Ok r) ->
  (reference = [] ->
   table_results percent tabulate repr pformat r "table" = Raise ZeroDivisionError) /\
  (reference <> [] ->
   exists out, table_results percent tabulate repr pformat r "table" = Ok out) /\
  (forall format, format <> "table" ->
     exists out, table_results percent tabulate repr pformat r format = Ok out).
Proof.
  intros H. destruct (compare_result_facts _ _ _ _ _ _ _ H) as (_ & T & S).
  destruct (report_table r S) as [Z NZ]. split; [|split].
  - intros ->. apply Z. exact T.
  - intros N. apply NZ. rewrite T. destruct reference; [contradiction | discriminate].
  - intros format N. now apply report_other_formats.
Qed.



End ReportFacts.

Lemma report_of_compare_witness :
  exists w' r,
    compare accuracy_funcs None [] [] [] = (w', Ok r) /\
    table_results (fun _ => EmptyString) (fun _ => EmptyString)
      (fun _ => EmptyString) (fun _ => EmptyString) r "table" =
    Raise ZeroDivisionError.
Proof.
  eexists. eexists. split; [vm_compute; reflexivity|].
  refine (proj1 (report_of_compare (fun _ => EmptyString) (fun _ => EmptyString)
                   (fun _ => EmptyString) (fun _ => EmptyString)
                   accuracy_funcs None [] [] [] _ _ _) eq_refl).
  vm_compute. reflexivity.
Defined.

(** ** How a run of [main] ends *)


Lemma read_rows_done (reader : list (list string)) (drop_first : bool)
  (ws ts : list string) :
  read_rows reader drop_first = Done (ws, ts) ->
  List.length ws = List.length ts.
Proof.
  unfold read_rows. intros H.
  assert (Core : forall rows,
            match unpack_rows rows [] [] with
            | Failed e => Failed e
            | Done (wordforms, tagged) =>
                if List.length wordforms =? List.length tagged
                then Done (wordforms, tagged) else Failed AssertionError
            end = Done (ws, ts) -> List.length ws = List.length ts).
  { intros rows. destruct (unpack_rows rows [] []) as [[ws' ts']|]; [|discriminate].
    destruct (List.length ws' =? List.length ts') eqn:E; [|discriminate].
    intros [= <- <-]. now apply Nat.eqb_eq. }
  destruct drop_first; [destruct reader|]; [discriminate | exact (Core _ H) |].
  exact (Core _ H).
Qed.


Lemma hfst_lookup_ok (file_there : bool) (process : string -> Z * string)
  (input_strings : list string) (items : list ParsedItem) :
  hfst_lookup file_there process input_strings = Ok items ->
  file_there = true /\
  exists stdout,
    process (Str.join (String Re.newline EmptyString) input_strings) = (0%Z, stdout) /\
    items = parse_apertium stdout.
Proof.
  unfold hfst_lookup. destruct file_there; cbn [negb]; [|discriminate].
  destruct (process _) as [code out]. destruct (code =? 0)%Z eqn:C; cbn [negb]; [|discriminate].
  intros [= <-]. apply Z.eqb_eq in C. subst code. split; [reflexivity|]. now exists out.
Qed.


Lemma make_latin_returned (lookup : list string -> result (list ParsedItem))
  (items : list ParsedItem) :
  raised (make_latin lookup items) = None ->
  exists batch translits, lookup batch = Ok translits.
Proof.
  unfold make_latin. destruct (gather_stems items []) as [d|e0]; [|discriminate].
  destruct (lookup (Dict.keys d)) as [tr|e1] eqn:L; [|discriminate].
  intros _. now exists (Dict.keys d), tr.
Qed.

Lemma make_latin_length (lookup : list string -> result (list ParsedItem))
  (items : list ParsedItem) :
  List.length (items_after (make_latin lookup items)) = List.length items.
Proof.
  unfold make_latin. destruct (gather_stems items []) as [d|e0]; [|reflexivity].
  destruct (lookup (Dict.keys d)) as [tr|e1]; [|reflexivity].
  pose proof (rewrite_items_inputs (store_translits tr d) items) as I.
  destruct (rewrite_items (store_translits tr d) items) as [items' e'].
  cbn [items_after fst] in *. now rewrite <- (length_map input_str), I, length_map.
Qed.


Section MainFacts.

Variable percent : Q -> string.
Variable tabulate : list (list string) -> string.
Variables repr pformat : RunResult -> string.



Lemma corpus_read_done (env : Env) (args : Args) (ws ts : list string) :
  corpus_read env args = Done (ws, ts) -> List.length ws = List.length ts.
Proof.
  unfold corpus_read, read_stdin, read_csv. intros H.
  destruct (String.eqb (csv args) "STDIN"); [exact (read_rows_done _ _ _ _ H)|].
  destruct (file_rows env (csv args)); [exact (read_rows_done _ _ _ _ H) | discriminate].
Qed.


(** X23. What a run of [main] that prints its report has met: the corpus
    was read as two columns; the analyzer file was there, its process
    returned 0 on the word forms joined by newlines, and printed exactly
    one span per word form; the transliterator file, if one was given, was
    there too; and in the [table] format the corpus was not empty. *)
Theorem main_success (env : Env) (args : Args) (w : list Detail) (out : string) :
  snd (main percent tabulate repr pformat env args w) = Done out ->
  exists wordforms tagged stdout,
    corpus_read env args = Done (wordforms, tagged) /\
    List.length wordforms = List.length tagged /\
    is_file env (hfst_analyzer args) = true /\
    popen env (hfst_analyzer args)
      (Str.join (String Re.newline EmptyString) wordforms) = (0%Z, stdout) /\
    List.length (parse_apertium stdout) = List.length wordforms /\
    (forall t, given (hfst_translit args) = Some t -> is_file env t = true) /\
    (output_format args = "table" -> wordforms <> []).
Proof.
  unfold main.
  change (if String.eqb (csv args) "STDIN"
          then read_stdin (stdin_rows env) (drop_first_csv_row args)
          else read_csv (file_rows env (csv args)) (drop_first_csv_row args))
    with (corpus_read env args).
  destruct (corpus_read env args) as [[ws ts]|e0] eqn:R; [|discriminate].
  destruct (hfst_lookup (is_file env (hfst_analyzer args))
              (popen env (hfst_analyzer args)) ws) as [predicted|e0] eqn:P;
    [|discriminate].
  set (latin := match given (hfst_translit args) with
                | Some t => make_latin (hfst_lookup (is_file env t) (popen env t)) predicted
                | None => mkLatinRun [] predicted None
                end).
  destruct (raised latin) as [e0|] eqn:Rz; [discriminate|].
  destruct (compare accuracy_funcs (given (details_dir args)) (replace_aliases ts)
              (items_after latin)
              match given (details_dir args) with
              | Some d => clear_dir d w
              | None => w
              end) as [w1 [r|e0]] eqn:C; [|discriminate].
  destruct (compare_result_facts _ _ _ _ _ _ _ C) as (L & T & S).
  destruct (table_results percent tabulate repr pformat r (output_format args))
    as [out'|e0] eqn:O; [|discriminate].
  intros _. pose proof (corpus_read_done _ _ _ _ R) as Lr.
  destruct (hfst_lookup_ok _ _ _ _ P) as (F & stdout & Po & ->).
  exists ws, ts, stdout. split; [reflexivity|]. split; [exact Lr|].
  split; [exact F|]. split; [exact Po|]. split; [|split].
  - unfold replace_aliases in L. rewrite length_map in L. rewrite Lr, L.
    subst latin. destruct (given (hfst_translit args)) as [t|];
      [symmetry; apply make_latin_length | reflexivity].
  - intros t G. subst latin. rewrite G in Rz.
    destruct (make_latin_returned _ _ Rz) as (batch & tr & B).
    exact (proj1 (hfst_lookup_ok _ _ _ _ B)).
  - intros Fm -> . destruct ts; [|discriminate]. rewrite Fm in O.
    destruct (report_table percent tabulate repr pformat r S) as [Z _].
    rewrite Z in O; [discriminate | exact T].
Qed.

End MainFacts.


Lemma main_success_witness :
  exists stdout,
    (if String.eqb "sgh.hfst" "sgh.hfst" then (0%Z, "^cats/cat<n><pl>$") else (1%Z, EmptyString))
    = (0%Z, stdout) /\
    List.length (parse_apertium stdout) = 1.
Proof.
  destruct (main_success (fun _ => EmptyString) (fun _ => EmptyString)
              (fun _ => EmptyString) (fun _ => EmptyString)
              (mkEnv [["cats"; "cat<n><pl>"]] (fun _ => None) (fun _ => true)
                 (fun file _ => if String.eqb file "sgh.hfst"
                                then (0%Z, "^cats/cat<n><pl>$") else (1%Z, EmptyString)))
              (mkArgs "sgh.hfst" "STDIN" "json" false None None) []
              (String Re.newline EmptyString) eq_refl)
    as (ws & ts & stdout & R & _ & _ & Po & Ln & _).
  injection R as <- <-. exists stdout. split; [exact Po | exact Ln].
Defined.


(** ** [tag] of the lexicon generator *)

Lemma tag_app (a b : string) :
  ProcessDbDump.tag (a ++ b) = ProcessDbDump.tag a ++ ProcessDbDump.tag b.
Proof.
  induction a as [|c a IH]; [reflexivity|].
  change (String c a ++ b) with (String c (a ++ b)). cbn [ProcessDbDump.tag].
  rewrite IH. now destruct (Ascii.eqb c Re.lt_sign || Ascii.eqb c Re.gt_sign)%bool.
Qed.

Lemma tag_clean (t : string) :
  all_chars Re.not_angle t = true -> ProcessDbDump.tag t = t.
Proof.
  induction t as [|c t IH]; [reflexivity|].
  cbn [all_chars ProcessDbDump.tag]. unfold Re.not_angle at 1.
  intros H. apply andb_prop in H as [N A]. apply negb_true_iff in N.
  rewrite N. now rewrite (IH A).
Qed.

Lemma tag_is_clean (t : string) :
  all_chars Re.not_angle (ProcessDbDump.tag t) = true.
Proof.
  induction t as [|c t IH]; [reflexivity|]. cbn [ProcessDbDump.tag].
  destruct (Ascii.eqb c Re.lt_sign || Ascii.eqb c Re.gt_sign)%bool eqn:E; [exact IH|].
  cbn [all_chars]. unfold Re.not_angle at 1. now rewrite E, IH.
Qed.

(** X24. [tag] of process_db_dump.py removes angle brackets and nothing
    else: its result contains neither [<] nor [>], a string without them is
    returned as it is (so [tag] is idempotent), it works piece by piece, a
    name wrapped in [<] and [>] comes back bare, and the characters removed
    are exactly the brackets of the argument. *)
Theorem tag_strips_brackets (t a b : string) :
  all_chars Re.not_angle (ProcessDbDump.tag t) = true /\
  (all_chars Re.not_angle t = true -> ProcessDbDump.tag t = t) /\
  ProcessDbDump.tag (ProcessDbDump.tag t) = ProcessDbDump.tag t /\
  ProcessDbDump.tag (a ++ b) = ProcessDbDump.tag a ++ ProcessDbDump.tag b /\
  ProcessDbDump.tag ("<" ++ t ++ ">") = ProcessDbDump.tag t /\
  String.length (ProcessDbDump.tag t) + count_char "<" t + count_char ">" t =
  String.length t.
Proof.
  split; [apply tag_is_clean|]. split; [apply tag_clean|].
  split; [apply tag_clean, tag_is_clean|]. split; [apply tag_app|]. split.
  - rewrite !tag_app. change (ProcessDbDump.tag "<") with EmptyString.
    change (ProcessDbDump.tag ">") with EmptyString.
    change (EmptyString ++ ProcessDbDump.tag t ++ EmptyString)
      with (ProcessDbDump.tag t ++ EmptyString).
    clear. induction (ProcessDbDump.tag t) as [|c s IH]; [reflexivity|].
    change (String c s ++ EmptyString) with (String c (s ++ EmptyString)).
    now rewrite IH.
  - clear a b. induction t as [|c t IH]; [reflexivity|].
    cbn [ProcessDbDump.tag count_char String.length].
    change Re.lt_sign with "<"%char. change Re.gt_sign with ">"%char.
    destruct (Ascii.eqb c "<") eqn:L.
    + apply Ascii.eqb_eq in L. subst c. cbn [orb].
      change (Ascii.eqb "<" ">") with false. cbv iota. lia.
    + cbn [orb]. destruct (Ascii.eqb c ">"); cbn [String.length]; lia.
Qed.

Lemma tag_strips_brackets_witness :
  ProcessDbDump.tag "pro" = "pro".
Proof.
  exact (proj1 (proj2 (tag_strips_brackets "pro" EmptyString EmptyString)) eq_refl).
Defined.
